(** * zerver/lib/url_preview/oembed.py: provider matching and oEmbed data

    A shallow embedding of the oEmbed part of the link-preview pipeline:
    [scheme_to_regex], [compile_oembed_providers], [get_oembed_endpoint],
    [get_oembed_data] and [strip_cdata], together with the pieces of the
    Python runtime they lean on ([str] methods, [re], [dict],
    [urllib.parse.urlencode], [requests]).

    Python [str] values are modelled as [list ascii]; the development is
    about 7-bit ASCII text: case folding only touches [A-Z], and
    percent-encoding treats one character as one byte. *)

From Stdlib Require Import Ascii String.
From Stdlib Require Import List Bool Arith ZArith Lia DecimalString.
Import ListNotations.

Set Implicit Arguments.
Set Warnings "-register-all".

(** * Part I: the model *)

(** ** Text: the [str] methods the module uses *)

Definition str := list ascii.

Definition txt (s : string) : str := list_ascii_of_string s.

Definition ascii_eqb (a b : ascii) : bool := Ascii.eqb a b.

Fixpoint str_eqb (a b : str) : bool :=
  match a, b with
  | [], [] => true
  | x :: a', y :: b' => ascii_eqb x y && str_eqb a' b'
  | _, _ => false
  end.

(** [s.startswith(p)] *)
Fixpoint startswith (p s : str) : bool :=
  match p, s with
  | [], _ => true
  | x :: p', y :: s' => ascii_eqb x y && startswith p' s'
  | _ :: _, [] => false
  end.

(** [s.endswith(p)] *)
Definition endswith (p s : str) : bool := startswith (rev p) (rev s).

(** [p in s] for two strings: [p] occurs as a substring of [s]. *)
Fixpoint contains (p s : str) : bool :=
  startswith p s || match s with [] => false | _ :: s' => contains p s' end.

(** [s[a:b]] for [0 <= a] and a stop index [b] already clamped at [0]. *)
Definition slice (a b : nat) (s : str) : str := skipn a (firstn b s).

(** [sep.join(parts)] *)
Fixpoint join (sep : str) (parts : list str) : str :=
  match parts with
  | [] => []
  | p :: ps => match ps with [] => p | _ :: _ => p ++ sep ++ join sep ps end
  end.

(** [s.replace(old, new)] and [s.replace(old, new, count)].

    The scan goes left to right over non-overlapping occurrences.  [skip]
    counts the characters of the occurrence just replaced that are still
    to be dropped; [count = None] is the unlimited form. *)
Definition dec_count (count : option nat) : option nat :=
  match count with Some n => Some (pred n) | None => None end.

Definition count_left (count : option nat) : bool :=
  match count with Some 0 => false | _ => true end.

Fixpoint replace_scan (old new : str) (count : option nat) (skip : nat) (s : str) : str :=
  match skip with
  | S k => match s with [] => [] | _ :: s' => replace_scan old new count k s' end
  | 0 =>
    match s with
    | [] => []
    | c :: s' =>
      if count_left count && startswith old s
      then new ++ replace_scan old new (dec_count count) (pred (length old)) s'
      else c :: replace_scan old new count 0 s'
    end
  end.

(** An empty needle matches before every character and at the end. *)
Fixpoint replace_empty (new : str) (n : nat) (s : str) : str :=
  match n with
  | 0 => s
  | S n' => new ++ match s with [] => [] | c :: s' => c :: replace_empty new n' s' end
  end.

Definition str_replace (old new : str) (count : option nat) (s : str) : str :=
  match old with
  | [] => replace_empty new (match count with Some n => n | None => S (length s) end) s
  | _ :: _ => replace_scan old new count 0 s
  end.

(** ** [strip_cdata] *)

Definition CDATA_OPEN : str := Eval cbv in txt "<![CDATA[".
Definition CDATA_CLOSE : str := Eval cbv in txt "]]>".

(** [html[9:-3]]: a negative stop counts from the end and is clamped at 0. *)
Definition strip_cdata (html : str) : str :=
  if startswith CDATA_OPEN html && endswith CDATA_CLOSE html
  then slice 9 (length html - 3) html
  else html.

(** ** Insertion-ordered dictionaries

    A Python [dict] keeps its keys in the order of their first insertion;
    assigning to a key that is already there replaces the value and
    leaves the key where it is. *)

Section Dict.
Variables (K V : Type) (keq : K -> K -> bool).

Definition dict := list (K * V).

Fixpoint dict_get (k : K) (d : dict) : option V :=
  match d with
  | [] => None
  | (k', v) :: d' => if keq k' k then Some v else dict_get k d'
  end.

(** [d.get(k, default)] *)
Definition dict_get_default (k : K) (default : V) (d : dict) : V :=
  match dict_get k d with Some v => v | None => default end.

(** [d[k] = v] *)
Fixpoint dict_set (k : K) (v : V) (d : dict) : dict :=
  match d with
  | [] => [(k, v)]
  | (k', v') :: d' => if keq k' k then (k', v) :: d' else (k', v') :: dict_set k v d'
  end.

(** [list(d)] *)
Definition dict_keys (d : dict) : list K := map fst d.

End Dict.

(** [list(dict.fromkeys(l))] *)
Definition fromkeys_list (l : list str) : list str :=
  dict_keys (fold_left (fun d k => dict_set str_eqb k tt d) l []).

(** ** [re.escape] and [scheme_to_regex] *)

Definition LF : ascii := "010"%char.
Definition BACKSLASH : ascii := "\"%char.

(** [re._special_chars_map]: the characters [re.escape] puts a backslash
    before, [()[]{}?*+-|^$\.&~# \t\n\r\v\f]. *)
Definition special_chars : str :=
  Eval cbv in (txt "()[]{}?*+-|^$\.&~# " ++ ["009"; "010"; "013"; "011"; "012"])%char.

Definition is_special (c : ascii) : bool := existsb (ascii_eqb c) special_chars.

Definition re_escape (pattern : str) : str :=
  flat_map (fun c => if is_special c then [BACKSLASH; c] else [c]) pattern.

Definition WILD_SUB : str := Eval cbv in txt "://*.".
Definition COLON_SLASHES : str := Eval cbv in txt "://".
Definition HTTPS : str := Eval cbv in txt "https://".
Definition HTTP : str := Eval cbv in txt "http://".
Definition ESC_STAR : str := Eval cbv in txt "\*".
Definition DOT_STAR : str := Eval cbv in txt ".*".
Definition ESC_AMP : str := Eval cbv in txt "\&".
Definition AMP : str := Eval cbv in txt "&".
Definition STAR : str := Eval cbv in txt "*".
Definition DOLLAR : str := Eval cbv in txt "$".
Definition BAR : str := Eval cbv in txt "|".
Definition GROUP_OPEN : str := Eval cbv in txt "(?:".
Definition GROUP_CLOSE : str := Eval cbv in txt ")".

(** The other scheme of one variant, as the loop over [list(variants)]
    appends it. *)
Definition swap_scheme (variant : str) : list str :=
  if startswith HTTPS variant then [HTTP ++ skipn (length HTTPS) variant]
  else if startswith HTTP variant then [HTTPS ++ skipn (length HTTP) variant]
  else [].

(** Lines 24-34 of [scheme_to_regex]: the pattern, its bare-host form
    when it has a wildcard subdomain, the other scheme of both, and
    duplicates dropped. *)
Definition scheme_variants (scheme : str) : list str :=
  let variants :=
    [scheme] ++
    (if contains WILD_SUB scheme
     then [str_replace WILD_SUB COLON_SLASHES (Some 1) scheme] else []) in
  let variants := variants ++ flat_map swap_scheme variants in
  fromkeys_list variants.

(** Lines 38-40: the body of the second loop. *)
Definition variant_pattern (variant : str) : str :=
  let pattern :=
    str_replace ESC_AMP AMP None (str_replace ESC_STAR DOT_STAR None (re_escape variant)) in
  if negb (endswith STAR variant) then pattern ++ DOLLAR else pattern.

Definition scheme_to_regex (scheme : str) : str :=
  GROUP_OPEN ++ join BAR (map variant_pattern (scheme_variants scheme)) ++ GROUP_CLOSE.

(** ** Regular expressions: the fragment of [re] that the module emits

    Literals, escaped literals, [.], a postfix star, [$], alternation and
    non-capturing groups.  [re.compile] on anything else is outside this
    model ([None]). *)

Inductive regex : Type :=
| Eps                       (* the empty sequence *)
| Chr (c : ascii)           (* a literal character *)
| Dot                       (* [.]: any character but a line feed *)
| Eol                       (* [$] *)
| Star (r : regex)          (* greedy repetition *)
| Cat (r1 r2 : regex)
| Alt (r1 r2 : regex).

(** Atoms are collected in reverse; [mk_seq [an; ...; a1]] is
    [a1 a2 ... an], and [mk_alt [bk; ...; b1] last] is [b1|...|bk|last]. *)
Definition mk_seq (rev_atoms : list regex) : regex :=
  fold_left (fun acc a => Cat a acc) rev_atoms Eps.

Definition mk_alt (rev_branches : list regex) (last : regex) : regex :=
  fold_left (fun acc b => Alt b acc) rev_branches last.

Definition is_alnum (c : ascii) : bool :=
  let n := nat_of_ascii c in
  ((48 <=? n) && (n <=? 57)) || ((65 <=? n) && (n <=? 90)) || ((97 <=? n) && (n <=? 122)).

(** Characters with a meaning of their own in a pattern. *)
Definition meta_chars : str := Eval cbv in txt ".^$*+?{}[]\|()".

Definition is_meta (c : ascii) : bool := existsb (ascii_eqb c) meta_chars.

Definition repeatable (a : regex) : bool :=
  match a with
  | Eps | Eol | Star _ => false
  | _ => true
  end.

(** One pass over the pattern text.  [seq] is the sequence being read,
    [alts] the finished branches of the current group, and [stack] the
    same two for each enclosing group. *)
Fixpoint parse (s : str) (seq alts : list regex)
    (stack : list (list regex * list regex)) {struct s} : option regex :=
  match s with
  | [] =>
    match stack with
    | [] => Some (mk_alt alts (mk_seq seq))
    | _ :: _ => None
    end
  | c :: s1 =>
    if ascii_eqb c BACKSLASH then
      match s1 with
      | [] => None
      | e :: s2 => if is_alnum e then None else parse s2 (Chr e :: seq) alts stack
      end
    else if ascii_eqb c "("%char then
      match s1 with
      | q :: s2 =>
        match s2 with
        | n :: s3 =>
          if ascii_eqb q "?"%char && ascii_eqb n ":"%char
          then parse s3 [] [] ((seq, alts) :: stack)
          else None
        | [] => None
        end
      | [] => None
      end
    else if ascii_eqb c ")"%char then
      match stack with
      | (seq', alts') :: stack' =>
        parse s1 (mk_alt alts (mk_seq seq) :: seq') alts' stack'
      | [] => None
      end
    else if ascii_eqb c "|"%char then parse s1 [] (mk_seq seq :: alts) stack
    else if ascii_eqb c "."%char then parse s1 (Dot :: seq) alts stack
    else if ascii_eqb c "$"%char then parse s1 (Eol :: seq) alts stack
    else if ascii_eqb c "*"%char then
      match seq with
      | a :: seq' => if repeatable a then parse s1 (Star a :: seq') alts stack else None
      | [] => None
      end
    else if is_meta c then None
    else parse s1 (Chr c :: seq) alts stack
  end.

(** ASCII lower case: the folding [re.IGNORECASE] applies to a literal
    when pattern and text are 7-bit ASCII.  Python folds further
    characters (the Kelvin sign with [k], the long s with [s]), so on
    other text the real matcher accepts more than this one; a property
    that says what is rejected is stated for ASCII text. *)
Definition lower (c : ascii) : ascii :=
  let n := nat_of_ascii c in
  if (65 <=? n) && (n <=? 90) then ascii_of_nat (n + 32) else c.

Definition chr_match (ignorecase : bool) (c d : ascii) : bool :=
  if ignorecase then ascii_eqb (lower c) (lower d) else ascii_eqb c d.

(** [$] holds at the end of the text and just before a line feed that
    ends the text. *)
Definition at_eol (s : str) : bool :=
  match s with
  | [] => true
  | c :: s' => ascii_eqb c LF && match s' with [] => true | _ :: _ => false end
  end.

(** The backtracking matcher, in continuation-passing style: [exec r s k]
    tries every way for [r] to consume a prefix of [s] and hands the rest
    to [k].  A repetition only goes round again when the body has
    consumed something. *)
Fixpoint star_loop (body : str -> (str -> bool) -> bool) (fuel : nat)
    (s : str) (k : str -> bool) : bool :=
  match fuel with
  | 0 => k s
  | S fuel' =>
    body s (fun s' => (length s' <? length s) && star_loop body fuel' s' k) || k s
  end.

Fixpoint exec (ignorecase : bool) (r : regex) (s : str) (k : str -> bool) : bool :=
  match r with
  | Eps => k s
  | Chr c => match s with d :: s' => chr_match ignorecase c d && k s' | [] => false end
  | Dot => match s with d :: s' => negb (ascii_eqb d LF) && k s' | [] => false end
  | Eol => at_eol s && k s
  | Star r1 => star_loop (exec ignorecase r1) (length s) s k
  | Cat r1 r2 => exec ignorecase r1 s (fun s' => exec ignorecase r2 s' k)
  | Alt r1 r2 => exec ignorecase r1 s k || exec ignorecase r2 s k
  end.

(** A compiled pattern object.  Two of them are equal, and hash alike,
    when pattern text and flags agree. *)
Record Pattern : Type := mkPattern {
  pattern : str;
  ignorecase : bool;
  prog : regex
}.

Definition pattern_eqb (p q : Pattern) : bool :=
  str_eqb (pattern p) (pattern q) && Bool.eqb (ignorecase p) (ignorecase q).

(** [re.compile(text, flags)] *)
Definition re_compile (text : str) (flag : bool) : option Pattern :=
  match parse text [] [] [] with
  | Some r => Some (mkPattern text flag r)
  | None => None
  end.

(** [p.match(s) is not None]: some prefix of [s] matches. *)
Definition pattern_match (p : Pattern) (s : str) : bool :=
  exec (ignorecase p) (prog p) s (fun _ => true).

(** [re.match(text, s, flags) is not None], for a text of the fragment. *)
Definition re_match (text : str) (flag : bool) (s : str) : bool :=
  match re_compile text flag with
  | Some p => pattern_match p s
  | None => false
  end.

(** ** Python values and exceptions *)

(** What [orjson.loads] and [response.json()] produce.  [JNull] is
    [None]; [JInt] is an [int]; [JFloat m e] is the [float] of value
    [m * 2^e]; a [JObj] lists the items of a [dict] in insertion order,
    with pairwise distinct keys. *)
Inductive json : Type :=
| JNull
| JBool (b : bool)
| JInt (n : Z)
| JFloat (mantissa exponent : Z)
| JStr (s : str)
| JArr (items : list json)
| JObj (items : list (str * json)).

(** Truth value of an object in a condition. *)
Definition truthy (v : json) : bool :=
  match v with
  | JNull => false
  | JBool b => b
  | JInt n => negb (Z.eqb n 0)
  | JFloat m _ => negb (Z.eqb m 0)
  | JStr s => match s with [] => false | _ :: _ => true end
  | JArr l => match l with [] => false | _ :: _ => true end
  | JObj l => match l with [] => false | _ :: _ => true end
  end.

(** [v == "literal"] *)
Definition eq_str (v : json) (literal : str) : bool :=
  match v with
  | JStr s => str_eqb s literal
  | _ => false
  end.

Inductive exn : Type :=
| TypeError
| AttributeError
| RegexError
| RequestException     (* [requests.RequestException] and its subclasses *)
| JSONDecodeError
| RecursionError
| ValueError           (* a [ValueError] that is not a [JSONDecodeError] *)
| OtherException.

(** A call either returns a value or raises. *)
Inductive outcome (A : Type) : Type :=
| Ret (a : A)
| Raise (e : exn).

Arguments Ret {A} a.
Arguments Raise {A} e.

Definition bind {A B : Type} (m : outcome A) (f : A -> outcome B) : outcome B :=
  match m with
  | Ret a => f a
  | Raise e => Raise e
  end.

Notation "x <- m ;; k" := (bind m (fun x => k))
  (at level 61, m at next level, right associativity).

(** A [for] loop whose body may raise, threading the loop's state. *)
Fixpoint for_each {A S : Type} (body : A -> S -> outcome S) (l : list A) (st : S)
    : outcome S :=
  match l with
  | [] => Ret st
  | a :: l' => st' <- body a st ;; for_each body l' st'
  end.

Fixpoint map_each {A B : Type} (f : A -> outcome B) (l : list A) : outcome (list B) :=
  match l with
  | [] => Ret []
  | a :: l' => b <- f a ;; bs <- map_each f l' ;; Ret (b :: bs)
  end.

(** [iter(v)]: a list gives its items, a string its characters, a
    [dict] its keys; anything else is not iterable. *)
Definition py_iter (v : json) : outcome (list json) :=
  match v with
  | JArr l => Ret l
  | JStr s => Ret (map (fun c => JStr [c]) s)
  | JObj l => Ret (map (fun kv => JStr (fst kv)) l)
  | JNull | JBool _ | JInt _ | JFloat _ _ => Raise TypeError
  end.

(** [v.get(key, default)]: only a [dict] has the method. *)
Definition py_get (v : json) (key : str) (default : json) : outcome json :=
  match v with
  | JObj l => Ret (dict_get_default str_eqb key default l)
  | _ => Raise AttributeError
  end.

(** ** [compile_oembed_providers] *)

Definition KEY_ENDPOINTS : str := Eval cbv in txt "endpoints".
Definition KEY_SCHEMES : str := Eval cbv in txt "schemes".
Definition KEY_URL : str := Eval cbv in txt "url".
Definition FORMAT_PLACEHOLDER : str := Eval cbv in txt "{format}".
Definition FORMAT_JSON : str := Eval cbv in txt "json".

Definition endpoint_map_t := dict Pattern str.

(** [scheme_to_regex(s)] on whatever the catalogue holds: a scalar
    fails at [in], a list or [dict] at the first [str] method. *)
Definition scheme_to_regex_any (s : json) : outcome str :=
  match s with
  | JStr scheme => Ret (scheme_to_regex scheme)
  | JNull | JBool _ | JInt _ | JFloat _ _ => Raise TypeError
  | JArr _ | JObj _ => Raise AttributeError
  end.

Definition endpoint_regex (regexes : list str) : str :=
  GROUP_OPEN ++ join BAR regexes ++ GROUP_CLOSE.

(** The body of the inner loop. *)
Definition register_endpoint (endpoint : json) (endpoint_map : endpoint_map_t)
    : outcome endpoint_map_t :=
  schemes <- py_get endpoint KEY_SCHEMES (JArr []) ;;
  endpoint_url <- py_get endpoint KEY_URL JNull ;;
  if negb (truthy schemes) || negb (truthy endpoint_url) then Ret endpoint_map
  else
    formatted_endpoint <-
      match endpoint_url with
      | JStr u => Ret (str_replace FORMAT_PLACEHOLDER FORMAT_JSON None u)
      | _ => Raise AttributeError
      end ;;
    items <- py_iter schemes ;;
    regexes <- map_each scheme_to_regex_any items ;;
    let regex_str := endpoint_regex regexes in
    match re_compile regex_str true with
    | Some compiled_regex =>
      Ret (dict_set pattern_eqb compiled_regex formatted_endpoint endpoint_map)
    | None => Raise RegexError
    end.

(** The body of the outer loop. *)
Definition register_provider (provider : list (str * json)) (endpoint_map : endpoint_map_t)
    : outcome endpoint_map_t :=
  endpoints <- py_iter (dict_get_default str_eqb KEY_ENDPOINTS (JArr []) provider) ;;
  for_each register_endpoint endpoints endpoint_map.

Definition compile_oembed_providers (providers : list (list (str * json)))
    : outcome endpoint_map_t :=
  for_each register_provider providers [].

(** ** [get_oembed_endpoint]

    [OEMBED_ENDPOINT_MAP] is a module global; here it is an argument. *)
Fixpoint get_oembed_endpoint (OEMBED_ENDPOINT_MAP : endpoint_map_t) (url : str)
    : option str :=
  match OEMBED_ENDPOINT_MAP with
  | [] => None
  | (compiled_regex, endpoint_url) :: rest =>
    if pattern_match compiled_regex url then Some endpoint_url
    else get_oembed_endpoint rest url
  end.

(** ** [urllib.parse.urlencode] *)

(** [str(n)] for an [int]. *)
Definition str_of_int (n : Z) : str :=
  list_ascii_of_string (DecimalString.NilZero.string_of_int (Z.to_int n)).

(** [urllib.parse._ALWAYS_SAFE]: letters, digits and [_.-~]. *)
Definition always_safe_extra : str := Eval cbv in txt "_.-~".

Definition always_safe (c : ascii) : bool :=
  is_alnum c || existsb (ascii_eqb c) always_safe_extra.

Definition HEX_DIGITS : str := Eval cbv in txt "0123456789ABCDEF".

Definition hex_digit (n : nat) : ascii := nth n HEX_DIGITS "0"%char.

(** [%XX], upper-case hexadecimal. *)
Definition percent (c : ascii) : str :=
  let n := nat_of_ascii c in
  ["%"%char; hex_digit (n / 16); hex_digit (n mod 16)].

(** [quote(s, safe)] *)
Definition quote (safe : str) (s : str) : str :=
  flat_map (fun c =>
    if always_safe c || existsb (ascii_eqb c) safe then [c] else percent c) s.

Definition SPACE : str := Eval cbv in txt " ".
Definition PLUS : str := Eval cbv in txt "+".

(** [quote_plus(s)] *)
Definition quote_plus (s : str) : str :=
  if negb (contains SPACE s) then quote [] s
  else str_replace SPACE PLUS None (quote SPACE s).

Inductive param : Type :=
| PStr (s : str)
| PInt (n : Z).

Definition param_str (v : param) : str :=
  match v with
  | PStr s => s
  | PInt n => str_of_int n
  end.

(** [urlencode(params)] for a [dict] of [str] keys. *)
Definition urlencode (params : list (str * param)) : str :=
  join AMP (map (fun kv => quote_plus (fst kv) ++ txt "=" ++ quote_plus (param_str (snd kv)))
                params).

(** ** The HTTP collaborator *)

(** What the module reads of a [requests.Response]: the status code and
    what [response.json()] does.  [json_body] is the value the call
    returns, [None] when it raises; [json_failure] is the exception it
    raises then: [JSONDecodeError] for a body that is not JSON,
    [RecursionError] for one nested too deep for the decoder,
    [ValueError] for a number too long for it. *)
Record Response : Type := mkResponseRaising {
  status_code : Z;
  json_body : option json;
  json_failure : exn
}.

(** A response whose body is either decoded or not JSON. *)
Definition mkResponse (status : Z) (body : option json) : Response :=
  mkResponseRaising status body JSONDecodeError.

(** [response.ok]: [raise_for_status()] stays silent, that is, the
    status is not in [400..599]. *)
Definition response_ok (r : Response) : bool :=
  negb ((400 <=? status_code r)%Z && (status_code r <? 600)%Z).

Definition response_json (r : Response) : outcome json :=
  match json_body r with
  | Some v => Ret v
  | None => Raise (json_failure r)
  end.

(** [session.get]: the response to a URL, or the exception raised. *)
Definition Session := str -> outcome Response.

(** The exceptions named by the [except] clause. *)
Definition caught (e : exn) : bool :=
  match e with
  | RequestException | JSONDecodeError => true
  | _ => false
  end.

(** ** [get_oembed_data] *)

(** Modelled from the spec: the class [UrlOEmbedData] of
    [zerver/lib/url_preview/types.py] is not among the sources.  The
    record has the fields of the specification's media preview, which
    are the keyword arguments the module passes: the resource kind, the
    image, the embeddable markup ([None] for a photo, which leaves it
    out), the title and the description.  The values are stored as they
    come, without validation. *)
Record UrlOEmbedData : Type := mkUrlOEmbedData {
  image : json;
  type : str;
  html : option str;
  title : json;
  description : json
}.

Definition KEY_TYPE : str := Eval cbv in txt "type".
Definition KEY_IMAGE : str := Eval cbv in txt "image".
Definition KEY_THUMBNAIL_URL : str := Eval cbv in txt "thumbnail_url".
Definition KEY_HTML : str := Eval cbv in txt "html".
Definition KEY_TITLE : str := Eval cbv in txt "title".
Definition KEY_DESCRIPTION : str := Eval cbv in txt "description".
Definition KEY_FORMAT : str := Eval cbv in txt "format".
Definition KEY_MAXWIDTH : str := Eval cbv in txt "maxwidth".
Definition KEY_MAXHEIGHT : str := Eval cbv in txt "maxheight".
Definition PHOTO : str := Eval cbv in txt "photo".
Definition VIDEO : str := Eval cbv in txt "video".
Definition QUESTION : str := Eval cbv in txt "?".

(** Lines 109-130: the reading of the decoded response. *)
Definition oembed_of_data (data : json) : outcome (option UrlOEmbedData) :=
  oembed_resource_type <- py_get data KEY_TYPE (JStr []) ;;
  image_default <- py_get data KEY_IMAGE JNull ;;
  image <- py_get data KEY_URL image_default ;;
  thumbnail <- py_get data KEY_THUMBNAIL_URL JNull ;;
  html <- py_get data KEY_HTML (JStr []) ;;
  if eq_str oembed_resource_type PHOTO && truthy image then
    title <- py_get data KEY_TITLE JNull ;;
    description <- py_get data KEY_DESCRIPTION JNull ;;
    Ret (Some (mkUrlOEmbedData image PHOTO None title description))
  else if eq_str oembed_resource_type VIDEO && truthy html && truthy thumbnail then
    stripped <- match html with
                | JStr h => Ret (strip_cdata h)
                | _ => Raise AttributeError
                end ;;
    title <- py_get data KEY_TITLE JNull ;;
    description <- py_get data KEY_DESCRIPTION JNull ;;
    Ret (Some (mkUrlOEmbedData thumbnail VIDEO (Some stripped) title description))
  else Ret None.

(** The function returns the trace of the URLs it has sent a GET to,
    and its result or the exception it lets through.  [maxwidth],
    [maxheight] and [session] are [None] when the caller leaves them
    out; [PreviewSession], of [zerver/lib/url_preview/preview.py] and not
    among the sources, is the session built in that case and is taken as
    an argument. *)
Definition get_oembed_data (OEMBED_ENDPOINT_MAP : endpoint_map_t)
    (PreviewSession : Session) (url : str) (maxwidth maxheight : option Z)
    (session : option Session) : list str * outcome (option UrlOEmbedData) :=
  let maxwidth := match maxwidth with Some w => w | None => 640%Z end in
  let maxheight := match maxheight with Some h => h | None => 480%Z end in
  match get_oembed_endpoint OEMBED_ENDPOINT_MAP url with
  | None => ([], Ret None)
  | Some endpoint =>
    let session := match session with Some s => s | None => PreviewSession end in
    let params :=
      [(KEY_URL, PStr url); (KEY_FORMAT, PStr FORMAT_JSON);
       (KEY_MAXWIDTH, PInt maxwidth); (KEY_MAXHEIGHT, PInt maxheight)] in
    let request_url := endpoint ++ QUESTION ++ urlencode params in
    match session request_url with
    | Raise e => ([request_url], if caught e then Ret None else Raise e)
    | Ret response =>
      if negb (response_ok response) then ([request_url], Ret None)
      else
        match response_json response with
        | Raise e => ([request_url], if caught e then Ret None else Raise e)
        | Ret data => ([request_url], oembed_of_data data)
        end
    end
  end.

(** ** Vocabulary of the specification

    The definitions below do not come from the module; they spell out
    the words the properties are stated in. *)

(** *** Regular expressions *)

(** What a regular expression denotes: [matches f r s s'] when [r] can
    consume a prefix of [s] and leave [s'], under flag [f]
    ([re.IGNORECASE] or not). *)
Inductive matches (f : bool) : regex -> str -> str -> Prop :=
| M_Eps s : matches f Eps s s
| M_Chr c d s : chr_match f c d = true -> matches f (Chr c) (d :: s) s
| M_Dot d s : d <> LF -> matches f Dot (d :: s) s
| M_Eol s : at_eol s = true -> matches f Eol s s
| M_Star0 r s : matches f (Star r) s s
| M_StarS r s s' s'' :
    matches f r s s' -> matches f (Star r) s' s'' -> matches f (Star r) s s''
| M_Cat r1 r2 s s' s'' :
    matches f r1 s s' -> matches f r2 s' s'' -> matches f (Cat r1 r2) s s''
| M_AltL r1 r2 s s' : matches f r1 s s' -> matches f (Alt r1 r2) s s'
| M_AltR r1 r2 s s' : matches f r2 s s' -> matches f (Alt r1 r2) s s'.

(** [a1 a2 ... an] and [b1|b2|...|bn] as trees. *)
Definition seq_of (atoms : list regex) : regex := fold_right Cat Eps atoms.

Fixpoint alt_of (branches : list regex) : regex :=
  match branches with
  | [] => Eps
  | b :: bs => match bs with [] => b | _ :: _ => Alt b (alt_of bs) end
  end.

(** No [$] occurs in the tree. *)
Fixpoint eol_free (r : regex) : bool :=
  match r with
  | Eps | Chr _ | Dot => true
  | Eol => false
  | Star r1 => eol_free r1
  | Cat r1 r2 | Alt r1 r2 => eol_free r1 && eol_free r2
  end.

(** A matcher step is monotone when a continuation that accepts more
    lets it accept more. *)
Definition monotone (body : str -> (str -> bool) -> bool) : Prop :=
  forall s (k1 k2 : str -> bool),
    (forall t, k1 t = true -> k2 t = true) -> body s k1 = true -> body s k2 = true.

(** *** Patterns *)

(** What one character of a pattern becomes in the regular expression,
    in the words of the specification: a star is [.*], an ampersand
    stays as it is, any other special character gets a backslash. *)
Definition pattern_token (c : ascii) : str :=
  if ascii_eqb c "*" then DOT_STAR
  else if ascii_eqb c "&" then AMP
  else if is_special c then [BACKSLASH; c]
  else [c].

(** The same in terms of what is matched. *)
Definition pattern_atom (c : ascii) : regex :=
  if ascii_eqb c "*" then Star Dot else Chr c.

(** The pattern after [re.escape] and the first of the two replacements. *)
Definition star_token (c : ascii) : str :=
  if ascii_eqb c "*" then DOT_STAR
  else if is_special c then [BACKSLASH; c]
  else [c].

(** [s] does not begin with [x]. *)
Definition head_not (x : ascii) (s : str) : Prop :=
  match s with
  | [] => True
  | c :: _ => c <> x
  end.

(** The tree of one variant, of one pattern, and of the patterns of one
    endpoint. *)
Definition variant_atoms (variant : str) : list regex :=
  map pattern_atom variant ++ (if endswith STAR variant then [] else [Eol]).

Definition variant_regex (variant : str) : regex := seq_of (variant_atoms variant).

Definition scheme_regex (scheme : str) : regex :=
  alt_of (map variant_regex (scheme_variants scheme)).

Definition schemes_regex (schemes : list str) : regex :=
  Cat (alt_of (map (fun s => Cat (scheme_regex s) Eps) schemes)) Eps.

(** A text without a line feed. *)
Definition no_lf (s : str) : Prop := ~ In LF s.

(** [u] is the text [p] read as a wildcard pattern: each [*] stands for
    a run of characters on one line, and every other character for
    itself, letter case aside. *)
Inductive instance_of : str -> str -> Prop :=
| inst_nil : instance_of [] []
| inst_chr c d p u :
    c <> "*"%char -> lower c = lower d -> instance_of p u ->
    instance_of (c :: p) (d :: u)
| inst_star w p u :
    no_lf w -> instance_of p u -> instance_of ("*"%char :: p) (w ++ u).

(** Two texts that differ in letter case only. *)
Definition same_fold (a b : str) : Prop := map lower a = map lower b.

Definition STAR_DOT : str := Eval cbv in txt "*.".
Definition FULL_STOP : str := Eval cbv in txt ".".

(** *** Catalogues and endpoint maps *)

(** Some endpoint of the catalogue, one with a URL template, lists the
    pattern [scheme]. *)
Definition declares (providers : list (list (str * json))) (scheme : str) : Prop :=
  exists provider endpoints e schemes endpoint_url,
    In provider providers /\
    dict_get str_eqb KEY_ENDPOINTS provider = Some (JArr endpoints) /\
    In (JObj e) endpoints /\
    dict_get str_eqb KEY_SCHEMES e = Some (JArr schemes) /\
    In (JStr scheme) schemes /\
    dict_get str_eqb KEY_URL e = Some endpoint_url /\
    truthy endpoint_url = true.

(** Every key of the map is the pattern object [re.compile] returns for
    its own text and flags. *)
Definition compiled_keys (m : endpoint_map_t) : Prop :=
  forall k, In k (dict_keys m) -> re_compile (pattern k) (ignorecase k) = Some k.

(** [m'] comes after [m]: the keys of [m] are still there. *)
Definition extends (m m' : endpoint_map_t) : Prop :=
  (compiled_keys m -> compiled_keys m') /\
  (forall k, In k (dict_keys m) -> In k (dict_keys m')).

(** An endpoint entry without patterns or without a URL template. *)
Definition partial_endpoint (e : list (str * json)) : Prop :=
  dict_get str_eqb KEY_SCHEMES e = None \/
  dict_get str_eqb KEY_SCHEMES e = Some (JArr []) \/
  dict_get str_eqb KEY_URL e = None.

(** [template] is the URL template of some endpoint of the catalogue. *)
Definition template_of (providers : list (list (str * json))) (template : str) : Prop :=
  exists provider endpoints e,
    In provider providers /\
    py_iter (dict_get_default str_eqb KEY_ENDPOINTS (JArr []) provider) = Ret endpoints /\
    In (JObj e) endpoints /\
    dict_get str_eqb KEY_URL e = Some (JStr template).

(** Every value of the map is a template of the catalogue with its
    placeholder filled in. *)
Definition formatted_values (providers : list (list (str * json))) (m : endpoint_map_t)
    : Prop :=
  forall k v, In (k, v) m ->
    exists template,
      template_of providers template /\
      v = str_replace FORMAT_PLACEHOLDER FORMAT_JSON None template.

(** *** Responses and query strings *)

(** A key of a decoded response is present when it holds a non-empty
    value. *)
Definition present (key : str) (d : list (str * json)) : Prop :=
  exists v, dict_get str_eqb key d = Some v /\ truthy v = true.

(** What [quote_plus] does to one character. *)
Definition quote_plus_char (c : ascii) : str :=
  if always_safe c then [c]
  else if ascii_eqb c " "%char then PLUS
  else percent c.

(** A character other than the two separators of a query string. *)
Definition plain (c : ascii) : bool :=
  negb (ascii_eqb c "&") && negb (ascii_eqb c "=").

(** Reading a query string back: [+] is a space and [%XX] a byte. *)
Definition hex_value (c : ascii) : option nat :=
  let n := nat_of_ascii c in
  if (48 <=? n) && (n <=? 57) then Some (n - 48)
  else if (65 <=? n) && (n <=? 70) then Some (n - 55)
  else if (97 <=? n) && (n <=? 102) then Some (n - 87)
  else None.

Fixpoint unquote_plus (s : str) : str :=
  match s with
  | [] => []
  | c :: s1 =>
    if ascii_eqb c "+"%char then " "%char :: unquote_plus s1
    else if ascii_eqb c "%"%char then
      match s1 with
      | h1 :: s2 =>
        match s2 with
        | h2 :: s3 =>
          match hex_value h1, hex_value h2 with
          | Some a, Some b => ascii_of_nat (16 * a + b) :: unquote_plus s3
          | _, _ => c :: unquote_plus s1
          end
        | [] => c :: unquote_plus s1
        end
      | [] => [c]
      end
    else c :: unquote_plus s1
  end.

(** The pieces of [s] between occurrences of [sep]. *)
Fixpoint split_on (sep : ascii) (s : str) : list str :=
  match s with
  | [] => [[]]
  | c :: s' =>
    if ascii_eqb c sep then [] :: split_on sep s'
    else match split_on sep s' with
         | [] => [[c]]
         | p :: ps => (c :: p) :: ps
         end
  end.

(** [name=value] cut at its first [=]. *)
Fixpoint cut_at (sep : ascii) (s : str) : str * str :=
  match s with
  | [] => ([], [])
  | c :: s' =>
    if ascii_eqb c sep then ([], s')
    else let (a, b) := cut_at sep s' in (c :: a, b)
  end.

(** The parameters a query string carries, in order, blank values kept. *)
Definition query_params (query : str) : list (str * str) :=
  map (fun piece => let (k, v) := cut_at "="%char piece in
                    (unquote_plus k, unquote_plus v))
      (split_on "&"%char query).

(** ** Fixtures

    Catalogue entries and responses in the style of
    [zerver/tests/test_link_embed.py]. *)

Definition endpoint_entry (schemes : list str) (endpoint_url : str) : json :=
  JObj [(KEY_SCHEMES, JArr (map JStr schemes)); (KEY_URL, JStr endpoint_url)].

Definition provider_entry (name : str) (endpoints : list json) : list (str * json) :=
  [(txt "provider_name", JStr name); (KEY_ENDPOINTS, JArr endpoints)].

(** One provider, as in [test_compile_oembed_providers_format_and_http_normalization]. *)
Definition fixture_providers : list (list (str * json)) :=
  [provider_entry (txt "FormatAndSchemeVariants")
     [endpoint_entry [txt "https://example.com/watch/*"]
                     (txt "https://example.com/oembed.{format}")]].

Definition fixture_map : endpoint_map_t :=
  Eval vm_compute in
    match compile_oembed_providers fixture_providers with
    | Ret m => m
    | Raise _ => []
    end.

Definition fixture_url : str := Eval cbv in txt "https://example.com/watch/123".

Definition fixture_endpoint : str := Eval cbv in txt "https://example.com/oembed.json".

(** A session that answers every request with the same response. *)
Definition constant_session (r : Response) : Session := fun _ => Ret r.

Definition photo_response (fields : list (str * json)) : Response :=
  mkResponse 200 (Some (JObj ((KEY_TYPE, JStr PHOTO) :: fields))).

Definition video_response (fields : list (str * json)) : Response :=
  mkResponse 200 (Some (JObj ((KEY_TYPE, JStr VIDEO) :: fields))).

(** The catalogue of [test_compile_oembed_providers_wildcard_matches_bare_domain]. *)
Definition wildcard_providers : list (list (str * json)) :=
  [provider_entry (txt "WildcardSubdomain")
     [endpoint_entry [txt "https://*.example.com/watch/*"]
                     (txt "https://example.com/oembed")]].

Definition wildcard_map : endpoint_map_t :=
  Eval vm_compute in
    match compile_oembed_providers wildcard_providers with
    | Ret m => m
    | Raise _ => []
    end.

(** Two providers that declare the same pattern. *)
Definition first_provider : list (str * json) :=
  provider_entry (txt "First")
    [endpoint_entry [txt "https://example.com/*"] (txt "https://first.example.com/oembed")].

Definition second_provider : list (str * json) :=
  provider_entry (txt "Second")
    [endpoint_entry [txt "https://example.com/*"] (txt "https://second.example.com/oembed")].

Definition video_url : str := Eval cbv in txt "https://example.com/video/123".

(** The pattern of the case [anchors_non_wildcard_path] of
    [test_scheme_to_regex], alone in a catalogue. *)
Definition anchored_scheme : str := Eval cbv in txt "https://example.com/watch".

Definition anchored_providers : list (list (str * json)) :=
  [provider_entry (txt "Anchored")
     [endpoint_entry [anchored_scheme] (txt "https://example.com/oembed")]].

(** Helpers for the cases of the test-suite. *)
Definition matches_all (regex : str) (flag : bool) (urls : list str) : bool :=
  forallb (re_match regex flag) urls.

Definition matches_none (regex : str) (flag : bool) (urls : list str) : bool :=
  forallb (fun u => negb (re_match regex flag u)) urls.


(** ** Further vocabulary

    Words for the properties of Part III. *)

(** A value [iter] refuses. *)
Definition not_iterable (v : json) : Prop :=
  match v with
  | JNull | JBool _ | JInt _ | JFloat _ _ => True
  | JStr _ | JArr _ | JObj _ => False
  end.

(** A catalogue of the documented shape: [endpoints], where present, is
    a list of objects; [schemes], where present, a list of strings;
    [url], where present, a string. *)
Definition well_typed_endpoint (endpoint : json) : Prop :=
  exists e, endpoint = JObj e /\
    (dict_get str_eqb KEY_SCHEMES e = None \/
     exists schemes, dict_get str_eqb KEY_SCHEMES e = Some (JArr (map JStr schemes))) /\
    (dict_get str_eqb KEY_URL e = None \/
     exists u, dict_get str_eqb KEY_URL e = Some (JStr u)).

Definition well_typed_provider (provider : list (str * json)) : Prop :=
  dict_get str_eqb KEY_ENDPOINTS provider = None \/
  exists endpoints,
    dict_get str_eqb KEY_ENDPOINTS provider = Some (JArr endpoints) /\
    Forall well_typed_endpoint endpoints.

(** Some endpoint entry of the catalogue yields the patterns [schemes]
    when its [schemes] value is iterated, and holds the URL template
    [template]. *)
Definition entry_of (providers : list (list (str * json)))
    (schemes : list str) (template : str) : Prop :=
  exists provider endpoints e,
    In provider providers /\
    py_iter (dict_get_default str_eqb KEY_ENDPOINTS (JArr []) provider) = Ret endpoints /\
    In (JObj e) endpoints /\
    py_iter (dict_get_default str_eqb KEY_SCHEMES (JArr []) e) = Ret (map JStr schemes) /\
    dict_get str_eqb KEY_URL e = Some (JStr template).

(** The pattern object [re.compile] returns, with [re.IGNORECASE], for
    the joined expressions of a list of patterns. *)
Definition compiled_schemes (schemes : list str) : Pattern :=
  mkPattern (endpoint_regex (map scheme_to_regex schemes)) true (schemes_regex schemes).

(** The item [(k, v)] is what one endpoint entry of the catalogue
    registers: the pattern object of its patterns, and its template with
    the placeholder filled in. *)
Definition registered_by (providers : list (list (str * json)))
    (k : Pattern) (v : str) : Prop :=
  exists schemes template,
    entry_of providers schemes template /\
    schemes <> [] /\ template <> [] /\
    k = compiled_schemes schemes /\
    v = str_replace FORMAT_PLACEHOLDER FORMAT_JSON None template.

(** The URLs a pattern stands for, as [scheme_to_regex] reads it: an
    instance of one of its variants, followed by anything when the
    pattern ends in a star, and by nothing or one line feed when it does
    not. *)
Definition covers (scheme : str) (url : str) : Prop :=
  exists v u tail,
    In v (scheme_variants scheme) /\
    url = u ++ tail /\
    instance_of v u /\
    (endswith STAR scheme = true \/ tail = [] \/ tail = [LF]).

(** A text of 7-bit ASCII characters. *)
Definition is_ascii (s : str) : Prop :=
  forallb (fun c => nat_of_ascii c <? 128) s = true.

(** An integer that [str] converts: one within the interpreter's limit
    of 4300 decimal digits. *)
Definition printable (n : Z) : Prop := (Z.abs n < 10 ^ 4300)%Z.

(** The characters of an encoded query string: the ones [quote] leaves
    alone, and the marks of the encoding itself. *)
Definition QUERY_MARKS : str := Eval cbv in txt "%+&=".

Definition query_char (c : ascii) : bool :=
  always_safe c || existsb (ascii_eqb c) QUERY_MARKS.

(** The catalogue of [test_get_oembed_endpoint_matches_first_provider]. *)
Definition generic_specific_providers : list (list (str * json)) :=
  [provider_entry (txt "GenericProvider")
     [endpoint_entry [txt "https://example.com/*"]
                     (txt "https://generic.example.com/oembed")];
   provider_entry (txt "SpecificProvider")
     [endpoint_entry [txt "https://example.com/video/*"]
                     (txt "https://specific.example.com/oembed")]].

Definition generic_specific_map : endpoint_map_t :=
  Eval vm_compute in
    match compile_oembed_providers generic_specific_providers with
    | Ret m => m
    | Raise _ => []
    end.

(** A session that fails outside the [requests] exceptions. *)
Definition broken_session : Session := fun _ => Raise OtherException.
(** * Part II: properties *)

Unset Implicit Arguments.

Arguments is_special : simpl never.
Arguments is_meta : simpl never.
Arguments is_alnum : simpl never.

(** ** Text *)

Lemma ascii_eqb_eq a b : ascii_eqb a b = true <-> a = b.
Proof. apply Ascii.eqb_eq. Qed.

Lemma ascii_eqb_neq a b : ascii_eqb a b = false <-> a <> b.
Proof. apply Ascii.eqb_neq. Qed.

Lemma ascii_eqb_refl a : ascii_eqb a a = true.
Proof. apply Ascii.eqb_refl. Qed.

Lemma str_eqb_eq a b : str_eqb a b = true <-> a = b.
Proof.
  revert b; induction a as [|x a IH]; destruct b as [|y b]; simpl;
    try (split; intro; discriminate); try tauto.
  rewrite andb_true_iff, ascii_eqb_eq, IH.
  split; [intros [-> ->]; reflexivity | intro E; inversion E; auto].
Qed.

Lemma str_eqb_refl a : str_eqb a a = true.
Proof. apply str_eqb_eq; reflexivity. Qed.

Lemma str_eqb_neq a b : str_eqb a b = false <-> a <> b.
Proof.
  split.
  - intros E H. apply str_eqb_eq in H. congruence.
  - intro H. destruct (str_eqb a b) eqn:E; auto.
    apply str_eqb_eq in E. contradiction.
Qed.

Lemma str_eqb_sym a b : str_eqb a b = str_eqb b a.
Proof.
  destruct (str_eqb b a) eqn:E.
  - apply str_eqb_eq in E. subst. apply str_eqb_refl.
  - apply str_eqb_neq in E. apply str_eqb_neq. congruence.
Qed.

Lemma startswith_app p s : startswith p (p ++ s) = true.
Proof. induction p; simpl; auto. rewrite ascii_eqb_refl. auto. Qed.

Lemma startswith_iff p s : startswith p s = true <-> exists t, s = p ++ t.
Proof.
  revert s; induction p as [|x p IH]; intro s; simpl.
  - split; eauto.
  - destruct s as [|y s].
    + split; [discriminate | intros [t E]; discriminate].
    + rewrite andb_true_iff, ascii_eqb_eq, IH. split.
      * intros [-> [t ->]]. eauto.
      * intros [t E]. inversion E; subst. eauto.
Qed.

Lemma endswith_iff p s : endswith p s = true <-> exists t, s = t ++ p.
Proof.
  unfold endswith. rewrite startswith_iff. split; intros [t E].
  - exists (rev t). rewrite <- (rev_involutive s), E, rev_app_distr, rev_involutive.
    reflexivity.
  - exists (rev t). rewrite E, rev_app_distr. reflexivity.
Qed.

Lemma startswith_skipn p s :
  startswith p s = true -> s = p ++ skipn (length p) s.
Proof.
  intro H. apply startswith_iff in H. destruct H as [t ->].
  rewrite skipn_app, skipn_all, Nat.sub_diag. reflexivity.
Qed.

(** The skip counter of [replace_scan] just drops characters. *)
Lemma replace_scan_skip old new count k s :
  replace_scan old new count k s = replace_scan old new count 0 (skipn k s).
Proof.
  revert s; induction k as [|k IH]; intro s; [reflexivity|].
  destruct s as [|c s]; [reflexivity|]. simpl. apply IH.
Qed.

(** One step of [s.replace(old, new)] for a needle that is not empty. *)
Lemma str_replace_step old new s :
  old <> [] ->
  str_replace old new None s =
    match s with
    | [] => []
    | c :: s' =>
      if startswith old s
      then new ++ str_replace old new None (skipn (length old) s)
      else c :: str_replace old new None s'
    end.
Proof.
  intro Hold. destruct old as [|o old]; [contradiction|].
  unfold str_replace. destruct s as [|c s]; [reflexivity|].
  cbn [replace_scan count_left andb dec_count].
  destruct (startswith (o :: old) (c :: s)); [|reflexivity].
  rewrite replace_scan_skip. reflexivity.
Qed.

(** ** Fixtures *)

Lemma fixture_map_compiled :
  compile_oembed_providers fixture_providers = Ret fixture_map.
Proof. vm_compute. reflexivity. Qed.

Lemma fixture_endpoint_found :
  get_oembed_endpoint fixture_map fixture_url = Some fixture_endpoint.
Proof. vm_compute. reflexivity. Qed.

(** ** [scheme_to_regex]: from pattern text to regular expression text *)

Section ReplaceEscaped.

(** The needle is a backslash and one more character, [x]. *)
Variables (x : ascii) (new : str).

Let old : str := [BACKSLASH; x].

Lemma replace_escaped_hit s :
  str_replace old new None (BACKSLASH :: x :: s) = new ++ str_replace old new None s.
Proof.
  rewrite str_replace_step by discriminate.
  unfold old. cbn [startswith]. rewrite !ascii_eqb_refl. reflexivity.
Qed.

Lemma replace_escaped_other c s :
  c <> BACKSLASH ->
  str_replace old new None (c :: s) = c :: str_replace old new None s.
Proof.
  intro H. rewrite str_replace_step by discriminate.
  unfold old. cbn [startswith].
  replace (ascii_eqb BACKSLASH c) with false; [reflexivity|].
  symmetry. apply ascii_eqb_neq. congruence.
Qed.

Lemma replace_escaped_miss c s :
  c <> x -> head_not x s ->
  str_replace old new None (BACKSLASH :: c :: s)
  = BACKSLASH :: c :: str_replace old new None s.
Proof.
  intros Hc Hs.
  rewrite str_replace_step by discriminate.
  unfold old at 1. cbn [startswith].
  replace (ascii_eqb x c) with false
    by (symmetry; apply ascii_eqb_neq; congruence).
  rewrite andb_false_r. f_equal.
  rewrite str_replace_step by discriminate.
  unfold old at 1. cbn [startswith].
  destruct s as [|d s].
  - rewrite andb_false_r. reflexivity.
  - cbn in Hs.
    replace (ascii_eqb x d) with false
      by (symmetry; apply ascii_eqb_neq; congruence).
    rewrite andb_false_r. reflexivity.
Qed.

End ReplaceEscaped.

Lemma not_special_neq c x : is_special c = false -> is_special x = true -> c <> x.
Proof. intros Hc Hx ->. congruence. Qed.

Lemma escaped_head_not_star v : head_not "*" (re_escape v).
Proof.
  destruct v as [|c v]; cbn; [exact I|].
  destruct (is_special c) eqn:E; cbn.
  - unfold BACKSLASH. discriminate.
  - apply not_special_neq; auto.
Qed.

Lemma star_tokens_head_not_amp v : head_not "&" (flat_map star_token v).
Proof.
  destruct v as [|c v]; cbn; [exact I|].
  unfold star_token. destruct (ascii_eqb c "*"); cbn; [discriminate|].
  destruct (is_special c) eqn:E; cbn.
  - unfold BACKSLASH. discriminate.
  - apply not_special_neq; auto.
Qed.

Lemma replace_star_escaped v :
  str_replace ESC_STAR DOT_STAR None (re_escape v) = flat_map star_token v.
Proof.
  change ESC_STAR with [BACKSLASH; "*"%char].
  induction v as [|c v IH]; [reflexivity|].
  change (re_escape (c :: v))
    with ((if is_special c then [BACKSLASH; c] else [c]) ++ re_escape v).
  cbn [flat_map]. unfold star_token at 1.
  destruct (ascii_eqb c "*") eqn:Es.
  - apply ascii_eqb_eq in Es. subst c. cbn [is_special existsb app].
    change (is_special "*") with true. cbn [app].
    rewrite replace_escaped_hit, IH. reflexivity.
  - apply ascii_eqb_neq in Es. destruct (is_special c) eqn:E; cbn [app].
    + rewrite replace_escaped_miss, IH; auto using escaped_head_not_star.
    + rewrite replace_escaped_other, IH; auto.
      apply not_special_neq; auto.
Qed.

Lemma replace_amp_star_tokens v :
  str_replace ESC_AMP AMP None (flat_map star_token v) = flat_map pattern_token v.
Proof.
  change ESC_AMP with [BACKSLASH; "&"%char].
  induction v as [|c v IH]; [reflexivity|].
  cbn [flat_map]. unfold star_token at 1, pattern_token at 1.
  destruct (ascii_eqb c "*") eqn:Es.
  - change DOT_STAR with ["."%char; "*"%char]. cbn [app].
    rewrite !replace_escaped_other, IH by discriminate. reflexivity.
  - destruct (ascii_eqb c "&") eqn:Ea.
    + apply ascii_eqb_eq in Ea. subst c. change (is_special "&") with true.
      cbn [app]. rewrite replace_escaped_hit, IH. reflexivity.
    + apply ascii_eqb_neq in Ea. destruct (is_special c) eqn:E; cbn [app].
      * rewrite replace_escaped_miss, IH; auto using star_tokens_head_not_amp.
      * rewrite replace_escaped_other, IH; auto.
        apply not_special_neq; auto.
Qed.

(** The regular-expression text of one variant, character by character. *)
Lemma variant_pattern_tokens v :
  variant_pattern v =
  flat_map pattern_token v ++ (if endswith STAR v then [] else DOLLAR).
Proof.
  unfold variant_pattern. rewrite replace_star_escaped, replace_amp_star_tokens.
  destruct (endswith STAR v); cbn [negb]; [rewrite app_nil_r|]; reflexivity.
Qed.

(** ** The matcher and what it denotes *)

Lemma matches_suffix f r s s' : matches f r s s' -> exists p, s = p ++ s'.
Proof.
  induction 1;
    try (exists []; reflexivity);
    try (exists [d]; reflexivity);
    try assumption.
  - destruct IHmatches1 as [p1 ->], IHmatches2 as [p2 ->].
    exists (p1 ++ p2). rewrite app_assoc. reflexivity.
  - destruct IHmatches1 as [p1 ->], IHmatches2 as [p2 ->].
    exists (p1 ++ p2). rewrite app_assoc. reflexivity.
Qed.

Lemma matches_length f r s s' : matches f r s s' -> length s' <= length s.
Proof.
  intro H. destruct (matches_suffix _ _ _ _ H) as [p ->]. rewrite length_app. lia.
Qed.

Lemma matches_same_length f r s s' :
  matches f r s s' -> length s' = length s -> s' = s.
Proof.
  intros H L. destruct (matches_suffix _ _ _ _ H) as [p ->].
  rewrite length_app in L. destruct p; [reflexivity | cbn in L; lia].
Qed.

Lemma star_loop_monotone body :
  monotone body -> forall n, monotone (star_loop body n).
Proof.
  intros Hb n. induction n as [|n IH]; intros s k1 k2 Hk; cbn [star_loop].
  - apply Hk.
  - rewrite !orb_true_iff. intros [H|H]; [left | right; apply Hk; exact H].
    revert H. apply Hb. intros t. rewrite !andb_true_iff.
    intros [L H]. split; [exact L|]. revert H. apply IH. exact Hk.
Qed.

Lemma exec_monotone f r : monotone (exec f r).
Proof.
  induction r; intros s k1 k2 Hk; cbn [exec].
  - apply Hk.
  - destruct s as [|d s]; [discriminate|].
    rewrite !andb_true_iff. intros [A B]. auto.
  - destruct s as [|d s]; [discriminate|].
    rewrite !andb_true_iff. intros [A B]. auto.
  - rewrite !andb_true_iff. intros [A B]. auto.
  - apply star_loop_monotone; assumption.
  - apply IHr1. intro t. apply IHr2. exact Hk.
  - rewrite !orb_true_iff. intros [H|H]; [left; revert H; apply IHr1
                                         | right; revert H; apply IHr2]; exact Hk.
Qed.

Lemma star_loop_more_fuel body n n' s k :
  monotone body -> n <= n' ->
  star_loop body n s k = true -> star_loop body n' s k = true.
Proof.
  intro Hb. revert n' s. induction n as [|n IH]; intros n' s Hn.
  - cbn [star_loop]. intro H. destruct n'; cbn [star_loop]; [exact H|].
    rewrite H. apply orb_true_r.
  - destruct n' as [|n']; [lia|]. cbn [star_loop].
    rewrite !orb_true_iff. intros [H|H]; [left | right; exact H].
    revert H. apply Hb. intro t. rewrite !andb_true_iff.
    intros [L H]. split; [exact L|]. apply IH; [lia | exact H].
Qed.

(** Every match the relation allows is found by the matcher. *)
Lemma exec_complete f r s s' :
  matches f r s s' -> forall k, k s' = true -> exec f r s k = true.
Proof.
  induction 1; intros k Hk; cbn [exec].
  - exact Hk.
  - rewrite H, Hk. reflexivity.
  - apply ascii_eqb_neq in H. rewrite H, Hk. reflexivity.
  - rewrite H, Hk. reflexivity.
  - destruct (length s); cbn [star_loop]; rewrite Hk; auto using orb_true_r.
  - destruct (Nat.eq_dec (length s') (length s)) as [E|E].
    + rewrite (matches_same_length _ _ _ _ H E) in IHmatches2.
      apply (IHmatches2 k Hk).
    + pose proof (matches_length _ _ _ _ H) as L.
      destruct (length s) as [|n] eqn:Ls; [lia|].
      cbn [star_loop]. apply orb_true_iff. left.
      apply IHmatches1. apply andb_true_iff. split.
      * apply Nat.ltb_lt. lia.
      * apply (star_loop_more_fuel _ (length s')); [apply exec_monotone | lia |].
        apply (IHmatches2 k Hk).
  - apply IHmatches1. apply IHmatches2. exact Hk.
  - rewrite (IHmatches k Hk). reflexivity.
  - rewrite (IHmatches k Hk). apply orb_true_r.
Qed.

Lemma star_loop_sound f r n :
  (forall s k, exec f r s k = true -> exists s', matches f r s s' /\ k s' = true) ->
  forall s k, star_loop (exec f r) n s k = true ->
              exists s', matches f (Star r) s s' /\ k s' = true.
Proof.
  intro IH. induction n as [|n IHn]; intros s k; cbn [star_loop].
  - intro H. exists s. split; [constructor | exact H].
  - rewrite orb_true_iff. intros [H|H].
    + destruct (IH _ _ H) as [s' [M K]].
      apply andb_true_iff in K. destruct K as [_ K].
      destruct (IHn _ _ K) as [s'' [M' K']].
      exists s''. split; [econstructor; eassumption | exact K'].
    + exists s. split; [constructor | exact H].
Qed.

(** Whatever the matcher finds is a match of the relation. *)
Lemma exec_sound f r :
  forall s k, exec f r s k = true -> exists s', matches f r s s' /\ k s' = true.
Proof.
  induction r; intros s k; cbn [exec].
  - intro H. exists s. split; [constructor | exact H].
  - destruct s as [|d s]; [discriminate|].
    rewrite andb_true_iff. intros [A B]. exists s. split; [constructor; exact A | exact B].
  - destruct s as [|d s]; [discriminate|].
    rewrite andb_true_iff, negb_true_iff. intros [A B]. apply ascii_eqb_neq in A.
    exists s. split; [constructor; exact A | exact B].
  - rewrite andb_true_iff. intros [A B]. exists s. split; [constructor; exact A | exact B].
  - apply star_loop_sound. exact IHr.
  - intro H. destruct (IHr1 _ _ H) as [s' [M1 H']].
    destruct (IHr2 _ _ H') as [s'' [M2 K]].
    exists s''. split; [econstructor; eassumption | exact K].
  - rewrite orb_true_iff. intros [H|H].
    + destruct (IHr1 _ _ H) as [s' [M K]]. exists s'. split; [apply M_AltL; exact M | exact K].
    + destruct (IHr2 _ _ H) as [s' [M K]]. exists s'. split; [apply M_AltR; exact M | exact K].
Qed.

(** [p.match(s)] succeeds exactly when the pattern matches a prefix of [s]. *)
Lemma pattern_match_iff p s :
  pattern_match p s = true <-> exists s', matches (ignorecase p) (prog p) s s'.
Proof.
  unfold pattern_match. split.
  - intro H. destruct (exec_sound _ _ _ _ H) as [s' [M _]]. eauto.
  - intros [s' M]. apply (exec_complete _ _ _ _ M). reflexivity.
Qed.

(** ** Compiling the emitted text *)

Lemma special_not_alnum c : is_special c = true -> is_alnum c = false.
Proof.
  unfold is_special. rewrite existsb_exists. intros [x [Hin E]].
  apply ascii_eqb_eq in E. subst x.
  cbv [special_chars] in Hin. cbn [In] in Hin.
  repeat (destruct Hin as [<-|Hin]; [reflexivity|]). contradiction.
Qed.

Lemma meta_is_special c : is_meta c = true -> is_special c = true.
Proof.
  unfold is_meta. rewrite existsb_exists. intros [x [Hin E]].
  apply ascii_eqb_eq in E. subst x.
  cbv [meta_chars] in Hin. cbn [In] in Hin.
  repeat (destruct Hin as [<-|Hin]; [reflexivity|]). contradiction.
Qed.

Lemma not_special_not_meta c : is_special c = false -> is_meta c = false.
Proof.
  intro H. destruct (is_meta c) eqn:E; [|reflexivity].
  apply meta_is_special in E. congruence.
Qed.

Lemma not_special_eqb c x : is_special c = false -> is_special x = true ->
  ascii_eqb c x = false.
Proof. intros. apply ascii_eqb_neq. eapply not_special_neq; eauto. Qed.

Lemma parse_literal c s seq alts stack :
  is_special c = false ->
  parse (c :: s) seq alts stack = parse s (Chr c :: seq) alts stack.
Proof.
  intro H. cbn [parse]. unfold BACKSLASH.
  rewrite !(not_special_eqb c _ H) by reflexivity.
  rewrite (not_special_not_meta c H). reflexivity.
Qed.

Lemma parse_escaped c s seq alts stack :
  is_alnum c = false ->
  parse (BACKSLASH :: c :: s) seq alts stack = parse s (Chr c :: seq) alts stack.
Proof. intro H. cbn [parse]. rewrite ascii_eqb_refl, H. reflexivity. Qed.

Lemma parse_dot_star s seq alts stack :
  parse (DOT_STAR ++ s) seq alts stack = parse s (Star Dot :: seq) alts stack.
Proof. reflexivity. Qed.

Lemma parse_amp s seq alts stack :
  parse (AMP ++ s) seq alts stack = parse s (Chr "&" :: seq) alts stack.
Proof. reflexivity. Qed.

Lemma parse_dollar s seq alts stack :
  parse (DOLLAR ++ s) seq alts stack = parse s (Eol :: seq) alts stack.
Proof. reflexivity. Qed.

Lemma parse_bar s seq alts stack :
  parse (BAR ++ s) seq alts stack = parse s [] (mk_seq seq :: alts) stack.
Proof. reflexivity. Qed.

Lemma parse_open s seq alts stack :
  parse (GROUP_OPEN ++ s) seq alts stack = parse s [] [] ((seq, alts) :: stack).
Proof. reflexivity. Qed.

Lemma parse_close s seq alts seq' alts' stack :
  parse (GROUP_CLOSE ++ s) seq alts ((seq', alts') :: stack)
  = parse s (mk_alt alts (mk_seq seq) :: seq') alts' stack.
Proof. reflexivity. Qed.

Lemma parse_token c s seq alts stack :
  parse (pattern_token c ++ s) seq alts stack
  = parse s (pattern_atom c :: seq) alts stack.
Proof.
  unfold pattern_token, pattern_atom.
  destruct (ascii_eqb c "*") eqn:Es; [apply parse_dot_star|].
  destruct (ascii_eqb c "&") eqn:Ea.
  - apply ascii_eqb_eq in Ea. subst c. apply parse_amp.
  - destruct (is_special c) eqn:E.
    + apply parse_escaped, special_not_alnum, E.
    + apply parse_literal, E.
Qed.

Lemma parse_tokens v s seq alts stack :
  parse (flat_map pattern_token v ++ s) seq alts stack
  = parse s (rev (map pattern_atom v) ++ seq) alts stack.
Proof.
  revert seq. induction v as [|c v IH]; intro seq; [reflexivity|].
  cbn [flat_map map rev]. rewrite <- !app_assoc, parse_token, IH. reflexivity.
Qed.

Lemma parse_variant v s seq alts stack :
  parse (variant_pattern v ++ s) seq alts stack
  = parse s (rev (variant_atoms v) ++ seq) alts stack.
Proof.
  rewrite variant_pattern_tokens. unfold variant_atoms.
  rewrite <- app_assoc, parse_tokens.
  destruct (endswith STAR v).
  - rewrite app_nil_r. reflexivity.
  - rewrite parse_dollar, rev_app_distr. reflexivity.
Qed.

Lemma mk_seq_rev atoms : mk_seq (rev atoms) = seq_of atoms.
Proof.
  unfold mk_seq, seq_of.
  rewrite <- (rev_involutive atoms) at 2.
  rewrite (fold_left_rev_right Cat). reflexivity.
Qed.

Lemma alt_of_cons2 a b l : alt_of (a :: b :: l) = Alt a (alt_of (b :: l)).
Proof. reflexivity. Qed.

(** A group whose branches are read one item at a time. *)
Section ParseGroup.

Variable A : Type.
Variable text : A -> str.
Variable atoms : A -> list regex.

Hypothesis parse_item : forall a s seq alts stack,
  parse (text a ++ s) seq alts stack = parse s (rev (atoms a) ++ seq) alts stack.

Let branch (a : A) : regex := seq_of (atoms a).

Lemma parse_branches items : items <> [] ->
  forall s alts seq' alts' stack,
  parse (join BAR (map text items) ++ GROUP_CLOSE ++ s) [] alts ((seq', alts') :: stack)
  = parse s (mk_alt alts (alt_of (map branch items)) :: seq') alts' stack.
Proof.
  induction items as [|a items IH]; [congruence|]. intros _ s alts seq' alts' stack.
  destruct items as [|b items].
  - cbn [map join alt_of]. rewrite parse_item, app_nil_r, parse_close, mk_seq_rev.
    reflexivity.
  - change (join BAR (map text (a :: b :: items)))
      with (text a ++ BAR ++ join BAR (map text (b :: items))).
    rewrite <- !app_assoc, parse_item, app_nil_r, parse_bar, mk_seq_rev.
    rewrite IH by discriminate.
    change (map branch (a :: b :: items)) with (branch a :: map branch (b :: items)).
    cbn [map]. rewrite alt_of_cons2. reflexivity.
Qed.

Lemma parse_group items s seq alts stack :
  parse (GROUP_OPEN ++ join BAR (map text items) ++ GROUP_CLOSE ++ s) seq alts stack
  = parse s (alt_of (map branch items) :: seq) alts stack.
Proof.
  rewrite parse_open. destruct items as [|a items].
  - reflexivity.
  - rewrite parse_branches by discriminate. reflexivity.
Qed.

End ParseGroup.

Lemma parse_scheme scheme s seq alts stack :
  parse (scheme_to_regex scheme ++ s) seq alts stack
  = parse s (scheme_regex scheme :: seq) alts stack.
Proof.
  unfold scheme_to_regex, scheme_regex. rewrite <- !app_assoc.
  rewrite (parse_group str variant_pattern variant_atoms).
  - reflexivity.
  - intros. apply parse_variant.
Qed.

(** [re.compile] accepts the text built for one pattern... *)
Lemma re_compile_scheme scheme flag :
  re_compile (scheme_to_regex scheme) flag
  = Some (mkPattern (scheme_to_regex scheme) flag (Cat (scheme_regex scheme) Eps)).
Proof.
  unfold re_compile.
  rewrite <- (app_nil_r (scheme_to_regex scheme)) at 1.
  rewrite parse_scheme. reflexivity.
Qed.

(** ... and the text built for the patterns of one endpoint. *)
Lemma re_compile_schemes schemes flag :
  re_compile (endpoint_regex (map scheme_to_regex schemes)) flag
  = Some (mkPattern (endpoint_regex (map scheme_to_regex schemes)) flag
                    (schemes_regex schemes)).
Proof.
  unfold re_compile, endpoint_regex.
  rewrite <- (app_nil_r GROUP_CLOSE).
  rewrite (parse_group str scheme_to_regex (fun s => [scheme_regex s])).
  - reflexivity.
  - intros. cbn [rev app]. apply parse_scheme.
Qed.

(** ** What the atoms of a pattern match *)

Lemma lower_not_alnum d : is_alnum (lower d) = false -> lower d = d.
Proof. destruct d as [[] [] [] [] [] [] [] []]; intro H; try reflexivity; discriminate H. Qed.

Lemma lower_fixed c : is_alnum c = false -> lower c = c.
Proof. destruct c as [[] [] [] [] [] [] [] []]; intro H; try reflexivity; discriminate H. Qed.

Lemma lower_lf d : lower d = LF -> d = LF.
Proof.
  destruct d as [[] [] [] [] [] [] [] []]; intro H; try reflexivity;
    vm_compute in H; discriminate H.
Qed.

(** A special character in a pattern matches itself and nothing else,
    with or without [re.IGNORECASE]. *)
Lemma special_matches_itself flag c d :
  is_special c = true -> (chr_match flag c d = true <-> d = c).
Proof.
  intro H. pose proof (special_not_alnum c H) as Hc.
  unfold chr_match. destruct flag; rewrite ascii_eqb_eq.
  - rewrite (lower_fixed c Hc). split.
    + intro E. rewrite E. symmetry. apply lower_not_alnum. rewrite <- E. exact Hc.
    + intros ->. rewrite (lower_fixed c Hc). reflexivity.
  - split; congruence.
Qed.

Lemma matches_chr_inv flag c s s' :
  matches flag (Chr c) s s' <-> exists d, s = d :: s' /\ chr_match flag c d = true.
Proof.
  split.
  - intro H. inversion H; subst. eauto.
  - intros [d [-> H]]. constructor. exact H.
Qed.

(** [.*] spans any run of characters that holds no line feed, and only
    such runs. *)
Lemma matches_dot_star flag w s : no_lf w -> matches flag (Star Dot) (w ++ s) s.
Proof.
  induction w as [|d w IH]; intro H; cbn [app].
  - constructor.
  - apply M_StarS with (s' := w ++ s).
    + constructor. intro E. apply H. left. exact E.
    + apply IH. intro Hin. apply H. right. exact Hin.
Qed.

Lemma matches_dot_star_inv flag s s' :
  matches flag (Star Dot) s s' -> exists w, s = w ++ s' /\ no_lf w.
Proof.
  intro H. remember (Star Dot) as r eqn:Er.
  induction H; try discriminate.
  - exists []. split; [reflexivity | intros []].
  - inversion Er; subst r. clear IHmatches1.
    destruct (IHmatches2 eq_refl) as [w [-> Hw]].
    inversion H; subst.
    exists (d :: w). split; [reflexivity|].
    intros [E|Hin]; [congruence | exact (Hw Hin)].
Qed.

Lemma matches_seq_app flag a b s s' s'' :
  matches flag (seq_of a) s s' -> matches flag (seq_of b) s' s'' ->
  matches flag (seq_of (a ++ b)) s s''.
Proof.
  revert s. induction a as [|x a IH]; intros s Ha Hb; cbn [app seq_of fold_right] in *.
  - inversion Ha; subst. exact Hb.
  - inversion Ha; subst. econstructor; [eassumption|]. apply IH; assumption.
Qed.

Lemma matches_seq_app_inv flag a b s s'' :
  matches flag (seq_of (a ++ b)) s s'' ->
  exists s', matches flag (seq_of a) s s' /\ matches flag (seq_of b) s' s''.
Proof.
  revert s. induction a as [|x a IH]; intros s H; cbn [app seq_of fold_right] in *.
  - exists s. split; [constructor | exact H].
  - inversion H as [ | | | | | | r1 r2 s0 s1 s2 Hx Hrest | | ]; subst.
    destruct (IH _ Hrest) as [t [Ha Hb]].
    exists t. split; [econstructor; eassumption | exact Hb].
Qed.

Lemma matches_alt_of flag r rs s s' :
  In r rs -> matches flag r s s' -> matches flag (alt_of rs) s s'.
Proof.
  induction rs as [|a rs IH]; [intros []|].
  intros Hin Hm. destruct rs as [|b rs].
  - destruct Hin as [->|[]]. exact Hm.
  - rewrite alt_of_cons2. destruct Hin as [->|Hin].
    + apply M_AltL. exact Hm.
    + apply M_AltR. apply IH; assumption.
Qed.

Lemma matches_alt_of_inv flag rs s s' :
  rs <> [] -> matches flag (alt_of rs) s s' -> exists r, In r rs /\ matches flag r s s'.
Proof.
  induction rs as [|a rs IH]; [congruence|]. intros _ H.
  destruct rs as [|b rs].
  - exists a. split; [left; reflexivity | exact H].
  - rewrite alt_of_cons2 in H. inversion H; subst.
    + exists a. split; [left; reflexivity | assumption].
    + destruct IH as [r [Hin Hr]]; [discriminate | assumption |].
      exists r. split; [right; exact Hin | exact Hr].
Qed.

(** ** The variants of a pattern *)

Lemma dict_set_keys (k : str) (d : dict str unit) x :
  In x (dict_keys (dict_set str_eqb k tt d)) <-> x = k \/ In x (dict_keys d).
Proof.
  induction d as [|[k' []] d IH]; cbn [dict_set dict_keys map fst In].
  - intuition congruence.
  - destruct (str_eqb k' k) eqn:E.
    + apply str_eqb_eq in E. subst k'. cbn [map fst In]. intuition congruence.
    + cbn [map fst In]. unfold dict_keys in IH. rewrite IH. intuition congruence.
Qed.

Lemma fromkeys_fold l : forall d x,
  In x (dict_keys (fold_left (fun d k => dict_set str_eqb k tt d) l d))
  <-> In x l \/ In x (dict_keys d).
Proof.
  induction l as [|k l IH]; intros d x; cbn [fold_left In].
  - tauto.
  - rewrite IH, dict_set_keys. intuition congruence.
Qed.

(** [list(dict.fromkeys(l))] has the members of [l]. *)
Lemma fromkeys_list_In l x : In x (fromkeys_list l) <-> In x l.
Proof. unfold fromkeys_list. rewrite fromkeys_fold. cbn. tauto. Qed.

Lemma replace_scan_done old new s : replace_scan old new (Some 0) 0 s = s.
Proof. induction s as [|c s IH]; cbn; [|rewrite IH]; reflexivity. Qed.

(** The variants before duplicates are dropped. *)
Lemma scheme_variants_In scheme v :
  In v (scheme_variants scheme) <->
  let first :=
    scheme :: (if contains WILD_SUB scheme
               then [str_replace WILD_SUB COLON_SLASHES (Some 1) scheme] else []) in
  In v first \/ exists u, In u first /\ In v (swap_scheme u).
Proof.
  unfold scheme_variants. cbv zeta. rewrite fromkeys_list_In, in_app_iff, in_flat_map.
  reflexivity.
Qed.

Lemma wildcard_found P rest :
  P = HTTP \/ P = HTTPS ->
  contains WILD_SUB (P ++ STAR_DOT ++ rest) = true /\
  str_replace WILD_SUB COLON_SLASHES (Some 1) (P ++ STAR_DOT ++ rest) = P ++ rest.
Proof.
  intros [->| ->]; split; try reflexivity;
    cbn; rewrite replace_scan_done; reflexivity.
Qed.

Lemma swap_scheme_https x : swap_scheme (HTTPS ++ x) = [HTTP ++ x].
Proof. reflexivity. Qed.

Lemma swap_scheme_http x : swap_scheme (HTTP ++ x) = [HTTPS ++ x].
Proof. reflexivity. Qed.

(** A pattern with a wildcard subdomain has four variants: itself, the
    bare host, and both under the other scheme. *)
Lemma wildcard_scheme_variants P Q rest :
  P = HTTP \/ P = HTTPS -> Q = HTTP \/ Q = HTTPS ->
  In (Q ++ STAR_DOT ++ rest) (scheme_variants (P ++ STAR_DOT ++ rest)) /\
  In (Q ++ rest) (scheme_variants (P ++ STAR_DOT ++ rest)).
Proof.
  intros HP HQ. rewrite !scheme_variants_In. cbv zeta.
  destruct (wildcard_found P rest HP) as [C R]. rewrite C, R.
  destruct HP as [->| ->], HQ as [->| ->]; split;
    try (left; cbn [In]; tauto).
  - right. exists (HTTP ++ STAR_DOT ++ rest). split; [cbn [In]; tauto|].
    rewrite swap_scheme_http. left. reflexivity.
  - right. exists (HTTP ++ rest). split; [cbn [In]; tauto|].
    rewrite swap_scheme_http. left. reflexivity.
  - right. exists (HTTPS ++ STAR_DOT ++ rest). split; [cbn [In]; tauto|].
    rewrite swap_scheme_https. left. reflexivity.
  - right. exists (HTTPS ++ rest). split; [cbn [In]; tauto|].
    rewrite swap_scheme_https. left. reflexivity.
Qed.

(** ** Instances of a pattern are matched *)

Lemma instance_of_app a x b y :
  instance_of a x -> instance_of b y -> instance_of (a ++ b) (x ++ y).
Proof.
  induction 1; intro Hb; cbn [app].
  - exact Hb.
  - constructor; auto.
  - rewrite <- app_assoc. constructor; auto.
Qed.

Lemma same_fold_instance a : ~ In "*"%char a ->
  forall x, same_fold x a -> instance_of a x.
Proof.
  induction a as [|c a IH]; intros Hs x Hx; destruct x as [|d x]; try discriminate Hx.
  - constructor.
  - unfold same_fold in Hx. cbn [map] in Hx. inversion Hx.
    constructor.
    + intro E. apply Hs. left. exact E.
    + congruence.
    + apply IH; [intro Hin; apply Hs; right; exact Hin | assumption].
Qed.

Lemma instance_atoms flag v u :
  instance_of v u -> flag = true ->
  forall t, matches flag (seq_of (map pattern_atom v)) (u ++ t) t.
Proof.
  intros H ->. induction H; intro t; cbn [map seq_of fold_right app].
  - constructor.
  - unfold pattern_atom. apply ascii_eqb_neq in H. rewrite H.
    econstructor; [|apply IHinstance_of].
    constructor. unfold chr_match. apply ascii_eqb_eq. assumption.
  - change (pattern_atom "*") with (Star Dot). rewrite <- app_assoc.
    econstructor; [|apply IHinstance_of].
    apply matches_dot_star. assumption.
Qed.

(** An instance of a variant is matched by the variant's tree, to the
    end of the text. *)
Lemma instance_variant v u :
  instance_of v u -> matches true (variant_regex v) u [].
Proof.
  intro H. unfold variant_regex, variant_atoms.
  apply matches_seq_app with (s' := []).
  - rewrite <- (app_nil_r u) at 1. apply instance_atoms; auto.
  - destruct (endswith STAR v); cbn [seq_of fold_right].
    + constructor.
    + econstructor; constructor. reflexivity.
Qed.

Lemma matches_scheme_regex scheme v u u' :
  In v (scheme_variants scheme) ->
  matches true (variant_regex v) u u' -> matches true (scheme_regex scheme) u u'.
Proof.
  intros Hin Hm. unfold scheme_regex.
  apply matches_alt_of with (r := variant_regex v); [|exact Hm].
  apply in_map. exact Hin.
Qed.

Lemma matches_schemes_regex schemes scheme u u' :
  In scheme schemes ->
  matches true (scheme_regex scheme) u u' -> matches true (schemes_regex schemes) u u'.
Proof.
  intros Hin Hm. unfold schemes_regex.
  econstructor; [|constructor].
  apply matches_alt_of with (r := Cat (scheme_regex scheme) Eps).
  - apply (in_map (fun s => Cat (scheme_regex s) Eps)). exact Hin.
  - econstructor; [exact Hm | constructor].
Qed.

(** The URLs a wildcard-subdomain pattern stands for, as instances. *)
Lemma wildcard_instances Q Q' sub rest r :
  Q = HTTP \/ Q = HTTPS -> same_fold Q' Q -> no_lf sub -> instance_of rest r ->
  instance_of (Q ++ rest) (Q' ++ r) /\
  instance_of (Q ++ STAR_DOT ++ rest) (Q' ++ sub ++ FULL_STOP ++ r).
Proof.
  intros HQ Hf Hsub Hr.
  assert (HQi : instance_of Q Q').
  { apply same_fold_instance; [|exact Hf].
    destruct HQ as [->| ->]; cbv; intuition discriminate. }
  split.
  - apply instance_of_app; assumption.
  - apply instance_of_app; [assumption|].
    change (STAR_DOT ++ rest) with ("*"%char :: "."%char :: rest).
    apply inst_star; [assumption|].
    change (FULL_STOP ++ r) with ("."%char :: r).
    constructor; [discriminate | reflexivity | assumption].
Qed.

(** ** Anchoring *)

(** *** The last character of a variant *)

Lemma endswith_last c s d : endswith [c] (s ++ [d]) = ascii_eqb c d.
Proof.
  unfold endswith. rewrite rev_app_distr. cbn [rev app startswith].
  apply andb_true_r.
Qed.

Lemma endswith_app c a x : x <> [] -> endswith [c] (a ++ x) = endswith [c] x.
Proof.
  intro Hx. destruct (exists_last Hx) as [x' [d ->]].
  rewrite app_assoc, !endswith_last. reflexivity.
Qed.

(** [s.replace(old, new, 1)] rewrites the first occurrence and nothing
    else. *)
Lemma replace_first old new s :
  old <> [] -> contains old s = true ->
  exists a b, s = a ++ old ++ b /\ str_replace old new (Some 1) s = a ++ new ++ b.
Proof.
  intros Hold. destruct old as [|o old']; [congruence|]. clear Hold.
  set (old := o :: old') in *.
  change (str_replace old new (Some 1)) with (replace_scan old new (Some 1) 0).
  induction s as [|c s IH]; [discriminate|].
  cbn [contains replace_scan count_left andb dec_count pred].
  destruct (startswith old (c :: s)) eqn:E.
  - intros _. exists [], (skipn (length old) (c :: s)). split.
    + apply startswith_skipn. exact E.
    + rewrite replace_scan_skip, replace_scan_done. reflexivity.
  - cbn [orb]. intro H. destruct (IH H) as [a [b [-> Hr]]].
    exists (c :: a), b. split; [reflexivity|]. rewrite Hr. reflexivity.
Qed.

Lemma bare_host_tail scheme :
  contains WILD_SUB scheme = true ->
  endswith STAR (str_replace WILD_SUB COLON_SLASHES (Some 1) scheme)
  = endswith STAR scheme.
Proof.
  intro H.
  destruct (replace_first WILD_SUB COLON_SLASHES scheme) as [a [b [-> ->]]];
    [discriminate | exact H |].
  destruct b as [|c b].
  - rewrite !app_nil_r.
    change WILD_SUB with (txt "://*" ++ ["."%char]).
    change COLON_SLASHES with (txt ":/" ++ ["/"%char]).
    rewrite !app_assoc. unfold STAR. rewrite !endswith_last. reflexivity.
  - rewrite !app_assoc. unfold STAR. rewrite !endswith_app by discriminate.
    reflexivity.
Qed.

Lemma swap_scheme_tail u v :
  In v (swap_scheme u) -> endswith STAR v = endswith STAR u.
Proof.
  unfold swap_scheme.
  destruct (startswith HTTPS u) eqn:E1; [|destruct (startswith HTTP u) eqn:E2].
  - intros [<-|[]]. apply startswith_skipn in E1. rewrite E1 at 2.
    destruct (skipn (length HTTPS) u) as [|c x]; [reflexivity|].
    unfold STAR. rewrite !endswith_app by discriminate. reflexivity.
  - intros [<-|[]]. apply startswith_skipn in E2. rewrite E2 at 2.
    destruct (skipn (length HTTP) u) as [|c x]; [reflexivity|].
    unfold STAR. rewrite !endswith_app by discriminate. reflexivity.
  - intros [].
Qed.

(** All the variants of a pattern end the way the pattern does. *)
Lemma variants_same_tail scheme v :
  In v (scheme_variants scheme) -> endswith STAR v = endswith STAR scheme.
Proof.
  rewrite scheme_variants_In. cbv zeta.
  assert (First : forall u,
    In u (scheme :: (if contains WILD_SUB scheme
                     then [str_replace WILD_SUB COLON_SLASHES (Some 1) scheme] else [])) ->
    endswith STAR u = endswith STAR scheme).
  { intros u [<-|Hu]; [reflexivity|].
    destruct (contains WILD_SUB scheme) eqn:C; [|destruct Hu].
    destruct Hu as [<-|[]]. apply bare_host_tail. exact C. }
  intros [H|[u [Hu Hv]]].
  - apply First. exact H.
  - rewrite (swap_scheme_tail u v Hv). apply First. exact Hu.
Qed.

Lemma scheme_is_variant scheme : In scheme (scheme_variants scheme).
Proof. rewrite scheme_variants_In. cbv zeta. left. left. reflexivity. Qed.

(** *** What an accepted URL looks like *)

Lemma scheme_match_inv scheme flag u :
  re_match (scheme_to_regex scheme) flag u = true ->
  exists v s', In v (scheme_variants scheme) /\ matches flag (variant_regex v) u s'.
Proof.
  unfold re_match. rewrite re_compile_scheme, pattern_match_iff.
  cbn [ignorecase prog]. intros [s' H].
  inversion H as [ | | | | | | r1 r2 s0 s1 s2 H1 H2 | | ]; subst.
  apply matches_alt_of_inv in H1.
  - destruct H1 as [r [Hin Hr]]. apply in_map_iff in Hin.
    destruct Hin as [v [<- Hv]]. exists v, s1. split; assumption.
  - intro E. apply map_eq_nil in E.
    pose proof (scheme_is_variant scheme) as Hs. rewrite E in Hs. destruct Hs.
Qed.

Lemma scheme_match_intro scheme flag v u s' :
  In v (scheme_variants scheme) -> matches flag (variant_regex v) u s' ->
  re_match (scheme_to_regex scheme) flag u = true.
Proof.
  intros Hv Hm. unfold re_match. rewrite re_compile_scheme, pattern_match_iff.
  cbn [ignorecase prog]. exists s'.
  econstructor; [|constructor].
  apply matches_alt_of with (r := variant_regex v); [|exact Hm].
  apply in_map. exact Hv.
Qed.

(** *** The translation, character by character *)

Lemma fromkeys_fold_head l : forall k0 d,
  exists d', fold_left (fun d k => dict_set str_eqb k tt d) l ((k0, tt) :: d) = (k0, tt) :: d'.
Proof.
  induction l as [|k l IH]; intros k0 d; cbn [fold_left].
  - exists d. reflexivity.
  - cbn [dict_set]. destruct (str_eqb k0 k); apply IH.
Qed.

Lemma scheme_variants_head scheme : exists others, scheme_variants scheme = scheme :: others.
Proof.
  unfold scheme_variants, fromkeys_list. cbv zeta.
  rewrite <- app_assoc. cbn [app fold_left dict_set].
  match goal with |- context [fold_left ?f ?l ((scheme, tt) :: ?d)] =>
    destruct (fromkeys_fold_head l scheme d) as [d' ->]
  end.
  exists (dict_keys d'). reflexivity.
Qed.

(** C8, as amended.  The pattern is the first of its variants, and the
    text [scheme_to_regex] builds is, variant by variant, the pattern
    read one character at a time: a star becomes [.*], which compiles to
    a greedy repetition of "any character" and spans the runs of
    characters that hold no line feed, and no others; an ampersand stays
    a bare [&]; every other character [re.escape] treats as special,
    which includes every metacharacter of the pattern language, gets a
    backslash; and each of these characters, once compiled, matches
    itself and nothing else.  So the expression accepts every URL that
    follows the pattern with such a run for each star. *)
Theorem scheme_to_regex_translation (scheme : str) :
  (exists others, scheme_variants scheme = scheme :: others)
  /\ scheme_to_regex scheme
  = GROUP_OPEN
      ++ join BAR (map (fun v => flat_map pattern_token v
                                   ++ (if endswith STAR v then [] else DOLLAR))
                       (scheme_variants scheme))
      ++ GROUP_CLOSE
  /\ (forall flag, exists p,
        re_compile (scheme_to_regex scheme) flag = Some p /\
        prog p = Cat (alt_of (map (fun v => seq_of (map pattern_atom v
                                       ++ (if endswith STAR v then [] else [Eol])))
                                  (scheme_variants scheme))) Eps)
  /\ (pattern_token "*" = DOT_STAR /\ pattern_atom "*" = Star Dot)
  /\ (forall flag s s',
        matches flag (Star Dot) s s' <-> exists w, s = w ++ s' /\ no_lf w)
  /\ pattern_token "&" = AMP
  /\ (forall c, is_meta c = true -> is_special c = true)
  /\ (forall c, is_special c = true -> c <> "*"%char -> c <> "&"%char ->
                pattern_token c = [BACKSLASH; c])
  /\ (forall c, c <> "*"%char -> pattern_atom c = Chr c)
  /\ (forall flag c d s s', is_special c = true ->
        (matches flag (Chr c) (d :: s) s' <-> d = c /\ s' = s))
  /\ (forall url, instance_of scheme url ->
        re_match (scheme_to_regex scheme) true url = true).
Proof.
  split; [|split; [|split; [|split; [|split; [|split; [|split; [|split; [|split; [|split]]]]]]]]].
  - apply scheme_variants_head.
  - unfold scheme_to_regex. f_equal. f_equal. f_equal.
    apply map_ext. intro v. apply variant_pattern_tokens.
  - intro flag. eexists. split; [apply re_compile_scheme | reflexivity].
  - split; reflexivity.
  - intros flag s s'. split.
    + apply matches_dot_star_inv.
    + intros [w [-> Hw]]. apply matches_dot_star. exact Hw.
  - reflexivity.
  - apply meta_is_special.
  - intros c Hc Hs Ha. unfold pattern_token.
    apply ascii_eqb_neq in Hs, Ha. rewrite Hs, Ha, Hc. reflexivity.
  - intros c Hs. unfold pattern_atom. apply ascii_eqb_neq in Hs. rewrite Hs. reflexivity.
  - intros flag c d s s' Hc. rewrite matches_chr_inv. split.
    + intros [d' [E M]]. inversion E; subst d' s'. split; [|reflexivity].
      apply (special_matches_itself flag c d Hc). exact M.
    + intros [-> ->]. exists c. split; [reflexivity|].
      apply (special_matches_itself flag c c Hc). reflexivity.
  - intros url Hi.
    apply (scheme_match_intro scheme true scheme url [] (scheme_is_variant scheme)).
    apply instance_variant. exact Hi.
Qed.

(** C8, as stated, fails: a star is not "any sequence of characters".
    [.] stops at a line feed, so a star inside a pattern does not stand
    for a run that holds one, while it does for the same run with a
    space in its place. *)
Lemma star_does_not_span_line_feed :
  let scheme := txt "https://example.com/*/x" in
  re_match (scheme_to_regex scheme) true (txt "https://example.com/a" ++ [LF] ++ txt "b/x")
    = false /\
  re_match (scheme_to_regex scheme) true (txt "https://example.com/a b/x") = true.
Proof. split; vm_compute; reflexivity. Qed.

Lemma at_eol_cases s : at_eol s = true -> s = [] \/ s = [LF].
Proof.
  destruct s as [|c [|d s]]; cbn [at_eol]; auto.
  - rewrite andb_true_r, ascii_eqb_eq. intros ->. auto.
  - rewrite andb_false_r. discriminate.
Qed.

(** A pattern that does not end in a star is matched to the end of the
    URL, or to the line feed that ends it: the characters of a variant
    account for everything else. *)
Lemma anchored_match scheme flag u :
  endswith STAR scheme = false ->
  re_match (scheme_to_regex scheme) flag u = true ->
  exists v s', In v (scheme_variants scheme) /\
               matches flag (seq_of (map pattern_atom v)) u s' /\
               (s' = [] \/ s' = [LF]).
Proof.
  intros Hs Hm. destruct (scheme_match_inv scheme flag u Hm) as [v [s' [Hv H]]].
  unfold variant_regex, variant_atoms in H.
  rewrite (variants_same_tail scheme v Hv), Hs in H.
  apply matches_seq_app_inv in H. destruct H as [t [H1 H2]].
  cbn [seq_of fold_right] in H2.
  inversion H2 as [ | | | | | | r1 r2 s0 s1 s2 He Hn | | ]; subst.
  inversion He; subst. inversion Hn; subst.
  exists v, s'. repeat split; try assumption.
  apply at_eol_cases. assumption.
Qed.

(** On a URL without a line feed this is anchoring proper: every
    character of the URL is accounted for. *)
Lemma anchored_on_one_line scheme flag u :
  endswith STAR scheme = false -> no_lf u ->
  re_match (scheme_to_regex scheme) flag u = true ->
  exists v, In v (scheme_variants scheme) /\
            matches flag (seq_of (map pattern_atom v)) u [].
Proof.
  intros Hs Hu Hm.
  destruct (anchored_match scheme flag u Hs Hm) as [v [s' [Hv [H [->| ->]]]]].
  - exists v. split; assumption.
  - exfalso. destruct (matches_suffix _ _ _ _ H) as [p ->].
    apply Hu. apply in_or_app. right. left. reflexivity.
Qed.

Lemma matches_extend flag r s s' :
  matches flag r s s' -> eol_free r = true ->
  forall t, matches flag r (s ++ t) (s' ++ t).
Proof.
  induction 1; cbn [eol_free]; intros E t;
    try (apply andb_true_iff in E; destruct E as [E1 E2]);
    try discriminate; try (constructor; auto; fail).
  - apply M_StarS with (s' := s' ++ t); auto.
  - apply M_Cat with (s' := s' ++ t); auto.
Qed.

Lemma pattern_atom_eol_free c : eol_free (pattern_atom c) = true.
Proof. unfold pattern_atom. destruct (ascii_eqb c "*"); reflexivity. Qed.

Lemma atoms_eol_free v : eol_free (seq_of (map pattern_atom v)) = true.
Proof.
  induction v as [|c v IH]; [reflexivity|].
  cbn [map seq_of fold_right eol_free]. rewrite pattern_atom_eol_free. exact IH.
Qed.

Lemma open_variant_eol_free v : endswith STAR v = true -> eol_free (variant_regex v) = true.
Proof.
  intro H. unfold variant_regex, variant_atoms. rewrite H, app_nil_r.
  apply atoms_eol_free.
Qed.

(** A pattern that ends in a star has an open tail: whatever follows an
    accepted URL is accepted with it. *)
Lemma open_tail scheme flag u t :
  endswith STAR scheme = true ->
  re_match (scheme_to_regex scheme) flag u = true ->
  re_match (scheme_to_regex scheme) flag (u ++ t) = true.
Proof.
  intros Hs Hm. destruct (scheme_match_inv scheme flag u Hm) as [v [s' [Hv H]]].
  apply (scheme_match_intro scheme flag v (u ++ t) (s' ++ t) Hv).
  apply matches_extend; [exact H|].
  apply open_variant_eol_free. rewrite (variants_same_tail scheme v Hv). exact Hs.
Qed.

(** C2 (the code falls short of it).  [$] lets a final line feed
    through: the pattern of the test case [anchors_non_wildcard_path]
    does not end in a star, matches the URL it spells, rejects that URL
    with a further path segment, and yet accepts it with one more
    character, a line feed, after it, through [re.match] as well as
    through the compiled map. *)
Theorem anchored_pattern_accepts_final_line_feed :
  endswith STAR anchored_scheme = false /\
  re_match (scheme_to_regex anchored_scheme) false anchored_scheme = true /\
  re_match (scheme_to_regex anchored_scheme) false (anchored_scheme ++ txt "/extra") = false /\
  re_match (scheme_to_regex anchored_scheme) false (anchored_scheme ++ [LF]) = true /\
  (exists m, compile_oembed_providers anchored_providers = Ret m /\
     get_oembed_endpoint m (anchored_scheme ++ [LF])
     = Some (txt "https://example.com/oembed")).
Proof.
  repeat split; try (vm_compute; reflexivity).
  eexists. split; vm_compute; reflexivity.
Qed.

(** ** Loops that may raise *)

Lemma for_each_app {A S : Type} (body : A -> S -> outcome S) l1 l2 st :
  for_each body (l1 ++ l2) st
  = (st1 <- for_each body l1 st ;; for_each body l2 st1).
Proof.
  revert st. induction l1 as [|a l1 IH]; intro st; cbn [app for_each bind].
  - reflexivity.
  - destruct (body a st) as [st'|e]; cbn [bind]; [apply IH | reflexivity].
Qed.

(** A property kept by every round of the loop holds when it ends. *)
Lemma for_each_invariant {A S : Type} (body : A -> S -> outcome S) (P : S -> Prop) l :
  (forall a st st', In a l -> P st -> body a st = Ret st' -> P st') ->
  forall st st', P st -> for_each body l st = Ret st' -> P st'.
Proof.
  induction l as [|a l IH]; intros Hb st st' HP H; cbn [for_each bind] in H.
  - inversion H; subst. exact HP.
  - destruct (body a st) as [st1|e] eqn:E; cbn [bind] in H; [|discriminate].
    apply IH with (st := st1); auto.
    + intros b s1 s2 Hin. apply Hb. right. exact Hin.
    + apply (Hb a st st1); auto. left. reflexivity.
Qed.

(** In a loop that ends normally every round has run, from a state the
    loop reached and to a state the rest of the loop started from. *)
Lemma for_each_round {A S : Type} (body : A -> S -> outcome S) (R : S -> S -> Prop) l :
  (forall st, R st st) ->
  (forall s1 s2 s3, R s1 s2 -> R s2 s3 -> R s1 s3) ->
  (forall a st st', body a st = Ret st' -> R st st') ->
  forall a st st', In a l -> for_each body l st = Ret st' ->
  exists s1 s2, R st s1 /\ body a s1 = Ret s2 /\ R s2 st'.
Proof.
  intros Rrefl Rtrans Rstep a st st' Hin H.
  apply in_split in Hin. destruct Hin as [l1 [l2 ->]].
  rewrite for_each_app in H.
  destruct (for_each body l1 st) as [s1|e] eqn:E1; cbn [bind] in H; [|discriminate].
  cbn [for_each bind] in H.
  destruct (body a s1) as [s2|e] eqn:E2; cbn [bind] in H; [|discriminate].
  exists s1, s2. repeat split.
  - apply (for_each_invariant body (R st) l1) with (st := st); auto.
    intros b x y _ Hx Hy. apply Rtrans with x; auto. apply (Rstep b); auto.
  - exact E2.
  - apply (for_each_invariant body (R s2) l2) with (st := s2); auto.
    intros b x y _ Hx Hy. apply Rtrans with x; auto. apply (Rstep b); auto.
Qed.

Lemma map_each_strings items regexes :
  map_each scheme_to_regex_any items = Ret regexes ->
  exists schemes, items = map JStr schemes /\ regexes = map scheme_to_regex schemes.
Proof.
  revert regexes. induction items as [|j items IH]; intros regexes H; cbn [map_each bind] in H.
  - inversion H. exists []. split; reflexivity.
  - destruct j as [| | | |s| |]; cbn [scheme_to_regex_any bind] in H; try discriminate.
    destruct (map_each scheme_to_regex_any items) as [rs|e]; cbn [bind] in H; [|discriminate].
    inversion H; subst. destruct (IH rs eq_refl) as [ss [-> ->]].
    exists (s :: ss). split; reflexivity.
Qed.

(** ** Assigning to a key *)

Section DictSet.

Variables (K V : Type) (keq : K -> K -> bool).

Lemma dict_set_keeps_keys k v (d : dict K V) k0 :
  In k0 (dict_keys d) -> In k0 (dict_keys (dict_set keq k v d)).
Proof.
  induction d as [|[k' v'] d IH]; cbn [dict_keys dict_set map fst In]; [tauto|].
  destruct (keq k' k); cbn [map fst In]; [tauto|].
  intros [E|H]; [left; exact E | right; apply IH; exact H].
Qed.

Lemma dict_set_new_keys k v (d : dict K V) k0 :
  In k0 (dict_keys (dict_set keq k v d)) -> k0 = k \/ In k0 (dict_keys d).
Proof.
  induction d as [|[k' v'] d IH]; cbn [dict_keys dict_set map fst In].
  - intros [E|[]]. left. congruence.
  - destruct (keq k' k); cbn [map fst In]; [tauto|].
    intros [E|H]; [tauto|]. destruct (IH H); tauto.
Qed.

(** After [d[k] = v] the dictionary has a key equal to [k]. *)
Lemma dict_set_has_key k v (d : dict K V) :
  In k (dict_keys (dict_set keq k v d)) \/
  exists k', keq k' k = true /\ In k' (dict_keys d)
             /\ In k' (dict_keys (dict_set keq k v d)).
Proof.
  induction d as [|[k' v'] d IH]; cbn [dict_keys dict_set map fst In].
  - left. left. reflexivity.
  - destruct (keq k' k) eqn:E; cbn [map fst In].
    + right. exists k'. auto.
    + destruct IH as [H|[k1 [H1 [H2 H3]]]]; [left; right; exact H|].
      right. exists k1. auto.
Qed.

Lemma dict_set_items k v (d : dict K V) k0 v0 :
  In (k0, v0) (dict_set keq k v d) -> In (k0, v0) d \/ v0 = v.
Proof.
  induction d as [|[k' v'] d IH]; cbn [dict_set In].
  - intros [E|[]]. right. congruence.
  - destruct (keq k' k); cbn [In].
    + intros [E|H]; [right; congruence | left; right; exact H].
    + intros [E|H]; [left; left; exact E|]. destruct (IH H); tauto.
Qed.

End DictSet.

Lemma in_keys_item {K V : Type} (d : dict K V) k :
  In k (dict_keys d) -> exists v, In (k, v) d.
Proof.
  unfold dict_keys. rewrite in_map_iff. intros [[k' v] [E H]]. cbn in E. subst k'.
  exists v. exact H.
Qed.

Lemma pattern_eqb_true p q :
  pattern_eqb p q = true -> pattern p = pattern q /\ ignorecase p = ignorecase q.
Proof.
  unfold pattern_eqb. rewrite andb_true_iff, str_eqb_eq. intros [E F].
  split; [exact E | apply Bool.eqb_prop; exact F].
Qed.

(** ** [compile_oembed_providers]: one endpoint *)

(** The pattern object registered for a list of pattern strings. *)
Lemma register_endpoint_result endpoint m m' :
  register_endpoint endpoint m = Ret m' ->
  exists e, endpoint = JObj e /\
  let schemes := dict_get_default str_eqb KEY_SCHEMES (JArr []) e in
  let endpoint_url := dict_get_default str_eqb KEY_URL JNull e in
  ((truthy schemes = false \/ truthy endpoint_url = false) /\ m' = m) \/
  (truthy schemes = true /\ truthy endpoint_url = true /\
   exists u ss,
     endpoint_url = JStr u /\ py_iter schemes = Ret (map JStr ss) /\
     m' = dict_set pattern_eqb
            (mkPattern (endpoint_regex (map scheme_to_regex ss)) true (schemes_regex ss))
            (str_replace FORMAT_PLACEHOLDER FORMAT_JSON None u) m).
Proof.
  intro H. destruct endpoint as [| | | | | |e]; try discriminate H.
  exists e. split; [reflexivity|]. cbv zeta.
  unfold register_endpoint in H. cbn [py_get bind] in H.
  destruct (truthy (dict_get_default str_eqb KEY_SCHEMES (JArr []) e)) eqn:Ts;
    cbn [negb orb] in H.
  2:{ left. inversion H. auto. }
  destruct (truthy (dict_get_default str_eqb KEY_URL JNull e)) eqn:Tu;
    cbn [negb] in H.
  2:{ left. inversion H. auto. }
  right. repeat split.
  destruct (dict_get_default str_eqb KEY_URL JNull e) as [| | | |u| |];
    cbn [bind] in H; try discriminate H.
  destruct (py_iter (dict_get_default str_eqb KEY_SCHEMES (JArr []) e)) as [items|x] eqn:Ei;
    cbn [bind] in H; [|discriminate].
  destruct (map_each scheme_to_regex_any items) as [regexes|x] eqn:Em;
    cbn [bind] in H; [|discriminate].
  destruct (map_each_strings items regexes Em) as [ss [-> ->]].
  rewrite re_compile_schemes in H. inversion H; subst.
  exists u, ss. repeat split.
Qed.

(** ** [compile_oembed_providers]: the keys of the map *)

Lemma extends_refl m : extends m m.
Proof. split; auto. Qed.

Lemma extends_trans m1 m2 m3 : extends m1 m2 -> extends m2 m3 -> extends m1 m3.
Proof. intros [A B] [C D]. split; auto. Qed.

Lemma register_endpoint_extends endpoint m m' :
  register_endpoint endpoint m = Ret m' -> extends m m'.
Proof.
  intro H. destruct (register_endpoint_result endpoint m m' H) as [e [_ Hcase]].
  cbv zeta in Hcase.
  destruct Hcase as [[_ ->]|(_ & _ & u & ss & _ & _ & ->)]; [apply extends_refl|].
  split.
  - intros Hwf k Hk. apply dict_set_new_keys in Hk. destruct Hk as [->|Hk].
    + cbn [pattern ignorecase]. apply re_compile_schemes.
    + apply Hwf. exact Hk.
  - intros k. apply dict_set_keeps_keys.
Qed.

Lemma register_provider_extends provider m m' :
  register_provider provider m = Ret m' -> extends m m'.
Proof.
  unfold register_provider. intro H.
  destruct (py_iter (dict_get_default str_eqb KEY_ENDPOINTS (JArr []) provider))
    as [endpoints|x]; cbn [bind] in H; [|discriminate].
  apply (for_each_invariant register_endpoint (extends m) endpoints) with (st := m).
  - intros a st st' _ Hst Ha. apply extends_trans with st; auto.
    apply (register_endpoint_extends a); exact Ha.
  - apply extends_refl.
  - exact H.
Qed.

(** The endpoint that declares a pattern has its pattern object among
    the keys of the compiled map. *)
Lemma declared_scheme_registered providers m scheme :
  compile_oembed_providers providers = Ret m ->
  declares providers scheme ->
  exists ss ep,
    In scheme ss /\
    In (mkPattern (endpoint_regex (map scheme_to_regex ss)) true (schemes_regex ss), ep) m.
Proof.
  intros Hc (provider & endpoints & e & schemes & endpoint_url &
             Hp & He & Hin & Hs & Hsch & Hu & Tu).
  unfold compile_oembed_providers in Hc.
  destruct (for_each_round register_provider extends providers
              extends_refl extends_trans register_provider_extends
              provider [] m Hp Hc) as (s1 & s2 & R1 & Hreg & R2).
  unfold register_provider in Hreg.
  assert (Ee : dict_get_default str_eqb KEY_ENDPOINTS (JArr []) provider = JArr endpoints).
  { unfold dict_get_default. rewrite He. reflexivity. }
  rewrite Ee in Hreg. cbn [py_iter bind] in Hreg.
  destruct (for_each_round register_endpoint extends endpoints
              extends_refl extends_trans register_endpoint_extends
              (JObj e) s1 s2 Hin Hreg) as (t1 & t2 & R3 & Hend & R4).
  destruct (register_endpoint_result (JObj e) t1 t2 Hend) as [e' [Eq Hcase]].
  inversion Eq; subst e'. clear Eq. cbv zeta in Hcase.
  assert (Es : dict_get_default str_eqb KEY_SCHEMES (JArr []) e = JArr schemes).
  { unfold dict_get_default. rewrite Hs. reflexivity. }
  assert (Eu : dict_get_default str_eqb KEY_URL JNull e = endpoint_url).
  { unfold dict_get_default. rewrite Hu. reflexivity. }
  rewrite Es, Eu in Hcase.
  destruct Hcase as [[[F|F] _]|(_ & _ & u & ss & _ & Hiter & ->)].
  - destruct schemes; [destruct Hsch | discriminate F].
  - congruence.
  - cbn [py_iter] in Hiter. inversion Hiter; subst schemes. clear Hiter.
    apply in_map_iff in Hsch. destruct Hsch as [x [Ex Hx]]. inversion Ex; subst x.
    set (pat := mkPattern (endpoint_regex (map scheme_to_regex ss)) true
                          (schemes_regex ss)) in *.
    assert (Hwf : compiled_keys t1).
    { apply (proj1 R3). apply (proj1 R1). intros k []. }
    assert (Hkey : In pat (dict_keys
              (dict_set pattern_eqb pat
                 (str_replace FORMAT_PLACEHOLDER FORMAT_JSON None u) t1))).
    { destruct (dict_set_has_key Pattern str pattern_eqb pat
                  (str_replace FORMAT_PLACEHOLDER FORMAT_JSON None u) t1)
        as [H|[k' [Hk [Hold Hnew]]]]; [exact H|].
      apply pattern_eqb_true in Hk. destruct Hk as [Ep Ef].
      pose proof (Hwf k' Hold) as Hk'. rewrite Ep, Ef in Hk'.
      cbn [pattern ignorecase pat] in Hk'. rewrite re_compile_schemes in Hk'.
      inversion Hk' as [Hk'']. rewrite <- Hk'' in Hnew. exact Hnew. }
    apply (proj2 R4), (proj2 R2) in Hkey.
    destruct (in_keys_item m pat Hkey) as [ep Hep].
    exists ss, ep. split; assumption.
Qed.

(** ** [get_oembed_endpoint] *)

(** The lookup returns the endpoint of the first entry of the map, in
    its order, whose pattern matches... *)
Lemma get_oembed_endpoint_first m url endpoint :
  get_oembed_endpoint m url = Some endpoint <->
  exists before compiled_regex after,
    m = before ++ (compiled_regex, endpoint) :: after /\
    pattern_match compiled_regex url = true /\
    Forall (fun entry => pattern_match (fst entry) url = false) before.
Proof.
  induction m as [|[p e] m IH]; cbn [get_oembed_endpoint].
  - split; [discriminate|]. intros (b & r & a & E & _). destruct b; discriminate E.
  - destruct (pattern_match p url) eqn:Hp.
    + split.
      * intro H. inversion H; subst. exists [], p, m.
        split; [reflexivity | split; [exact Hp | constructor]].
      * intros (b & r & a & E & Hr & Hb). destruct b as [|[p' e'] b].
        -- inversion E; subst. reflexivity.
        -- inversion E; subst. inversion Hb; subst. cbn [fst] in *. congruence.
    + rewrite IH. split.
      * intros (b & r & a & -> & Hr & Hb). exists ((p, e) :: b), r, a.
        repeat split; auto.
      * intros (b & r & a & E & Hr & Hb). destruct b as [|[p' e'] b].
        -- inversion E; subst. congruence.
        -- inversion E; subst. inversion Hb; subst. exists b, r, a. repeat split; auto.
Qed.

(** ... and [None] exactly when no pattern of the map matches. *)
Lemma get_oembed_endpoint_none m url :
  get_oembed_endpoint m url = None <->
  Forall (fun entry => pattern_match (fst entry) url = false) m.
Proof.
  induction m as [|[p e] m IH]; cbn [get_oembed_endpoint].
  - split; [constructor | reflexivity].
  - destruct (pattern_match p url) eqn:Hp.
    + split; [discriminate|]. intro H. inversion H; subst. cbn [fst] in *. congruence.
    + rewrite IH. split.
      * intro H. constructor; assumption.
      * intro H. inversion H; assumption.
Qed.

Lemma get_oembed_endpoint_found m url compiled_regex endpoint :
  In (compiled_regex, endpoint) m -> pattern_match compiled_regex url = true ->
  get_oembed_endpoint m url <> None.
Proof.
  intros Hin Hm Hn. rewrite get_oembed_endpoint_none, Forall_forall in Hn.
  specialize (Hn _ Hin). cbn [fst] in Hn. congruence.
Qed.

(** ** Wildcard subdomains *)

(** C1.  Let a catalogue that compiles declare, for an endpoint with a
    URL template, a pattern [http(s)://*.rest].  Then the regular
    expression [scheme_to_regex] builds for the pattern, and the matcher
    that [compile_oembed_providers] registers for the endpoint's pattern
    list, accept every URL made of either scheme, in any letter case,
    followed by an instance of [rest] (the bare host), and every such
    URL with a subdomain and a full stop put before that instance;
    [get_oembed_endpoint] finds an endpoint for each. *)
Theorem wildcard_subdomain_accepted
    (providers : list (list (str * json))) (m : endpoint_map_t)
    (P rest Q Q' sub r url : str) :
  compile_oembed_providers providers = Ret m ->
  declares providers (P ++ STAR_DOT ++ rest) ->
  P = HTTP \/ P = HTTPS ->
  Q = HTTP \/ Q = HTTPS ->
  same_fold Q' Q ->
  no_lf sub ->
  instance_of rest r ->
  url = Q' ++ r \/ url = Q' ++ sub ++ FULL_STOP ++ r ->
  re_match (scheme_to_regex (P ++ STAR_DOT ++ rest)) true url = true /\
  (exists schemes compiled_regex endpoint,
     In (P ++ STAR_DOT ++ rest) schemes /\
     pattern compiled_regex = endpoint_regex (map scheme_to_regex schemes) /\
     ignorecase compiled_regex = true /\
     In (compiled_regex, endpoint) m /\
     pattern_match compiled_regex url = true) /\
  get_oembed_endpoint m url <> None.
Proof.
  intros Hc Hd HP HQ Hf Hsub Hr Hurl.
  destruct (declared_scheme_registered providers m _ Hc Hd) as (ss & ep & Hin & Hm).
  set (pat := mkPattern (endpoint_regex (map scheme_to_regex ss)) true
                        (schemes_regex ss)) in *.
  destruct (wildcard_scheme_variants P Q rest HP HQ) as [Vsub Vbare].
  destruct (wildcard_instances Q Q' sub rest r HQ Hf Hsub Hr) as [Ibare Isub].
  assert (Hv : exists v, In v (scheme_variants (P ++ STAR_DOT ++ rest)) /\
                         matches true (variant_regex v) url []).
  { destruct Hurl as [->| ->].
    - exists (Q ++ rest). split; [exact Vbare | apply instance_variant; exact Ibare].
    - exists (Q ++ STAR_DOT ++ rest).
      split; [exact Vsub | apply instance_variant; exact Isub]. }
  destruct Hv as [v [Hv Hmatch]].
  assert (Hacc : pattern_match pat url = true).
  { apply pattern_match_iff. exists []. cbn [pat ignorecase prog].
    apply matches_schemes_regex with (scheme := P ++ STAR_DOT ++ rest); [exact Hin|].
    apply matches_scheme_regex with (v := v); assumption. }
  split; [|split].
  - apply (scheme_match_intro _ true v url []); assumption.
  - exists ss, pat, ep. repeat split; assumption.
  - apply (get_oembed_endpoint_found m url pat ep); assumption.
Qed.

Lemma wildcard_map_compiled :
  compile_oembed_providers wildcard_providers = Ret wildcard_map.
Proof. vm_compute. reflexivity. Qed.

Lemma wildcard_providers_declare :
  declares wildcard_providers (HTTPS ++ STAR_DOT ++ txt "example.com/watch/*").
Proof.
  exists (provider_entry (txt "WildcardSubdomain")
            [endpoint_entry [txt "https://*.example.com/watch/*"]
                            (txt "https://example.com/oembed")]).
  exists [endpoint_entry [txt "https://*.example.com/watch/*"]
                         (txt "https://example.com/oembed")].
  exists [(KEY_SCHEMES, JArr (map JStr [txt "https://*.example.com/watch/*"]));
          (KEY_URL, JStr (txt "https://example.com/oembed"))].
  exists (map JStr [txt "https://*.example.com/watch/*"]).
  exists (JStr (txt "https://example.com/oembed")).
  repeat split; try reflexivity; left; reflexivity.
Qed.

Lemma wildcard_subdomain_accepted_witness :
  get_oembed_endpoint wildcard_map (txt "HTTP://Media.Example.com/watch/123") <> None.
Proof.
  refine (proj2 (proj2 (wildcard_subdomain_accepted wildcard_providers wildcard_map
                   HTTPS (txt "example.com/watch/*") HTTP (txt "HTTP://")
                   (txt "Media") (txt "Example.com/watch/123")
                   (txt "HTTP://Media.Example.com/watch/123")
                   wildcard_map_compiled wildcard_providers_declare
                   _ _ _ _ _ _))).
  - right. reflexivity.
  - left. reflexivity.
  - reflexivity.
  - intro H. cbn in H. intuition discriminate.
  - repeat (apply inst_chr; [discriminate | reflexivity | ]).
    refine (@inst_star (txt "123") [] [] _ inst_nil).
    intro H. cbn in H. intuition discriminate.
  - right. reflexivity.
Defined.

(** ** Registration order *)

(** C3 (the code falls short of it).  The lookup walks the map in its
    order, but when two providers declare the same pattern the map has
    one entry for both, at the place of the first and with the endpoint
    of the second.  Each of the two providers on its own resolves the
    URL to its own endpoint; registered one after the other, the URL
    resolves to the endpoint of the provider registered last. *)
Theorem same_pattern_later_provider_wins :
  (exists m1, compile_oembed_providers [first_provider] = Ret m1 /\
     get_oembed_endpoint m1 video_url = Some (txt "https://first.example.com/oembed")) /\
  (exists m2, compile_oembed_providers [second_provider] = Ret m2 /\
     get_oembed_endpoint m2 video_url = Some (txt "https://second.example.com/oembed")) /\
  (exists m, compile_oembed_providers [first_provider; second_provider] = Ret m /\
     length m = 1 /\
     get_oembed_endpoint m video_url = Some (txt "https://second.example.com/oembed")).
Proof.
  repeat split; eexists; (split; [vm_compute; reflexivity|]); vm_compute; auto.
Qed.

(** With patterns that differ, the provider registered first wins, as in
    [test_get_oembed_endpoint_matches_first_provider]. *)
Example first_provider_wins_on_distinct_patterns :
  exists m,
    compile_oembed_providers
      [provider_entry (txt "GenericProvider")
         [endpoint_entry [txt "https://example.com/*"]
                         (txt "https://generic.example.com/oembed")];
       provider_entry (txt "SpecificProvider")
         [endpoint_entry [txt "https://example.com/video/*"]
                         (txt "https://specific.example.com/oembed")]] = Ret m /\
    get_oembed_endpoint m video_url = Some (txt "https://generic.example.com/oembed").
Proof. eexists. split; vm_compute; reflexivity. Qed.

(** ** The format placeholder *)

Lemma startswith_after_format q s :
  ~ In "j"%char q ->
  startswith q (str_replace FORMAT_PLACEHOLDER FORMAT_JSON None s) = true ->
  startswith q s = true.
Proof.
  revert s. induction q as [|x q IH]; intros s Hj; [reflexivity|].
  rewrite str_replace_step by discriminate.
  destruct s as [|c s]; [intro H; exact H|].
  destruct (startswith FORMAT_PLACEHOLDER (c :: s)).
  - cbn [FORMAT_JSON app startswith]. rewrite andb_true_iff, ascii_eqb_eq.
    intros [E _]. exfalso. apply Hj. left. exact E.
  - cbn [startswith]. rewrite !andb_true_iff. intros [E H]. split; [exact E|].
    apply IH; [|exact H]. intro Hin. apply Hj. right. exact Hin.
Qed.

(** Once [{format}] has been replaced by [json] no [{format}] is left. *)
Lemma no_placeholder_left s :
  contains FORMAT_PLACEHOLDER (str_replace FORMAT_PLACEHOLDER FORMAT_JSON None s) = false.
Proof.
  remember (length s) as n eqn:Hn.
  assert (L : length s <= n) by lia. clear Hn. revert s L.
  induction n as [|n IH]; intros s L.
  - destruct s; [reflexivity | cbn in L; lia].
  - rewrite str_replace_step by discriminate.
    destruct s as [|c s]; [reflexivity|].
    destruct (startswith FORMAT_PLACEHOLDER (c :: s)) eqn:E.
    + cbn [FORMAT_JSON app contains].
      change (startswith FORMAT_PLACEHOLDER ("j"%char :: ?x)) with false.
      cbn [FORMAT_PLACEHOLDER startswith ascii_eqb Ascii.eqb Bool.eqb andb orb].
      apply IH. cbn [FORMAT_PLACEHOLDER length]. rewrite length_skipn. cbn in L |- *. lia.
    + cbn [contains]. rewrite (IH s) by (cbn in L; lia). rewrite orb_false_r.
      destruct (startswith FORMAT_PLACEHOLDER
                  (c :: str_replace FORMAT_PLACEHOLDER FORMAT_JSON None s)) eqn:F;
        [|reflexivity].
      cbn [FORMAT_PLACEHOLDER startswith] in E, F.
      apply andb_true_iff in F. destruct F as [F1 F2]. rewrite F1 in E. cbn [andb] in E.
      apply (startswith_after_format (txt "format}")) in F2.
      * change (startswith (txt "format}") s = false) in E. congruence.
      * cbv. intuition discriminate.
Qed.

(** ** Partial catalogue entries *)

Lemma register_partial_endpoint e m :
  partial_endpoint e -> register_endpoint (JObj e) m = Ret m.
Proof.
  intro H. unfold register_endpoint. cbn [py_get bind]. unfold dict_get_default.
  destruct H as [H|[H|H]]; rewrite H; cbn [truthy negb orb]; try reflexivity.
  rewrite orb_true_r. reflexivity.
Qed.

Lemma for_each_skip {A S : Type} (body : A -> S -> outcome S) l1 a l2 :
  (forall st, body a st = Ret st) ->
  forall st, for_each body (l1 ++ a :: l2) st = for_each body (l1 ++ l2) st.
Proof.
  intros Ha st. rewrite !for_each_app.
  destruct (for_each body l1 st) as [s1|x]; cbn [bind for_each]; [|reflexivity].
  rewrite Ha. reflexivity.
Qed.

Lemma for_each_same_round {A S : Type} (body : A -> S -> outcome S) l1 a a' l2 :
  (forall st, body a st = body a' st) ->
  forall st, for_each body (l1 ++ a :: l2) st = for_each body (l1 ++ a' :: l2) st.
Proof.
  intros Ha st. rewrite !for_each_app.
  destruct (for_each body l1 st) as [s1|x]; cbn [bind for_each]; [|reflexivity].
  rewrite Ha. reflexivity.
Qed.

Lemma register_endpoint_formatted providers provider endpoints endpoint m m' :
  In provider providers ->
  py_iter (dict_get_default str_eqb KEY_ENDPOINTS (JArr []) provider) = Ret endpoints ->
  In endpoint endpoints ->
  formatted_values providers m ->
  register_endpoint endpoint m = Ret m' ->
  formatted_values providers m'.
Proof.
  intros Hp Hi He Hm H.
  destruct (register_endpoint_result endpoint m m' H) as [e [-> Hcase]].
  cbv zeta in Hcase.
  destruct Hcase as [[_ ->]|(_ & _ & u & ss & Hu & _ & ->)]; [exact Hm|].
  intros k v Hin. apply dict_set_items in Hin. destruct Hin as [Hin| ->].
  - apply (Hm k v Hin).
  - exists u. split; [|reflexivity].
    exists provider, endpoints, e. repeat split; try assumption.
    unfold dict_get_default in Hu.
    destruct (dict_get str_eqb KEY_URL e) as [w|]; [congruence | discriminate].
Qed.

Lemma compile_formatted providers m :
  compile_oembed_providers providers = Ret m -> formatted_values providers m.
Proof.
  intro H. unfold compile_oembed_providers in H.
  apply (for_each_invariant register_provider (formatted_values providers) providers)
    with (st := []); [| intros k v [] | exact H].
  intros provider st st' Hp Hst Hreg. unfold register_provider in Hreg.
  destruct (py_iter (dict_get_default str_eqb KEY_ENDPOINTS (JArr []) provider))
    as [endpoints|x] eqn:Ei; cbn [bind] in Hreg; [|discriminate].
  apply (for_each_invariant register_endpoint (formatted_values providers) endpoints)
    with (st := st); [| exact Hst | exact Hreg].
  intros endpoint s1 s2 He Hs1 Hs2.
  apply (register_endpoint_formatted providers provider endpoints endpoint s1 s2);
    assumption.
Qed.

(** C7.  An endpoint entry whose pattern list is missing or empty, or
    whose URL template is missing, leaves the endpoint map as it is and
    raises nothing, so that the compiled map is the one obtained without
    the entry; and every endpoint URL in a compiled map is a template of
    the catalogue with each [{format}] replaced by [json], none being
    left. *)
Theorem compile_skips_partial_and_formats :
  (forall e m, partial_endpoint e -> register_endpoint (JObj e) m = Ret m) /\
  (forall before after provider provider' e endpoints1 endpoints2,
     partial_endpoint e ->
     dict_get str_eqb KEY_ENDPOINTS provider
       = Some (JArr (endpoints1 ++ JObj e :: endpoints2)) ->
     dict_get str_eqb KEY_ENDPOINTS provider' = Some (JArr (endpoints1 ++ endpoints2)) ->
     compile_oembed_providers (before ++ provider :: after)
     = compile_oembed_providers (before ++ provider' :: after)) /\
  (forall providers m compiled_regex endpoint_url,
     compile_oembed_providers providers = Ret m ->
     In (compiled_regex, endpoint_url) m ->
     contains FORMAT_PLACEHOLDER endpoint_url = false /\
     exists template,
       template_of providers template /\
       endpoint_url = str_replace FORMAT_PLACEHOLDER FORMAT_JSON None template).
Proof.
  split; [|split].
  - intros e m. apply register_partial_endpoint.
  - intros before after provider provider' e es1 es2 He Hp Hp'.
    unfold compile_oembed_providers. apply for_each_same_round.
    intro st. unfold register_provider, dict_get_default. rewrite Hp, Hp'.
    cbn [py_iter bind]. apply for_each_skip.
    intro s. apply register_partial_endpoint. exact He.
  - intros providers m k v Hc Hin.
    destruct (compile_formatted providers m Hc k v Hin) as [t [Ht ->]].
    split; [apply no_placeholder_left|]. exists t. split; [exact Ht | reflexivity].
Qed.

Lemma compile_skips_partial_and_formats_witness :
  register_endpoint (JObj [(KEY_URL, JStr (txt "https://invalid.example.com/oembed"))]) []
  = Ret [] /\
  contains FORMAT_PLACEHOLDER fixture_endpoint = false.
Proof.
  destruct compile_skips_partial_and_formats as (Hskip & _ & Hfmt).
  split.
  - apply Hskip. left. reflexivity.
  - apply (Hfmt fixture_providers fixture_map
             (mkPattern (endpoint_regex [scheme_to_regex (txt "https://example.com/watch/*")])
                        true (schemes_regex [txt "https://example.com/watch/*"]))
             fixture_endpoint fixture_map_compiled).
    vm_compute. left. reflexivity.
Defined.

(** ** [get_oembed_data]: reading the response *)

Section Fetch.

Variable OEMBED_ENDPOINT_MAP : endpoint_map_t.
Variable PreviewSession : Session.
Variables (url : str) (maxwidth maxheight : option Z) (session : option Session).

(** The session the call talks to. *)
Let used_session : Session :=
  match session with Some s => s | None => PreviewSession end.

Let result := snd (get_oembed_data OEMBED_ENDPOINT_MAP PreviewSession url
                                   maxwidth maxheight session).

Lemma get_oembed_data_no_endpoint :
  get_oembed_endpoint OEMBED_ENDPOINT_MAP url = None ->
  get_oembed_data OEMBED_ENDPOINT_MAP PreviewSession url maxwidth maxheight session
  = ([], Ret None).
Proof. unfold get_oembed_data. intros ->. reflexivity. Qed.

(** When the GET is answered with a good status and a JSON body, the
    result is the reading of that body. *)
Lemma get_oembed_data_fetched endpoint response data :
  get_oembed_endpoint OEMBED_ENDPOINT_MAP url = Some endpoint ->
  (forall q, used_session q = Ret response) ->
  response_ok response = true ->
  json_body response = Some data ->
  result = oembed_of_data data.
Proof.
  intros He Hs Hok Hj. unfold result, get_oembed_data. rewrite He.
  fold used_session. rewrite Hs, Hok. cbn [negb].
  unfold response_json. rewrite Hj. reflexivity.
Qed.

End Fetch.

Lemma oembed_of_data_obj d :
  oembed_of_data (JObj d) =
  let ty := dict_get_default str_eqb KEY_TYPE (JStr []) d in
  let img := dict_get_default str_eqb KEY_URL
               (dict_get_default str_eqb KEY_IMAGE JNull d) d in
  let thumbnail := dict_get_default str_eqb KEY_THUMBNAIL_URL JNull d in
  let markup := dict_get_default str_eqb KEY_HTML (JStr []) d in
  let ttl := dict_get_default str_eqb KEY_TITLE JNull d in
  let descr := dict_get_default str_eqb KEY_DESCRIPTION JNull d in
  if eq_str ty PHOTO && truthy img
  then Ret (Some (mkUrlOEmbedData img PHOTO None ttl descr))
  else if eq_str ty VIDEO && truthy markup && truthy thumbnail
  then match markup with
       | JStr h => Ret (Some (mkUrlOEmbedData thumbnail VIDEO (Some (strip_cdata h)) ttl descr))
       | _ => Raise AttributeError
       end
  else Ret None.
Proof.
  unfold oembed_of_data. cbn [py_get bind].
  destruct (eq_str _ PHOTO && truthy _); [reflexivity|].
  destruct (eq_str _ VIDEO && truthy _ && truthy _); [|reflexivity].
  destruct (dict_get_default str_eqb KEY_HTML (JStr []) d); reflexivity.
Qed.

Lemma eq_str_true v s : eq_str v s = true <-> v = JStr s.
Proof.
  destruct v; simpl; try (split; [discriminate | intro E; discriminate]).
  rewrite str_eqb_eq. split; [intros ->; reflexivity | intro E; inversion E; reflexivity].
Qed.


Lemma photo_neq_video : str_eqb PHOTO VIDEO = false.
Proof. reflexivity. Qed.


Lemma type_field_default d s :
  s <> [] ->
  (dict_get_default str_eqb KEY_TYPE (JStr []) d = JStr s <->
   dict_get str_eqb KEY_TYPE d = Some (JStr s)).
Proof.
  intro Hs. unfold dict_get_default.
  destruct (dict_get str_eqb KEY_TYPE d) as [v|].
  - split; [intros ->; reflexivity | intro E; inversion E; reflexivity].
  - split; [intro E; inversion E; congruence | discriminate].
Qed.




(** C10.  For a photo whose [url] key is there with an empty value, the
    call returns [None] whatever the [image] key holds: [image] is only
    the default for an absent [url]. *)
Theorem get_oembed_data_photo_empty_url
    (m : endpoint_map_t) (PreviewSession : Session) (url : str)
    (maxwidth maxheight : option Z) (session : option Session)
    (endpoint : str) (response : Response) (d : list (str * json)) (v : json) :
  get_oembed_endpoint m url = Some endpoint ->
  (forall q, match session with Some s => s | None => PreviewSession end q
             = Ret response) ->
  response_ok response = true ->
  json_body response = Some (JObj d) ->
  dict_get str_eqb KEY_TYPE d = Some (JStr PHOTO) ->
  dict_get str_eqb KEY_URL d = Some v ->
  truthy v = false ->
  snd (get_oembed_data m PreviewSession url maxwidth maxheight session) = Ret None.
Proof.
  intros He Hs Hok Hj Ht Hu Hv.
  rewrite (get_oembed_data_fetched m PreviewSession url maxwidth maxheight session
             endpoint response (JObj d) He Hs Hok Hj).
  rewrite oembed_of_data_obj. cbv zeta.
  assert (Et : dict_get_default str_eqb KEY_TYPE (JStr []) d = JStr PHOTO).
  { unfold dict_get_default. rewrite Ht. reflexivity. }
  assert (Eu : forall dflt, dict_get_default str_eqb KEY_URL dflt d = v).
  { intro dflt. unfold dict_get_default. rewrite Hu. reflexivity. }
  rewrite Et, Eu, Hv. cbn [eq_str].
  rewrite str_eqb_refl, photo_neq_video. reflexivity.
Qed.

Lemma get_oembed_data_photo_empty_url_witness :
  snd (get_oembed_data fixture_map
         (constant_session
            (photo_response [(KEY_URL, JStr []);
                             (KEY_IMAGE, JStr (txt "https://example.com/a.png"))]))
         fixture_url None None None) = Ret None.
Proof.
  apply (get_oembed_data_photo_empty_url fixture_map _ fixture_url None None None
           fixture_endpoint
           (photo_response [(KEY_URL, JStr []);
                            (KEY_IMAGE, JStr (txt "https://example.com/a.png"))])
           [(KEY_TYPE, JStr PHOTO); (KEY_URL, JStr []);
            (KEY_IMAGE, JStr (txt "https://example.com/a.png"))]
           (JStr [])); reflexivity.
Defined.

(** ** [get_oembed_data]: failures of the fetch *)

(** C5, as amended.  When the GET raises a [requests] exception, or is
    answered with a status in 400..599, or with a body on which
    [response.json()] raises [JSONDecodeError], the call returns [None]
    and raises nothing. *)
Theorem get_oembed_data_fetch_failure
    (m : endpoint_map_t) (PreviewSession : Session) (url : str)
    (maxwidth maxheight : option Z) (session : option Session) (endpoint : str) :
  get_oembed_endpoint m url = Some endpoint ->
  (forall q,
     let answer := match session with Some s => s | None => PreviewSession end q in
     answer = Raise RequestException \/
     (exists r, answer = Ret r /\ (400 <= status_code r < 600)%Z) \/
     (exists r, answer = Ret r /\ response_json r = Raise JSONDecodeError)) ->
  snd (get_oembed_data m PreviewSession url maxwidth maxheight session) = Ret None.
Proof.
  intros He Hfail. unfold get_oembed_data. rewrite He.
  match goal with |- context [match ?s ?q with Ret _ => _ | Raise _ => _ end] =>
    specialize (Hfail q); cbv zeta in Hfail; destruct Hfail as [E|[[r [E Hr]]|[r [E Hr]]]];
    rewrite E
  end.
  - reflexivity.
  - unfold response_ok.
    replace (400 <=? status_code r)%Z with true by (symmetry; apply Z.leb_le; lia).
    replace (status_code r <? 600)%Z with true by (symmetry; apply Z.ltb_lt; lia).
    reflexivity.
  - destruct (response_ok r); [|reflexivity].
    cbn [negb]. rewrite Hr. reflexivity.
Qed.

Lemma get_oembed_data_fetch_failure_witness :
  snd (get_oembed_data fixture_map (constant_session (mkResponse 500 None))
         fixture_url None None None) = Ret None.
Proof.
  apply (get_oembed_data_fetch_failure fixture_map _ fixture_url None None None
           fixture_endpoint fixture_endpoint_found).
  intros q answer. right. left. exists (mkResponse 500 None).
  split; [reflexivity | cbn; lia].
Defined.

(** C5, as stated, fails: a redirect status is not a 2xx status, yet
    [response.ok] holds for it and a photo in the body is returned. *)
Lemma non_2xx_status_returns_data :
  let response :=
    mkResponse 300 (Some (JObj [(KEY_TYPE, JStr PHOTO);
                                (KEY_URL, JStr (txt "https://example.com/a.png"))])) in
  ~ (200 <= status_code response < 300)%Z /\
  snd (get_oembed_data fixture_map (constant_session response) fixture_url None None None)
  = Ret (Some (mkUrlOEmbedData (JStr (txt "https://example.com/a.png")) PHOTO None
                               JNull JNull)).
Proof.
  split.
  - cbn. lia.
  - vm_compute. reflexivity.
Qed.

(** A body the decoder gives up on fails with an exception the handler
    does not name, and that one reaches the caller. *)
Example undecodable_body_raises :
  Forall (fun e =>
            snd (get_oembed_data fixture_map
                   (constant_session (mkResponseRaising 200 None e))
                   fixture_url None None None) = Raise e)
         [RecursionError; ValueError].
Proof. repeat constructor. Qed.

(** ** [urlencode] *)

Lemma replace1_cons x new c s :
  str_replace [x] new None (c :: s) =
  (if ascii_eqb x c then new else [c]) ++ str_replace [x] new None s.
Proof.
  rewrite str_replace_step by discriminate.
  cbn [startswith skipn length]. rewrite andb_true_r.
  destruct (ascii_eqb x c); reflexivity.
Qed.

Lemma replace1_nil x new : str_replace [x] new None [] = [].
Proof. reflexivity. Qed.

Lemma replace1_app x new a b :
  str_replace [x] new None (a ++ b) =
  str_replace [x] new None a ++ str_replace [x] new None b.
Proof.
  induction a as [|c a IH]; [reflexivity|].
  rewrite <- app_comm_cons, !replace1_cons, IH, app_assoc. reflexivity.
Qed.

Lemma contains1 x s : contains [x] s = existsb (ascii_eqb x) s.
Proof.
  induction s as [|c s IH]; [reflexivity|].
  cbn [contains startswith existsb]. rewrite andb_true_r, IH. reflexivity.
Qed.

Lemma hex_digit_not_space n : ascii_eqb " " (hex_digit n) = false.
Proof.
  unfold hex_digit.
  do 17 (destruct n as [|n]; [reflexivity|]). reflexivity.
Qed.

Lemma always_safe_not_space c : always_safe c = true -> ascii_eqb " " c = false.
Proof.
  intro H. apply ascii_eqb_neq. intros <-. discriminate.
Qed.

Lemma quote_cons safe c s :
  quote safe (c :: s) =
  (if always_safe c || existsb (ascii_eqb c) safe then [c] else percent c) ++ quote safe s.
Proof. reflexivity. Qed.

Lemma quote_plus_chars s : quote_plus s = flat_map quote_plus_char s.
Proof.
  unfold quote_plus. change SPACE with [" "%char].
  destruct (contains [" "%char] s) eqn:C; cbn [negb].
  - clear C. induction s as [|c s IH]; [reflexivity|].
    rewrite quote_cons. cbn [flat_map]. rewrite replace1_app, IH. f_equal.
    unfold quote_plus_char. cbn [existsb]. rewrite orb_false_r.
    destruct (always_safe c) eqn:A.
    + cbn [orb]. rewrite replace1_cons, (always_safe_not_space _ A). reflexivity.
    + cbn [orb]. destruct (ascii_eqb c " ") eqn:E.
      * apply ascii_eqb_eq in E. subst c. reflexivity.
      * unfold percent. rewrite !replace1_cons, !hex_digit_not_space. reflexivity.
  - rewrite contains1 in C.
    induction s as [|c s IH]; [reflexivity|].
    cbn [existsb] in C. apply orb_false_iff in C. destruct C as [C1 C2].
    rewrite quote_cons. cbn [flat_map]. rewrite (IH C2). f_equal.
    unfold quote_plus_char. cbn [existsb]. rewrite orb_false_r.
    destruct (always_safe c); [reflexivity|].
    assert (E : ascii_eqb c " " = false).
    { apply ascii_eqb_neq. apply ascii_eqb_neq in C1. congruence. }
    rewrite E. reflexivity.
Qed.

Lemma unquote_plus_char c r :
  unquote_plus (quote_plus_char c ++ r) = c :: unquote_plus r.
Proof.
  destruct c as [[] [] [] [] [] [] [] []]; reflexivity.
Qed.

Lemma unquote_plus_chars s r :
  unquote_plus (flat_map quote_plus_char s ++ r) = s ++ unquote_plus r.
Proof.
  induction s as [|c s IH]; [reflexivity|].
  cbn [flat_map]. rewrite <- app_assoc, unquote_plus_char, IH. reflexivity.
Qed.

(** Decoding undoes encoding. *)
Lemma unquote_quote_plus s : unquote_plus (quote_plus s) = s.
Proof.
  rewrite quote_plus_chars.
  rewrite <- (app_nil_r (flat_map quote_plus_char s)), unquote_plus_chars.
  cbn. apply app_nil_r.
Qed.

Lemma quote_plus_char_plain c : forallb plain (quote_plus_char c) = true.
Proof.
  destruct c as [[] [] [] [] [] [] [] []]; reflexivity.
Qed.

Lemma quote_plus_plain s : forallb plain (quote_plus s) = true.
Proof.
  rewrite quote_plus_chars. induction s as [|c s IH]; [reflexivity|].
  cbn [flat_map]. rewrite forallb_app, quote_plus_char_plain, IH. reflexivity.
Qed.

Lemma split_on_sep sep a b :
  forallb (fun c => negb (ascii_eqb c sep)) a = true ->
  split_on sep (a ++ sep :: b) = a :: split_on sep b.
Proof.
  induction a as [|c a IH]; intro H.
  - cbn [app split_on]. rewrite ascii_eqb_refl. reflexivity.
  - cbn [forallb] in H. apply andb_true_iff in H. destruct H as [Hc Ha].
    cbn [app split_on]. apply negb_true_iff in Hc. rewrite Hc, (IH Ha). reflexivity.
Qed.

Lemma split_on_last sep a :
  forallb (fun c => negb (ascii_eqb c sep)) a = true -> split_on sep a = [a].
Proof.
  induction a as [|c a IH]; intro H; [reflexivity|].
  cbn [forallb] in H. apply andb_true_iff in H. destruct H as [Hc Ha].
  cbn [split_on]. apply negb_true_iff in Hc. rewrite Hc, (IH Ha). reflexivity.
Qed.

Lemma cut_at_sep sep a b :
  forallb (fun c => negb (ascii_eqb c sep)) a = true ->
  cut_at sep (a ++ sep :: b) = (a, b).
Proof.
  induction a as [|c a IH]; intro H.
  - cbn [app cut_at]. rewrite ascii_eqb_refl. reflexivity.
  - cbn [forallb] in H. apply andb_true_iff in H. destruct H as [Hc Ha].
    cbn [app cut_at]. apply negb_true_iff in Hc. rewrite Hc, (IH Ha). reflexivity.
Qed.

Lemma plain_no_amp a :
  forallb plain a = true -> forallb (fun c => negb (ascii_eqb c "&")) a = true.
Proof.
  induction a as [|c a IH]; [reflexivity|].
  cbn [forallb]. unfold plain at 1. rewrite !andb_true_iff.
  intros [[H1 _] H2]. auto.
Qed.

Lemma plain_no_eq a :
  forallb plain a = true -> forallb (fun c => negb (ascii_eqb c "=")) a = true.
Proof.
  induction a as [|c a IH]; [reflexivity|].
  cbn [forallb]. unfold plain at 1. rewrite !andb_true_iff.
  intros [[_ H1] H2]. auto.
Qed.

(** A decimal numeral is made of safe characters, so encoding leaves it
    as it is. *)
Lemma digits_safe d :
  forallb always_safe (list_ascii_of_string (DecimalString.NilEmpty.string_of_uint d)) = true.
Proof. induction d; cbn; auto. Qed.

Lemma str_of_int_safe n : forallb always_safe (str_of_int n) = true.
Proof.
  unfold str_of_int, DecimalString.NilZero.string_of_int,
    DecimalString.NilZero.string_of_uint.
  destruct (Z.to_int n) as [d|d]; destruct d; try reflexivity;
    cbn [list_ascii_of_string forallb]; try apply (digits_safe (Decimal.D0 _));
    rewrite ?andb_true_l;
    first [ apply (digits_safe (Decimal.D0 d)) | apply (digits_safe (Decimal.D1 d))
          | apply (digits_safe (Decimal.D2 d)) | apply (digits_safe (Decimal.D3 d))
          | apply (digits_safe (Decimal.D4 d)) | apply (digits_safe (Decimal.D5 d))
          | apply (digits_safe (Decimal.D6 d)) | apply (digits_safe (Decimal.D7 d))
          | apply (digits_safe (Decimal.D8 d)) | apply (digits_safe (Decimal.D9 d)) ].
Qed.

Lemma quote_plus_safe s : forallb always_safe s = true -> quote_plus s = s.
Proof.
  rewrite quote_plus_chars. induction s as [|c s IH]; [reflexivity|].
  cbn [forallb flat_map]. rewrite andb_true_iff. intros [Hc Hs].
  unfold quote_plus_char at 1. rewrite Hc, (IH Hs). reflexivity.
Qed.

Lemma quote_plus_int n : quote_plus (str_of_int n) = str_of_int n.
Proof. apply quote_plus_safe, str_of_int_safe. Qed.

Lemma urlencode_oembed_params url w h :
  urlencode [(KEY_URL, PStr url); (KEY_FORMAT, PStr FORMAT_JSON);
             (KEY_MAXWIDTH, PInt w); (KEY_MAXHEIGHT, PInt h)] =
  txt "url=" ++ quote_plus url ++ txt "&format=json&maxwidth=" ++ str_of_int w
    ++ txt "&maxheight=" ++ str_of_int h.
Proof.
  unfold urlencode. cbn [map join fst snd param_str].
  rewrite !quote_plus_int.
  change (quote_plus KEY_URL) with KEY_URL.
  change (quote_plus KEY_FORMAT) with KEY_FORMAT.
  change (quote_plus FORMAT_JSON) with FORMAT_JSON.
  change (quote_plus KEY_MAXWIDTH) with KEY_MAXWIDTH.
  change (quote_plus KEY_MAXHEIGHT) with KEY_MAXHEIGHT.
  cbn [txt list_ascii_of_string KEY_URL KEY_FORMAT FORMAT_JSON KEY_MAXWIDTH KEY_MAXHEIGHT AMP].
  repeat (rewrite <- ?app_assoc; cbn [app]). reflexivity.
Qed.

Lemma query_params_oembed url w h :
  query_params (txt "url=" ++ quote_plus url ++ txt "&format=json&maxwidth="
                  ++ str_of_int w ++ txt "&maxheight=" ++ str_of_int h) =
  [(txt "url", url); (txt "format", txt "json");
   (txt "maxwidth", str_of_int w); (txt "maxheight", str_of_int h)].
Proof.
  pose proof (quote_plus_plain url) as Pu.
  pose proof (quote_plus_plain (str_of_int w)) as Pw.
  pose proof (quote_plus_plain (str_of_int h)) as Ph.
  rewrite quote_plus_int in Pw, Ph.
  unfold query_params.
  replace (txt "url=" ++ quote_plus url ++ txt "&format=json&maxwidth="
             ++ str_of_int w ++ txt "&maxheight=" ++ str_of_int h)
    with ((txt "url=" ++ quote_plus url) ++ "&"%char ::
          txt "format=json" ++ "&"%char ::
          (txt "maxwidth=" ++ str_of_int w) ++ "&"%char ::
          (txt "maxheight=" ++ str_of_int h))
    by (cbn [txt list_ascii_of_string app]; rewrite <- ?app_assoc; reflexivity).
  rewrite split_on_sep.
  2:{ rewrite forallb_app. rewrite (plain_no_amp _ Pu). reflexivity. }
  rewrite split_on_sep by reflexivity.
  rewrite split_on_sep.
  2:{ rewrite forallb_app. rewrite (plain_no_amp _ Pw). reflexivity. }
  rewrite split_on_last.
  2:{ rewrite forallb_app. rewrite (plain_no_amp _ Ph). reflexivity. }
  cbn [map].
  change (txt "url=" ++ quote_plus url) with (txt "url" ++ "="%char :: quote_plus url).
  change (txt "format=json") with (txt "format" ++ "="%char :: txt "json").
  change (txt "maxwidth=" ++ str_of_int w) with (txt "maxwidth" ++ "="%char :: str_of_int w).
  change (txt "maxheight=" ++ str_of_int h)
    with (txt "maxheight" ++ "="%char :: str_of_int h).
  rewrite !cut_at_sep by reflexivity.
  rewrite unquote_quote_plus.
  rewrite <- (quote_plus_int w) at 1. rewrite <- (quote_plus_int h) at 1.
  rewrite !unquote_quote_plus. reflexivity.
Qed.

(** C9.  Once an endpoint is found the call sends one GET, to the
    endpoint URL followed by a query string that carries exactly [url]
    (the URL asked about), [format=json], [maxwidth] and [maxheight]; the
    last two are 640 and 480 when the caller leaves them out. *)
Theorem get_oembed_data_request
    (m : endpoint_map_t) (PreviewSession : Session) (url : str)
    (maxwidth maxheight : option Z) (session : option Session) (endpoint : str) :
  get_oembed_endpoint m url = Some endpoint ->
  let w := match maxwidth with Some w => w | None => 640%Z end in
  let h := match maxheight with Some h => h | None => 480%Z end in
  let query := txt "url=" ++ quote_plus url ++ txt "&format=json&maxwidth="
                 ++ str_of_int w ++ txt "&maxheight=" ++ str_of_int h in
  fst (get_oembed_data m PreviewSession url maxwidth maxheight session)
    = [endpoint ++ txt "?" ++ query] /\
  query_params query =
    [(txt "url", url); (txt "format", txt "json");
     (txt "maxwidth", str_of_int w); (txt "maxheight", str_of_int h)].
Proof.
  intros He w h query. split; [|apply query_params_oembed].
  unfold get_oembed_data. rewrite He. fold w h.
  rewrite urlencode_oembed_params. fold query.
  change QUESTION with (txt "?").
  destruct (match session with Some s => s | None => PreviewSession end
              (endpoint ++ txt "?" ++ query)) as [r|e]; [|reflexivity].
  destruct (response_ok r); [|reflexivity].
  destruct (response_json r); reflexivity.
Qed.

Lemma get_oembed_data_request_witness :
  fst (get_oembed_data fixture_map (constant_session (mkResponse 404 None))
         fixture_url None None None)
  = [txt "https://example.com/oembed.json?url=https%3A%2F%2Fexample.com%2Fwatch%2F123&format=json&maxwidth=640&maxheight=480"].
Proof.
  exact (proj1 (get_oembed_data_request fixture_map
                  (constant_session (mkResponse 404 None)) fixture_url None None None
                  fixture_endpoint fixture_endpoint_found)).
Defined.

(** ** [strip_cdata] *)

Lemma strip_cdata_wrapped x : strip_cdata (CDATA_OPEN ++ x ++ CDATA_CLOSE) = x.
Proof.
  unfold strip_cdata.
  rewrite startswith_app.
  assert (E : endswith CDATA_CLOSE (CDATA_OPEN ++ x ++ CDATA_CLOSE) = true).
  { apply endswith_iff. exists (CDATA_OPEN ++ x). rewrite <- app_assoc. reflexivity. }
  rewrite E. cbn [andb]. unfold slice.
  replace (length (CDATA_OPEN ++ x ++ CDATA_CLOSE) - 3) with (length (CDATA_OPEN ++ x)).
  - rewrite app_assoc, firstn_app, firstn_all, Nat.sub_diag. cbn [firstn].
    rewrite app_nil_r. reflexivity.
  - rewrite !length_app. cbn. lia.
Qed.

(** The two markers cannot overlap: a text with both has the form
    [<![CDATA[ x ]]>]. *)
Lemma cdata_wrapper_split h :
  (exists a, h = CDATA_OPEN ++ a) -> (exists b, h = b ++ CDATA_CLOSE) ->
  exists x, h = CDATA_OPEN ++ x ++ CDATA_CLOSE.
Proof.
  intros [a Ha] [b Hb].
  assert (R : rev a ++ rev CDATA_OPEN = rev CDATA_CLOSE ++ rev b).
  { rewrite <- !rev_app_distr. congruence. }
  clear Hb.
  destruct (rev a) as [|c1 [|c2 [|c3 r]]] eqn:Ea; cbn in R;
    try (inversion R; fail).
  inversion R; subst c1 c2 c3.
  exists (rev r). rewrite Ha. f_equal.
  rewrite <- (rev_involutive a), Ea. cbn. rewrite <- !app_assoc. reflexivity.
Qed.

(** C6.  On a text that starts with [<![CDATA[] and ends with []]>],
    [strip_cdata] returns what lies between the two markers; on any other
    text it returns its argument. *)
Theorem strip_cdata_spec (html : str) :
  ((exists a, html = CDATA_OPEN ++ a) /\ (exists b, html = b ++ CDATA_CLOSE) ->
   exists x, html = CDATA_OPEN ++ x ++ CDATA_CLOSE /\ strip_cdata html = x) /\
  (~ ((exists a, html = CDATA_OPEN ++ a) /\ (exists b, html = b ++ CDATA_CLOSE)) ->
   strip_cdata html = html).
Proof.
  split.
  - intros [Ha Hb]. destruct (cdata_wrapper_split html Ha Hb) as [x ->].
    exists x. split; [reflexivity | apply strip_cdata_wrapped].
  - intro N. unfold strip_cdata.
    destruct (startswith CDATA_OPEN html) eqn:S1; [|reflexivity].
    destruct (endswith CDATA_CLOSE html) eqn:S2; [|reflexivity].
    exfalso. apply N. split.
    + apply startswith_iff; assumption.
    + apply endswith_iff; assumption.
Qed.

Lemma strip_cdata_spec_witness :
  (exists x, txt "<![CDATA[X]]>" = CDATA_OPEN ++ x ++ CDATA_CLOSE /\
             strip_cdata (txt "<![CDATA[X]]>") = x) /\
  strip_cdata (txt "<iframe></iframe>") = txt "<iframe></iframe>".
Proof.
  split.
  - apply (proj1 (strip_cdata_spec (txt "<![CDATA[X]]>"))).
    split; [exists (txt "X]]>") | exists (txt "<![CDATA[X")]; reflexivity.
  - apply (proj2 (strip_cdata_spec (txt "<iframe></iframe>"))).
    intros [[a Ha] _]. cbv in Ha. discriminate.
Defined.

(** ** The cases of the test-suite

    The model run on the inputs of [zerver/tests/test_link_embed.py]. *)

Example test_scheme_to_regex_wildcard_subdomain :
  let regex := scheme_to_regex (txt "https://*.youtube.com/watch*") in
  matches_all regex false
    [txt "https://www.youtube.com/watch?v=dQw4w9WgXcQ";
     txt "https://m.youtube.com/watch?v=dQw4w9WgXcQ";
     txt "https://youtube.com/watch?v=dQw4w9WgXcQ";
     txt "http://youtube.com/watch?v=dQw4w9WgXcQ"] = true /\
  matches_none regex false [txt "https://youtube.com/v/dQw4w9WgXcQ"] = true /\
  re_match regex true (txt "HTTPS://M.YOUTUBE.COM/WATCH?v=dQw4w9WgXcQ") = true.
Proof. vm_compute. auto. Qed.

Example test_scheme_to_regex_literal_plus_in_query :
  let regex := scheme_to_regex (txt "https://example.com/watch?v=*&list=+") in
  regex = txt "(?:https://example\.com/watch\?v=.*&list=\+$|http://example\.com/watch\?v=.*&list=\+$)" /\
  matches_all regex false [txt "https://example.com/watch?v=abc&list=+"] = true /\
  matches_none regex false [txt "https://example.com/watch?v=abc&list=something"] = true.
Proof. vm_compute. auto. Qed.

Example test_scheme_to_regex_anchors_non_wildcard_path :
  let regex := scheme_to_regex (txt "https://example.com/watch") in
  matches_all regex false
    [txt "https://example.com/watch"; txt "http://example.com/watch"] = true /\
  matches_none regex false [txt "https://example.com/watch/extra"] = true.
Proof. vm_compute. auto. Qed.

Example test_compile_oembed_providers_missing_endpoint :
  exists compiled_regex,
    compile_oembed_providers
      [provider_entry (txt "TestProvider")
         [endpoint_entry [txt "https://*.example.com/watch*";
                          txt "https://example.com/watch?v=*&list=+"]
                         (txt "https://example.com/oembed")];
       [(txt "provider_name", JStr (txt "MissingEndpoints"))];
       provider_entry (txt "MissingSchemes")
         [JObj [(KEY_URL, JStr (txt "https://invalid.example.com/oembed"))]];
       provider_entry (txt "MissingEndpointUrl")
         [JObj [(KEY_SCHEMES, JArr [JStr (txt "https://missing-url.example.com/*")])]]]
    = Ret [(compiled_regex, txt "https://example.com/oembed")] /\
    pattern_match compiled_regex (txt "https://www.example.com/watch?v=123") = true /\
    pattern_match compiled_regex (txt "https://example.com/watch?v=123&list=+") = true /\
    pattern_match compiled_regex (txt "https://example.com/v/123") = false.
Proof. eexists. split; [vm_compute; reflexivity|]. vm_compute. auto. Qed.

Example test_compile_oembed_providers_format_and_http_normalization :
  get_oembed_endpoint fixture_map (txt "https://example.com/watch/123")
    = Some (txt "https://example.com/oembed.json") /\
  get_oembed_endpoint fixture_map (txt "http://example.com/watch/123")
    = Some (txt "https://example.com/oembed.json").
Proof. vm_compute. auto. Qed.

Example test_compile_oembed_providers_wildcard_matches_bare_domain :
  get_oembed_endpoint wildcard_map (txt "https://media.example.com/watch/123")
    = Some (txt "https://example.com/oembed") /\
  get_oembed_endpoint wildcard_map (txt "https://example.com/watch/123")
    = Some (txt "https://example.com/oembed").
Proof. vm_compute. auto. Qed.

Example test_get_oembed_endpoint_skips_malformed_provider :
  exists m,
    compile_oembed_providers
      [[(txt "provider_name", JStr (txt "MissingEndpoints"))];
       provider_entry (txt "MissingSchemes")
         [JObj [(KEY_URL, JStr (txt "https://invalid.example.com/oembed"))]];
       provider_entry (txt "EmptySchemes")
         [JObj [(KEY_SCHEMES, JArr []);
                (KEY_URL, JStr (txt "https://invalid.example.com/oembed"))]];
       provider_entry (txt "Valid")
         [endpoint_entry [txt "https://example.com/video/*"]
                         (txt "https://specific.example.com/oembed")]] = Ret m /\
    get_oembed_endpoint m video_url = Some (txt "https://specific.example.com/oembed").
Proof. eexists. split; vm_compute; reflexivity. Qed.

Example test_unsupported_resource_type :
  snd (get_oembed_data fixture_map
         (constant_session
            (mkResponse 200
               (Some (JObj [(KEY_TYPE, JStr (txt "rich")); (KEY_TITLE, JStr (txt "NASA"));
                            (KEY_HTML, JStr (txt "<p>test</p>"));
                            (txt "version", JStr (txt "1.0"));
                            (txt "width", JInt 658); (txt "height", JInt 400)]))))
         fixture_url None None None) = Ret None.
Proof. vm_compute. reflexivity. Qed.

Example test_supported_photo_and_video_resource_types :
  snd (get_oembed_data fixture_map
         (constant_session
            (photo_response [(KEY_URL, JStr (txt "https://live.staticflickr.com/a_b.jpg"));
                             (KEY_TITLE, JStr (txt "Flickr Test Image"))]))
         fixture_url None None None)
  = Ret (Some (mkUrlOEmbedData (JStr (txt "https://live.staticflickr.com/a_b.jpg")) PHOTO
                 None (JStr (txt "Flickr Test Image")) JNull)) /\
  snd (get_oembed_data fixture_map
         (constant_session
            (video_response
               [(KEY_THUMBNAIL_URL, JStr (txt "https://i.vimeocdn.com/video/590587169.jpg"));
                (KEY_TITLE, JStr (txt "Vimeo Test Video"));
                (KEY_HTML, JStr (txt "<![CDATA[<iframe src=x></iframe>]]>"))]))
         fixture_url None None None)
  = Ret (Some (mkUrlOEmbedData (JStr (txt "https://i.vimeocdn.com/video/590587169.jpg"))
                 VIDEO (Some (txt "<iframe src=x></iframe>"))
                 (JStr (txt "Vimeo Test Video")) JNull)).
Proof. vm_compute. auto. Qed.

Example test_request_error_responses :
  forallb (fun session =>
             match snd (get_oembed_data fixture_map session fixture_url None None None) with
             | Ret None => true
             | _ => false
             end)
          [(fun _ => Raise RequestException);
           constant_session (mkResponse 400 None);
           constant_session (mkResponse 500 None);
           constant_session (mkResponse 200 None)] = true.
Proof. vm_compute. reflexivity. Qed.

Example test_unknown_provider_returns_none :
  get_oembed_data fixture_map (constant_session (mkResponse 200 None))
    (txt "https://unknown-site.example.com/page") None None None = ([], Ret None).
Proof. vm_compute. reflexivity. Qed.


(** * Part III: further properties of the module *)

(** ** [get_oembed_endpoint] *)

(** X1.  [get_oembed_endpoint] returns the endpoint of the first entry
    of the map, in the map's order, whose pattern matches a prefix of
    the URL, whatever later entries match; it returns [None] exactly
    when no pattern of the map matches. *)
Theorem get_oembed_endpoint_first_match (m : endpoint_map_t) (url : str) :
  (forall endpoint,
     get_oembed_endpoint m url = Some endpoint <->
     exists before compiled_regex after,
       m = before ++ (compiled_regex, endpoint) :: after /\
       pattern_match compiled_regex url = true /\
       Forall (fun entry => pattern_match (fst entry) url = false) before) /\
  (get_oembed_endpoint m url = None <->
   Forall (fun entry => pattern_match (fst entry) url = false) m).
Proof.
  split.
  - intro endpoint. apply get_oembed_endpoint_first.
  - apply get_oembed_endpoint_none.
Qed.

(** ** [get_oembed_data]: requests and exceptions *)

(** X2.  [get_oembed_data] sends at most one GET; it sends none exactly
    when no provider matches the URL, and then it returns [None]. *)
Theorem get_oembed_data_at_most_one_request
    (m : endpoint_map_t) (PreviewSession : Session) (url : str)
    (maxwidth maxheight : option Z) (session : option Session) :
  let run := get_oembed_data m PreviewSession url maxwidth maxheight session in
  length (fst run) <= 1 /\
  (fst run = [] <-> get_oembed_endpoint m url = None) /\
  (get_oembed_endpoint m url = None -> snd run = Ret None).
Proof.
  cbv zeta. unfold get_oembed_data.
  destruct (get_oembed_endpoint m url) as [endpoint|].
  - match goal with |- context [match ?s ?q with Ret _ => _ | Raise _ => _ end] =>
      destruct (s q) as [r|e] end.
    + destruct (response_ok r); cbn [negb];
        [destruct (response_json r)|];
        cbn [fst snd length]; (split; [lia | split; [split; discriminate | discriminate]]).
    + cbn [fst snd length]. split; [lia | split; [split; discriminate | discriminate]].
  - cbn [fst snd length]. split; [lia | split; [split; reflexivity | reflexivity]].
Qed.

Lemma oembed_of_data_raises data e :
  oembed_of_data data = Raise e -> e = AttributeError.
Proof.
  destruct data as [| | | | | |d]; try (intro H; inversion H; reflexivity).
  rewrite oembed_of_data_obj. cbv zeta.
  destruct (eq_str _ PHOTO && truthy _); [discriminate|].
  destruct (eq_str _ VIDEO && truthy _ && truthy _); [|discriminate].
  destruct (dict_get_default str_eqb KEY_HTML (JStr []) d);
    intro H; inversion H; reflexivity.
Qed.

(** X3.  For an ASCII URL and sizes that [str] converts, an exception
    that [get_oembed_data] lets through is never one of the two classes
    its handler names; it is the exception the session raised for the
    request sent, or the one [response.json()] raised on a response of
    good status, or the [AttributeError] of an ill-typed response
    body. *)
Theorem get_oembed_data_raises
    (m : endpoint_map_t) (PreviewSession : Session) (url : str)
    (maxwidth maxheight : option Z) (session : option Session) (e : exn) :
  is_ascii url ->
  printable (match maxwidth with Some w => w | None => 640%Z end) ->
  printable (match maxheight with Some h => h | None => 480%Z end) ->
  let run := get_oembed_data m PreviewSession url maxwidth maxheight session in
  let used_session := match session with Some s => s | None => PreviewSession end in
  snd run = Raise e ->
  e <> RequestException /\ e <> JSONDecodeError /\
  (e = AttributeError \/
   exists q, fst run = [q] /\
     (used_session q = Raise e \/
      exists r, used_session q = Ret r /\ response_ok r = true /\
                response_json r = Raise e)).
Proof.
  intros _ _ _. cbv zeta. unfold get_oembed_data.
  destruct (get_oembed_endpoint m url) as [endpoint|]; [|discriminate].
  match goal with |- context [match ?s ?q with Ret _ => _ | Raise _ => _ end] =>
    destruct (s q) as [r|x] eqn:Es end.
  - destruct (response_ok r) eqn:Hok; cbn [negb]; [|discriminate].
    destruct (response_json r) as [data|x] eqn:Ej; cbn [fst snd].
    + intro H. apply oembed_of_data_raises in H. subst e.
      repeat split; try discriminate. left. reflexivity.
    + destruct (caught x) eqn:C; [discriminate|].
      intro H. inversion H; subst x.
      repeat split; try (intros ->; discriminate C).
      right. eexists. split; [reflexivity|]. right. exists r. repeat split; assumption.
  - cbn [fst snd]. destruct (caught x) eqn:C; [discriminate|].
    intro H. inversion H; subst x.
    repeat split; try (intros ->; discriminate C).
    right. eexists. split; [reflexivity|]. left. exact Es.
Qed.

Lemma get_oembed_data_raises_witness :
  let session := constant_session (mkResponseRaising 200 None RecursionError) in
  let run := get_oembed_data fixture_map broken_session fixture_url None None
               (Some session) in
  RecursionError <> RequestException /\ RecursionError <> JSONDecodeError /\
  (RecursionError = AttributeError \/
   exists q, fst run = [q] /\
     (session q = Raise RecursionError \/
      exists r, session q = Ret r /\ response_ok r = true /\
                response_json r = Raise RecursionError)).
Proof.
  apply (get_oembed_data_raises fixture_map broken_session fixture_url None None
           (Some (constant_session (mkResponseRaising 200 None RecursionError)))
           RecursionError).
  - vm_compute. reflexivity.
  - vm_compute. reflexivity.
  - vm_compute. reflexivity.
  - reflexivity.
Defined.

(** ** [compile_oembed_providers]: when it raises *)

Lemma for_each_raise {A S : Type} (body : A -> S -> outcome S) l :
  forall st x, for_each body l st = Raise x ->
  exists a st', In a l /\ body a st' = Raise x.
Proof.
  induction l as [|a l IH]; intros st x H; cbn [for_each bind] in H; [discriminate|].
  destruct (body a st) as [st1|y] eqn:E; cbn [bind] in H.
  - destruct (IH st1 x H) as [b [st' [Hin Hb]]]. exists b, st'. split; [right|]; assumption.
  - inversion H; subst y. exists a, st. split; [left; reflexivity | exact E].
Qed.

Lemma map_each_raise items x :
  map_each scheme_to_regex_any items = Raise x -> x = TypeError \/ x = AttributeError.
Proof.
  induction items as [|j items IH]; cbn [map_each bind]; [discriminate|].
  destruct j; cbn [scheme_to_regex_any bind];
    try (intro H; inversion H; auto; fail).
  destruct (map_each scheme_to_regex_any items); cbn [bind]; [discriminate|].
  intro H. inversion H; subst. apply IH. reflexivity.
Qed.

Lemma register_endpoint_raise endpoint m x :
  register_endpoint endpoint m = Raise x -> x = TypeError \/ x = AttributeError.
Proof.
  unfold register_endpoint.
  destruct endpoint as [| | | | | |e]; cbn [py_get bind];
    try (intro H; inversion H; auto; fail).
  destruct (negb (truthy (dict_get_default str_eqb KEY_SCHEMES (JArr []) e))
            || negb (truthy (dict_get_default str_eqb KEY_URL JNull e)));
    [discriminate|].
  destruct (dict_get_default str_eqb KEY_URL JNull e); cbn [bind];
    try (intro H; inversion H; auto; fail).
  destruct (py_iter (dict_get_default str_eqb KEY_SCHEMES (JArr []) e)) as [items|y] eqn:Ei;
    cbn [bind].
  - destruct (map_each scheme_to_regex_any items) as [regexes|y] eqn:Em; cbn [bind].
    + destruct (map_each_strings items regexes Em) as [ss [-> ->]].
      rewrite re_compile_schemes. discriminate.
    + intro H. inversion H; subst. apply (map_each_raise items). exact Em.
  - intro H. inversion H; subst.
    destruct (dict_get_default str_eqb KEY_SCHEMES (JArr []) e);
      cbn [py_iter] in Ei; inversion Ei; auto.
Qed.

Lemma register_provider_raise provider m x :
  register_provider provider m = Raise x -> x = TypeError \/ x = AttributeError.
Proof.
  unfold register_provider.
  destruct (py_iter (dict_get_default str_eqb KEY_ENDPOINTS (JArr []) provider))
    as [endpoints|y] eqn:Ei; cbn [bind].
  - intro H. destruct (for_each_raise register_endpoint endpoints m x H) as [a [st [_ Ha]]].
    apply (register_endpoint_raise a st). exact Ha.
  - intro H. inversion H; subst.
    destruct (dict_get_default str_eqb KEY_ENDPOINTS (JArr []) provider);
      cbn [py_iter] in Ei; inversion Ei; auto.
Qed.

(** X4.  Whatever the catalogue holds, [re.compile] never rejects the
    expression [compile_oembed_providers] builds: the only exceptions
    the function raises are the [TypeError] and [AttributeError] of an
    ill-typed catalogue. *)
Theorem compile_oembed_providers_raises
    (providers : list (list (str * json))) (x : exn) :
  compile_oembed_providers providers = Raise x ->
  x = TypeError \/ x = AttributeError.
Proof.
  unfold compile_oembed_providers. intro H.
  destruct (for_each_raise register_provider providers [] x H) as [p [st [_ Hp]]].
  apply (register_provider_raise p st). exact Hp.
Qed.

Lemma compile_oembed_providers_raises_witness :
  TypeError = TypeError \/ TypeError = AttributeError.
Proof.
  apply (compile_oembed_providers_raises [[(KEY_ENDPOINTS, JNull)]] TypeError).
  reflexivity.
Defined.

(** ** [compile_oembed_providers]: when it returns *)

Lemma register_well_typed_endpoint endpoint m :
  well_typed_endpoint endpoint -> exists m', register_endpoint endpoint m = Ret m'.
Proof.
  intros [e [-> [Hs Hu]]]. unfold register_endpoint. cbn [py_get bind].
  unfold dict_get_default.
  destruct Hs as [Hs|[ss Hs]]; rewrite Hs; [cbn [truthy negb orb]; eauto|].
  destruct Hu as [Hu|[u Hu]]; rewrite Hu.
  - cbn [truthy negb]. rewrite orb_true_r. eauto.
  - destruct (negb (truthy (JArr (map JStr ss))) || negb (truthy (JStr u))); [eauto|].
    cbn [bind py_iter].
    assert (E : map_each scheme_to_regex_any (map JStr ss) = Ret (map scheme_to_regex ss)).
    { clear. induction ss as [|s ss IH]; [reflexivity|].
      cbn [map map_each scheme_to_regex_any bind]. rewrite IH. reflexivity. }
    rewrite E. cbn [bind]. rewrite re_compile_schemes. eauto.
Qed.

Lemma for_each_returns {A S : Type} (body : A -> S -> outcome S) l :
  (forall a, In a l -> forall st, exists st', body a st = Ret st') ->
  forall st, exists st', for_each body l st = Ret st'.
Proof.
  induction l as [|a l IH]; intros Hb st; cbn [for_each bind]; [eauto|].
  destruct (Hb a (or_introl eq_refl) st) as [st1 ->]. cbn [bind].
  apply IH. intros b Hin. apply Hb. right. exact Hin.
Qed.

(** X5.  On a catalogue of the documented shape, partial entries
    included, [compile_oembed_providers] raises nothing and returns a
    map. *)
Theorem compile_well_typed_returns (providers : list (list (str * json))) :
  Forall well_typed_provider providers ->
  exists m, compile_oembed_providers providers = Ret m.
Proof.
  intro H. unfold compile_oembed_providers. apply for_each_returns.
  intros p Hp st. rewrite Forall_forall in H. specialize (H p Hp).
  unfold register_provider, dict_get_default.
  destruct H as [H|[es [H Hes]]]; rewrite H; cbn [py_iter bind].
  - exists st. reflexivity.
  - apply for_each_returns. intros a Ha st'. rewrite Forall_forall in Hes.
    apply register_well_typed_endpoint. apply Hes. exact Ha.
Qed.

Lemma compile_well_typed_returns_witness :
  exists m,
    compile_oembed_providers
      [provider_entry (txt "Valid")
         [endpoint_entry [txt "https://example.com/video/*"]
                         (txt "https://specific.example.com/oembed");
          JObj [(KEY_URL, JStr (txt "https://invalid.example.com/oembed"))]];
       [(txt "provider_name", JStr (txt "MissingEndpoints"))]] = Ret m.
Proof.
  apply compile_well_typed_returns.
  apply Forall_cons; [|apply Forall_cons; [|apply Forall_nil]].
  - right. eexists. split; [reflexivity|].
    apply Forall_cons; [|apply Forall_cons; [|apply Forall_nil]].
    + eexists. split; [reflexivity|]. split.
      * right. exists [txt "https://example.com/video/*"]. reflexivity.
      * right. eexists. reflexivity.
    + eexists. split; [reflexivity|]. split.
      * left. reflexivity.
      * right. eexists. reflexivity.
  - left. reflexivity.
Defined.

(** X6.  A provider without the key [endpoints] is passed over, but one
    whose [endpoints] is there with a value that cannot be iterated
    ([null], a boolean, a number) makes the whole compilation raise
    [TypeError], once the providers before it have been registered: the
    default [[]] only stands in for a missing key. *)
Theorem compile_endpoints_missing_or_null
    (before after : list (list (str * json))) (provider : list (str * json)) :
  (dict_get str_eqb KEY_ENDPOINTS provider = None ->
   compile_oembed_providers (before ++ provider :: after)
   = compile_oembed_providers (before ++ after)) /\
  (forall v m0,
     dict_get str_eqb KEY_ENDPOINTS provider = Some v -> not_iterable v ->
     compile_oembed_providers before = Ret m0 ->
     compile_oembed_providers (before ++ provider :: after) = Raise TypeError).
Proof.
  unfold compile_oembed_providers. split.
  - intro H. apply for_each_skip. intro st.
    unfold register_provider, dict_get_default. rewrite H. reflexivity.
  - intros v m0 H Hv Hb. rewrite for_each_app, Hb. cbn [bind for_each].
    unfold register_provider, dict_get_default. rewrite H.
    destruct v; try contradiction; reflexivity.
Qed.

Lemma compile_endpoints_missing_or_null_witness :
  compile_oembed_providers (fixture_providers ++ [(KEY_ENDPOINTS, JNull)] :: [])
  = Raise TypeError.
Proof.
  apply (proj2 (compile_endpoints_missing_or_null fixture_providers []
                  [(KEY_ENDPOINTS, JNull)]) JNull fixture_map).
  - reflexivity.
  - exact I.
  - exact fixture_map_compiled.
Defined.

(** ** [compile_oembed_providers]: what the map keeps *)

Section DictSetMore.

Variables (K V : Type) (keq : K -> K -> bool).

Hypothesis keq_refl : forall k, keq k k = true.
Hypothesis keq_sym : forall a b, keq a b = keq b a.
Hypothesis keq_trans : forall a b c, keq a b = true -> keq b c = true -> keq a c = true.

(** [d[k] = v] either finds a key equal to [k] and keeps the keys as
    they are, or finds none and puts the new item last. *)
Lemma dict_set_keys_cases k v (d : dict K V) :
  ((exists k', In k' (dict_keys d) /\ keq k' k = true) /\
   dict_keys (dict_set keq k v d) = dict_keys d) \/
  ((forall k', In k' (dict_keys d) -> keq k' k = false) /\
   dict_set keq k v d = d ++ [(k, v)]).
Proof.
  induction d as [|[k1 v1] d IH]; cbn [dict_set dict_keys map fst app].
  - right. split; [intros k' [] | reflexivity].
  - destruct (keq k1 k) eqn:E.
    + left. split; [exists k1; split; [left; reflexivity | exact E] | reflexivity].
    + destruct IH as [[[k' [Hin Hk]] Hkeys]|[Hnone Happ]].
      * left. split; [exists k'; split; [right; exact Hin | exact Hk]|].
        cbn [map fst]. unfold dict_keys in Hkeys. rewrite Hkeys. reflexivity.
      * right. split.
        -- intros k' [<-|Hin]; [exact E | apply Hnone; exact Hin].
        -- rewrite Happ. reflexivity.
Qed.

Lemma dict_get_set_same k v (d : dict K V) :
  dict_get keq k (dict_set keq k v d) = Some v.
Proof.
  induction d as [|[k1 v1] d IH]; cbn [dict_set dict_get].
  - rewrite keq_refl. reflexivity.
  - destruct (keq k1 k) eqn:E; cbn [dict_get]; rewrite E; [reflexivity | exact IH].
Qed.

Lemma dict_get_set_other k v (d : dict K V) k0 :
  keq k0 k = false -> dict_get keq k0 (dict_set keq k v d) = dict_get keq k0 d.
Proof.
  intro H. induction d as [|[k1 v1] d IH]; cbn [dict_set dict_get].
  - rewrite keq_sym, H. reflexivity.
  - destruct (keq k1 k) eqn:E; cbn [dict_get]; [|rewrite IH; reflexivity].
    destruct (keq k1 k0) eqn:E0; [|reflexivity].
    rewrite keq_sym in E0. rewrite (keq_trans _ _ _ E0 E) in H. discriminate.
Qed.

Lemma dict_get_none k (d : dict K V) :
  dict_get keq k d = None <-> forall k', In k' (dict_keys d) -> keq k' k = false.
Proof.
  induction d as [|[k1 v1] d IH]; cbn [dict_get dict_keys map fst In].
  - split; [intros _ k' [] | reflexivity].
  - destruct (keq k1 k) eqn:E.
    + split; [discriminate|]. intro H. rewrite (H k1 (or_introl eq_refl)) in E.
      discriminate.
    + rewrite IH. split.
      * intros H k' [<-|Hin]; [exact E | apply H; exact Hin].
      * intros H k' Hin. apply H. right. exact Hin.
Qed.

End DictSetMore.

Lemma pattern_eqb_refl p : pattern_eqb p p = true.
Proof. unfold pattern_eqb. rewrite str_eqb_refl, Bool.eqb_reflx. reflexivity. Qed.

Lemma pattern_eqb_sym p q : pattern_eqb p q = pattern_eqb q p.
Proof.
  unfold pattern_eqb. rewrite (str_eqb_sym (pattern p)).
  destruct (ignorecase p), (ignorecase q); reflexivity.
Qed.

Lemma pattern_eqb_trans p q r :
  pattern_eqb p q = true -> pattern_eqb q r = true -> pattern_eqb p r = true.
Proof.
  intros H1 H2. apply pattern_eqb_true in H1, H2.
  destruct H1 as [A B], H2 as [C D]. unfold pattern_eqb.
  rewrite A, C, B, D, str_eqb_refl, Bool.eqb_reflx. reflexivity.
Qed.

Lemma truthy_iter_nonempty v items :
  truthy v = true -> py_iter v = Ret items -> items <> [].
Proof.
  destruct v as [| | | |s|l|l]; cbn [truthy py_iter]; intros T H;
    try discriminate.
  - destruct s; [discriminate|]. inversion H. cbn [map]. discriminate.
  - destruct l; [discriminate|]. inversion H. discriminate.
  - destruct l; [discriminate|]. inversion H. cbn [map]. discriminate.
Qed.

Lemma compiled_schemes_same a b :
  pattern (compiled_schemes a) = pattern (compiled_schemes b) ->
  compiled_schemes a = compiled_schemes b.
Proof.
  intro E.
  change (endpoint_regex (map scheme_to_regex a) = endpoint_regex (map scheme_to_regex b)) in E.
  pose proof (re_compile_schemes a true) as Ha. rewrite E, re_compile_schemes in Ha.
  apply (f_equal (fun o => match o with Some p => p | None => compiled_schemes a end)) in Ha.
  cbn beta iota in Ha. unfold compiled_schemes. rewrite E. symmetry. exact Ha.
Qed.

Section DictSetItems.

Variables (K V : Type) (keq : K -> K -> bool).

(** The items after [d[k] = v]: the old ones, and [v] under [k] or
    under the key that was found equal to [k]. *)
Lemma dict_set_items_cases k v (d : dict K V) k0 v0 :
  In (k0, v0) (dict_set keq k v d) ->
  In (k0, v0) d \/
  (v0 = v /\ (k0 = k \/ (In k0 (dict_keys d) /\ keq k0 k = true))).
Proof.
  induction d as [|[k1 v1] d IH]; cbn [dict_set In dict_keys map fst].
  - intros [E|[]]. inversion E. right. auto.
  - destruct (keq k1 k) eqn:Ek; cbn [In].
    + intros [E|H]; [|left; right; exact H]. inversion E; subst.
      right. split; [reflexivity|]. right. split; [left; reflexivity | exact Ek].
    + intros [E|H]; [left; left; exact E|].
      destruct (IH H) as [H1|[H1 [H2|[H2 H3]]]]; [tauto | right; auto |].
      right. split; [exact H1|]. right. split; [right; exact H2 | exact H3].
Qed.

End DictSetItems.

(** What one registration does to the map. *)
Lemma register_endpoint_items providers provider endpoints endpoint m m' :
  In provider providers ->
  py_iter (dict_get_default str_eqb KEY_ENDPOINTS (JArr []) provider) = Ret endpoints ->
  In endpoint endpoints ->
  (forall k v, In (k, v) m -> registered_by providers k v) /\
  NoDup (map pattern (dict_keys m)) ->
  register_endpoint endpoint m = Ret m' ->
  (forall k v, In (k, v) m' -> registered_by providers k v) /\
  NoDup (map pattern (dict_keys m')).
Proof.
  intros Hp Hi He [Hk Hn] H.
  destruct (register_endpoint_result endpoint m m' H) as [e [-> Hcase]].
  cbv zeta in Hcase.
  destruct Hcase as [[_ ->]|(Ts & Tu & u & ss & Hu & Hiter & ->)]; [split; assumption|].
  fold (compiled_schemes ss).
  assert (Hss : ss <> []).
  { pose proof (truthy_iter_nonempty _ _ Ts Hiter) as N. intros ->. apply N. reflexivity. }
  assert (Hnew : registered_by providers (compiled_schemes ss)
                   (str_replace FORMAT_PLACEHOLDER FORMAT_JSON None u)).
  { exists ss, u. split; [|split; [exact Hss|split; [|split; reflexivity]]].
    - exists provider, endpoints, e. repeat split; try assumption.
      unfold dict_get_default in Hu.
      destruct (dict_get str_eqb KEY_URL e) as [w|]; [congruence | discriminate].
    - rewrite Hu in Tu. cbn [truthy] in Tu. intros ->. discriminate Tu. }
  split.
  - intros k v Hin. apply dict_set_items_cases in Hin.
    destruct Hin as [Hin|[-> [->|[Hin Heq]]]]; [apply Hk; exact Hin | exact Hnew |].
    destruct (in_keys_item m k Hin) as [v0 Hv0].
    destruct (Hk k v0 Hv0) as (ss0 & t0 & _ & _ & _ & -> & _).
    apply pattern_eqb_true in Heq. destruct Heq as [Heq _].
    rewrite (compiled_schemes_same ss0 ss Heq). exact Hnew.
  - destruct (dict_set_keys_cases Pattern str pattern_eqb (compiled_schemes ss)
                (str_replace FORMAT_PLACEHOLDER FORMAT_JSON None u) m)
      as [[_ ->]|[Hnone ->]]; [exact Hn|].
    unfold dict_keys in *. rewrite !map_app. cbn [map fst].
    rewrite <- (rev_involutive (map pattern (map fst m) ++ [pattern (compiled_schemes ss)])).
    apply NoDup_rev. rewrite rev_app_distr. cbn [rev app].
    constructor; [|apply NoDup_rev; exact Hn].
    rewrite <- in_rev, in_map_iff. intros [k [Et Hin]].
    pose proof (Hnone k Hin) as F.
    destruct (in_keys_item m k Hin) as [v0 Hv0].
    destruct (Hk k v0 Hv0) as (ss0 & t0 & _ & _ & _ & -> & _).
    unfold pattern_eqb in F. rewrite Et, str_eqb_refl in F. discriminate F.
Qed.

Lemma compile_items providers m :
  compile_oembed_providers providers = Ret m ->
  (forall k v, In (k, v) m -> registered_by providers k v) /\
  NoDup (map pattern (dict_keys m)).
Proof.
  intro H. unfold compile_oembed_providers in H.
  apply (for_each_invariant register_provider
           (fun m => (forall k v, In (k, v) m -> registered_by providers k v) /\
                     NoDup (map pattern (dict_keys m))) providers)
    with (st := []); [| split; [intros k v [] | constructor] | exact H].
  intros provider st st' Hp Hst Hreg. unfold register_provider in Hreg.
  destruct (py_iter (dict_get_default str_eqb KEY_ENDPOINTS (JArr []) provider))
    as [endpoints|x] eqn:Ei; cbn [bind] in Hreg; [|discriminate].
  apply (for_each_invariant register_endpoint
           (fun m => (forall k v, In (k, v) m -> registered_by providers k v) /\
                     NoDup (map pattern (dict_keys m))) endpoints)
    with (st := st); [| exact Hst | exact Hreg].
  intros endpoint s1 s2 He Hs1 Hs2.
  apply (register_endpoint_items providers provider endpoints endpoint s1 s2); assumption.
Qed.

(** X7.  In a compiled map no two keys have the same expression text,
    and every item is what one endpoint entry of the catalogue registers:
    the key is the case-insensitive pattern object of the entry's
    patterns, of which there is at least one, and the value is the
    entry's non-empty URL template with the placeholder filled in. *)
Theorem compile_items_distinct_and_registered
    (providers : list (list (str * json))) (m : endpoint_map_t) :
  compile_oembed_providers providers = Ret m ->
  NoDup (map pattern (dict_keys m)) /\
  (forall k v, In (k, v) m ->
     ignorecase k = true /\
     re_compile (pattern k) true = Some k /\
     registered_by providers k v).
Proof.
  intro H. destruct (compile_items providers m H) as [Hk Hn].
  split; [exact Hn|]. intros k v Hin.
  pose proof (Hk k v Hin) as Hr.
  destruct Hr as (ss & t & He & Hss & Ht & Ek & Ev).
  split; [rewrite Ek; reflexivity|].
  split; [rewrite Ek; apply re_compile_schemes|].
  exists ss, t. repeat split; assumption.
Qed.

Lemma compile_items_distinct_and_registered_witness :
  NoDup (map pattern (dict_keys generic_specific_map)) /\
  (forall k v, In (k, v) generic_specific_map ->
     ignorecase k = true /\
     re_compile (pattern k) true = Some k /\
     registered_by generic_specific_providers k v).
Proof.
  apply (compile_items_distinct_and_registered generic_specific_providers generic_specific_map).
  vm_compute. reflexivity.
Defined.

(** ** The URLs a pattern stands for *)

Lemma atoms_instance v : forall u s',
  matches true (seq_of (map pattern_atom v)) u s' ->
  exists u0, u = u0 ++ s' /\ instance_of v u0.
Proof.
  induction v as [|c v IH]; intros u s' H; cbn [map seq_of fold_right] in H.
  - inversion H; subst. exists []. split; [reflexivity | constructor].
  - inversion H as [ | | | | | | r1 r2 s0 s1 s2 Hx Hrest | | ]; subst.
    destruct (IH s1 s' Hrest) as [u1 [-> Hu1]].
    unfold pattern_atom in Hx. destruct (ascii_eqb c "*") eqn:E.
    + apply ascii_eqb_eq in E. subst c.
      apply matches_dot_star_inv in Hx. destruct Hx as [w [-> Hw]].
      exists (w ++ u1). split; [rewrite app_assoc; reflexivity|].
      apply inst_star; assumption.
    + apply ascii_eqb_neq in E. inversion Hx as [ |c0 d s2 Hc| | | | | | | ]; subst.
      exists (d :: u1). split; [reflexivity|].
      apply inst_chr; [exact E | | exact Hu1].
      unfold chr_match in Hc. apply ascii_eqb_eq in Hc. exact Hc.
Qed.

Lemma variant_match_covers scheme v u s' :
  In v (scheme_variants scheme) -> matches true (variant_regex v) u s' -> covers scheme u.
Proof.
  intros Hv H. unfold variant_regex, variant_atoms in H.
  apply matches_seq_app_inv in H. destruct H as [t [H1 H2]].
  apply atoms_instance in H1. destruct H1 as [u0 [-> Hu0]].
  exists v, u0, t. split; [exact Hv|]. split; [reflexivity|]. split; [exact Hu0|].
  rewrite (variants_same_tail scheme v Hv) in H2.
  destruct (endswith STAR scheme); [left; reflexivity|]. right.
  cbn [seq_of fold_right] in H2.
  inversion H2 as [ | | | | | | r1 r2 s0 s1 s2 He Hn | | ]; subst.
  inversion He; subst. apply at_eol_cases. assumption.
Qed.

Lemma covers_variant_match scheme u :
  covers scheme u ->
  exists v s', In v (scheme_variants scheme) /\ matches true (variant_regex v) u s'.
Proof.
  intros (v & u0 & tail & Hv & -> & Hi & Ht).
  exists v, tail. split; [exact Hv|].
  unfold variant_regex, variant_atoms. rewrite (variants_same_tail scheme v Hv).
  apply matches_seq_app with (s' := tail).
  - apply instance_atoms; [exact Hi | reflexivity].
  - destruct (endswith STAR scheme); cbn [seq_of fold_right]; [constructor|].
    apply M_Cat with (s' := tail); [|constructor]. constructor.
    destruct Ht as [F| [-> | ->]]; [discriminate F | reflexivity | reflexivity].
Qed.

(** X8.  On ASCII text, under [re.IGNORECASE], the expression
    [scheme_to_regex] builds for a pattern accepts, with [match],
    exactly the URLs the pattern stands for: a
    text that follows one of the variants character by character, letter
    case aside, with a run of characters on one line for each star; after
    it anything at all when the pattern ends in a star, and nothing or a
    single line feed when it does not. *)
Theorem scheme_to_regex_accepts_what_it_covers (scheme url : str) :
  is_ascii scheme -> is_ascii url ->
  (re_match (scheme_to_regex scheme) true url = true <-> covers scheme url).
Proof.
  intros _ _. split.
  - intro H. destruct (scheme_match_inv scheme true url H) as [v [s' [Hv Hm]]].
    apply (variant_match_covers scheme v url s' Hv Hm).
  - intro H. destruct (covers_variant_match scheme url H) as [v [s' [Hv Hm]]].
    apply (scheme_match_intro scheme true v url s' Hv Hm).
Qed.

Lemma scheme_to_regex_accepts_what_it_covers_witness :
  re_match (scheme_to_regex anchored_scheme) true (txt "HTTP://Example.com/WATCH") = true
  <-> covers anchored_scheme (txt "HTTP://Example.com/WATCH").
Proof.
  apply (scheme_to_regex_accepts_what_it_covers anchored_scheme
           (txt "HTTP://Example.com/WATCH")).
  - vm_compute. reflexivity.
  - vm_compute. reflexivity.
Defined.

(** ** [get_oembed_endpoint] on a compiled map *)

Lemma matches_schemes_regex_inv schemes u s' :
  schemes <> [] -> matches true (schemes_regex schemes) u s' ->
  exists scheme, In scheme schemes /\ covers scheme u.
Proof.
  intros Hne H. unfold schemes_regex in H.
  inversion H as [ | | | | | | r1 r2 s0 s1 s2 Ha _ | | ]; subst.
  apply matches_alt_of_inv in Ha; [|destruct schemes; [congruence | discriminate]].
  destruct Ha as [r [Hin Hr]]. apply in_map_iff in Hin. destruct Hin as [scheme [<- Hs]].
  exists scheme. split; [exact Hs|].
  inversion Hr as [ | | | | | | r1 r2 s0 s3 s2 Hb _ | | ]; subst.
  unfold scheme_regex in Hb. apply matches_alt_of_inv in Hb.
  - destruct Hb as [r [Hin Hv]]. apply in_map_iff in Hin. destruct Hin as [v [<- Hv']].
    apply (variant_match_covers scheme v u s3 Hv' Hv).
  - pose proof (scheme_is_variant scheme) as Hsv.
    destruct (scheme_variants scheme); [destruct Hsv | discriminate].
Qed.

(** X9.  When the patterns of the catalogue and the URL are ASCII
    text, an endpoint URL that [get_oembed_endpoint] returns on the
    compiled map comes from one endpoint entry of the catalogue: the URL is
    covered by one of the entry's patterns, and the result is the entry's
    non-empty template with the placeholder filled in. *)
Theorem get_oembed_endpoint_sound
    (providers : list (list (str * json))) (m : endpoint_map_t) (url endpoint : str) :
  (forall schemes template scheme,
     entry_of providers schemes template -> In scheme schemes -> is_ascii scheme) ->
  is_ascii url ->
  compile_oembed_providers providers = Ret m ->
  get_oembed_endpoint m url = Some endpoint ->
  exists schemes template scheme,
    entry_of providers schemes template /\
    In scheme schemes /\ covers scheme url /\
    template <> [] /\
    endpoint = str_replace FORMAT_PLACEHOLDER FORMAT_JSON None template.
Proof.
  intros _ _ Hc Hg.
  apply get_oembed_endpoint_first in Hg.
  destruct Hg as (before & k & after & -> & Hm & _).
  destruct (compile_items providers _ Hc) as [Hitems _].
  destruct (Hitems k endpoint) as (ss & t & He & Hss & Ht & -> & ->).
  { apply in_or_app. right. left. reflexivity. }
  apply pattern_match_iff in Hm. destruct Hm as [s' Hm].
  cbn [ignorecase prog compiled_schemes] in Hm.
  destruct (matches_schemes_regex_inv ss url s' Hss Hm) as [scheme [Hin Hcov]].
  exists ss, t, scheme. repeat split; assumption.
Qed.

Lemma fixture_patterns_ascii schemes template scheme :
  entry_of fixture_providers schemes template -> In scheme schemes -> is_ascii scheme.
Proof.
  intros (provider & endpoints & e & Hp & Hi & He & Hs & _) Hin.
  destruct Hp as [<-|[]]. cbn in Hi. inversion Hi; subst endpoints. clear Hi.
  destruct He as [He|[]]. inversion He; subst e. clear He.
  cbn in Hs. inversion Hs as [Hs']. clear Hs.
  destruct schemes as [|s0 [|s1 ss]]; try discriminate Hs'.
  inversion Hs'; subst s0. destruct Hin as [<-|[]]. reflexivity.
Qed.

Lemma get_oembed_endpoint_sound_witness :
  exists schemes template scheme,
    entry_of fixture_providers schemes template /\
    In scheme schemes /\ covers scheme fixture_url /\
    template <> [] /\
    fixture_endpoint = str_replace FORMAT_PLACEHOLDER FORMAT_JSON None template.
Proof.
  apply (get_oembed_endpoint_sound fixture_providers fixture_map fixture_url fixture_endpoint).
  - exact fixture_patterns_ascii.
  - vm_compute. reflexivity.
  - vm_compute. reflexivity.
  - vm_compute. reflexivity.
Defined.

(** X10.  Every pattern the catalogue declares is honoured: on the
    compiled map [get_oembed_endpoint] finds an endpoint for every URL
    the pattern covers. *)
Theorem declared_pattern_is_found
    (providers : list (list (str * json))) (m : endpoint_map_t) (scheme url : str) :
  compile_oembed_providers providers = Ret m ->
  declares providers scheme ->
  covers scheme url ->
  get_oembed_endpoint m url <> None.
Proof.
  intros Hc Hd Hcov.
  destruct (declared_scheme_registered providers m scheme Hc Hd) as (ss & ep & Hin & Hitem).
  apply (get_oembed_endpoint_found m url _ ep Hitem).
  apply pattern_match_iff. cbn [ignorecase prog].
  destruct (covers_variant_match scheme url Hcov) as [v [s' [Hv Hm]]].
  exists s'. apply (matches_schemes_regex ss scheme url s' Hin).
  apply (matches_scheme_regex scheme v url s' Hv Hm).
Qed.

Lemma declared_pattern_is_found_witness :
  get_oembed_endpoint wildcard_map (txt "http://EXAMPLE.com/watch/123?t=4") <> None.
Proof.
  apply (declared_pattern_is_found wildcard_providers wildcard_map
           (txt "https://*.example.com/watch/*") (txt "http://EXAMPLE.com/watch/123?t=4")).
  - vm_compute. reflexivity.
  - exists (provider_entry (txt "WildcardSubdomain")
              [endpoint_entry [txt "https://*.example.com/watch/*"]
                              (txt "https://example.com/oembed")]),
      [endpoint_entry [txt "https://*.example.com/watch/*"] (txt "https://example.com/oembed")],
      [(KEY_SCHEMES, JArr (map JStr [txt "https://*.example.com/watch/*"]));
       (KEY_URL, JStr (txt "https://example.com/oembed"))],
      (map JStr [txt "https://*.example.com/watch/*"]),
      (JStr (txt "https://example.com/oembed")).
    split; [left; reflexivity|]. split; [reflexivity|]. split; [left; reflexivity|].
    split; [reflexivity|]. split; [left; reflexivity|]. split; reflexivity.
  - exists (txt "http://example.com/watch/*"), (txt "http://EXAMPLE.com/watch/"),
      (txt "123?t=4").
    split; [vm_compute; tauto|]. split; [reflexivity|]. split; [|left; reflexivity].
    repeat (apply inst_chr; [discriminate | reflexivity | ]).
    refine (@inst_star [] [] [] _ inst_nil). intros [].
Defined.

(** ** Letter case *)

Lemma same_fold_cons_inv d s u' :
  same_fold (d :: s) u' ->
  exists d' s', u' = d' :: s' /\ lower d = lower d' /\ same_fold s s'.
Proof.
  unfold same_fold. destruct u' as [|d' s']; cbn [map]; intro H; [discriminate|].
  inversion H. exists d', s'. repeat split; assumption.
Qed.

Lemma matches_fold r u s :
  matches true r u s ->
  forall u', same_fold u u' -> exists s', matches true r u' s' /\ same_fold s s'.
Proof.
  induction 1 as [s|c d s Hc|d s Hd|s He|r s|r s s1 s2 H1 IH1 H2 IH2
                  |r1 r2 s s1 s2 H1 IH1 H2 IH2|r1 r2 s s1 H1 IH1|r1 r2 s s1 H1 IH1];
    intros u' Hu.
  - exists u'. split; [constructor | exact Hu].
  - apply same_fold_cons_inv in Hu. destruct Hu as (d' & s' & -> & Hd & Hs).
    exists s'. split; [|exact Hs]. constructor.
    unfold chr_match in *. rewrite <- Hd. exact Hc.
  - apply same_fold_cons_inv in Hu. destruct Hu as (d' & s' & -> & Hd' & Hs).
    exists s'. split; [|exact Hs]. constructor.
    intros ->. apply Hd. apply lower_lf. rewrite Hd'. reflexivity.
  - exists u'. split; [|exact Hu]. constructor.
    apply at_eol_cases in He. destruct He as [-> | ->].
    + destruct u'; [reflexivity | discriminate Hu].
    + apply same_fold_cons_inv in Hu. destruct Hu as (d' & s' & -> & Hd & Hs).
      destruct s'; [|discriminate Hs].
      symmetry in Hd. apply lower_lf in Hd. subst d'. reflexivity.
  - exists u'. split; [constructor | exact Hu].
  - destruct (IH1 u' Hu) as [t1 [M1 F1]]. destruct (IH2 t1 F1) as [t2 [M2 F2]].
    exists t2. split; [|exact F2]. apply M_StarS with (s' := t1); assumption.
  - destruct (IH1 u' Hu) as [t1 [M1 F1]]. destruct (IH2 t1 F1) as [t2 [M2 F2]].
    exists t2. split; [|exact F2]. apply M_Cat with (s' := t1); assumption.
  - destruct (IH1 u' Hu) as [t1 [M1 F1]]. exists t1. split; [|exact F1].
    apply M_AltL. exact M1.
  - destruct (IH1 u' Hu) as [t1 [M1 F1]]. exists t1. split; [|exact F1].
    apply M_AltR. exact M1.
Qed.

Lemma pattern_match_fold p u u' :
  ignorecase p = true -> same_fold u u' -> pattern_match p u = pattern_match p u'.
Proof.
  intros Hp Hu.
  assert (D : forall a b, same_fold a b -> pattern_match p a = true -> pattern_match p b = true).
  { intros a b Hab H. apply pattern_match_iff in H. destruct H as [s H].
    rewrite Hp in H. destruct (matches_fold _ _ _ H b Hab) as [s' [H' _]].
    apply pattern_match_iff. rewrite Hp. exists s'. exact H'. }
  destruct (pattern_match p u) eqn:E1, (pattern_match p u') eqn:E2; try reflexivity.
  - rewrite (D u u' Hu E1) in E2. discriminate.
  - assert (Hu' : same_fold u' u) by (unfold same_fold in *; congruence).
    rewrite (D u' u Hu' E2) in E1. discriminate.
Qed.

(** X11.  Lookup on a compiled map does not depend on the letter case
    of the URL: two URLs that differ in case only get the same answer. *)
Theorem get_oembed_endpoint_ignores_case
    (providers : list (list (str * json))) (m : endpoint_map_t) (url url' : str) :
  compile_oembed_providers providers = Ret m ->
  same_fold url url' ->
  get_oembed_endpoint m url = get_oembed_endpoint m url'.
Proof.
  intros Hc Hu.
  destruct (compile_items providers m Hc) as [Hitems _].
  assert (Hi : forall k v, In (k, v) m -> ignorecase k = true).
  { intros k v Hin. destruct (Hitems k v Hin) as (ss & t & _ & _ & _ & -> & _). reflexivity. }
  clear Hitems Hc. induction m as [|[k v] m IH]; [reflexivity|].
  cbn [get_oembed_endpoint].
  rewrite (pattern_match_fold k url url' (Hi k v (or_introl eq_refl)) Hu).
  destruct (pattern_match k url'); [reflexivity|].
  apply IH. intros k0 v0 Hin. apply (Hi k0 v0). right. exact Hin.
Qed.

Lemma get_oembed_endpoint_ignores_case_witness :
  get_oembed_endpoint fixture_map (txt "HTTPS://Example.COM/Watch/123")
  = get_oembed_endpoint fixture_map (txt "https://example.com/watch/123").
Proof.
  apply (get_oembed_endpoint_ignores_case fixture_providers fixture_map).
  - vm_compute. reflexivity.
  - reflexivity.
Defined.

(** ** One registration, read back *)

Lemma map_each_of_strings ss :
  map_each scheme_to_regex_any (map JStr ss) = Ret (map scheme_to_regex ss).
Proof.
  induction ss as [|s ss IH]; [reflexivity|].
  cbn [map map_each scheme_to_regex_any bind]. rewrite IH. reflexivity.
Qed.

Lemma register_endpoint_sets e schemes template m :
  dict_get str_eqb KEY_SCHEMES e = Some (JArr (map JStr schemes)) -> schemes <> [] ->
  dict_get str_eqb KEY_URL e = Some (JStr template) -> template <> [] ->
  register_endpoint (JObj e) m
  = Ret (dict_set pattern_eqb (compiled_schemes schemes)
           (str_replace FORMAT_PLACEHOLDER FORMAT_JSON None template) m).
Proof.
  intros Hs Hss Hu Ht. unfold register_endpoint. cbn [py_get bind].
  unfold dict_get_default. rewrite Hs, Hu.
  destruct schemes as [|s ss]; [congruence|]. destruct template as [|c t]; [congruence|].
  cbn [map truthy negb orb bind py_iter].
  change (JStr s :: map JStr ss) with (map JStr (s :: ss)).
  rewrite map_each_of_strings. cbn [bind]. rewrite re_compile_schemes. reflexivity.
Qed.

(** X12.  Registering one complete endpoint entry and reading the map
    back: the map then holds the entry's filled-in template under the
    pattern object of its patterns; what the map holds under any other
    pattern object is unchanged; a pattern object that was not yet a key
    goes to the end of the map, and one that was keeps its place among
    the keys. *)
Theorem register_endpoint_round_trip
    (e : list (str * json)) (schemes : list str) (template : str) (m : endpoint_map_t) :
  dict_get str_eqb KEY_SCHEMES e = Some (JArr (map JStr schemes)) -> schemes <> [] ->
  dict_get str_eqb KEY_URL e = Some (JStr template) -> template <> [] ->
  let k := compiled_schemes schemes in
  let v := str_replace FORMAT_PLACEHOLDER FORMAT_JSON None template in
  exists m',
    register_endpoint (JObj e) m = Ret m' /\
    dict_get pattern_eqb k m' = Some v /\
    (forall k0, pattern_eqb k0 k = false ->
       dict_get pattern_eqb k0 m' = dict_get pattern_eqb k0 m) /\
    (dict_get pattern_eqb k m = None -> m' = m ++ [(k, v)]) /\
    (dict_get pattern_eqb k m <> None -> dict_keys m' = dict_keys m).
Proof.
  intros Hs Hss Hu Ht k v.
  exists (dict_set pattern_eqb k v m).
  split; [apply register_endpoint_sets; assumption|].
  split; [apply dict_get_set_same; apply pattern_eqb_refl|].
  split; [intros k0 H0; apply dict_get_set_other;
          [apply pattern_eqb_sym | apply pattern_eqb_trans | exact H0]|].
  destruct (dict_set_keys_cases Pattern str pattern_eqb k v m) as [[[k' [Hin Hk']] Hkeys]|[Hnone Happ]].
  - split; [|intros _; exact Hkeys].
    intro Hn. rewrite dict_get_none in Hn. rewrite (Hn k' Hin) in Hk'. discriminate.
  - split; [intros _; exact Happ|].
    intro Hn. exfalso. apply Hn. apply dict_get_none. exact Hnone.
Qed.

Lemma register_endpoint_round_trip_witness :
  exists m',
    register_endpoint
      (endpoint_entry [txt "https://example.com/video/*"]
                      (txt "https://specific.example.com/oembed.{format}"))
      fixture_map = Ret m' /\
    dict_get pattern_eqb (compiled_schemes [txt "https://example.com/video/*"]) m'
    = Some (txt "https://specific.example.com/oembed.json").
Proof.
  destruct (register_endpoint_round_trip
              [(KEY_SCHEMES, JArr (map JStr [txt "https://example.com/video/*"]));
               (KEY_URL, JStr (txt "https://specific.example.com/oembed.{format}"))]
              [txt "https://example.com/video/*"]
              (txt "https://specific.example.com/oembed.{format}")
              fixture_map)
    as [m' [H1 [H2 _]]].
  - reflexivity.
  - discriminate.
  - reflexivity.
  - discriminate.
  - exists m'. split; [exact H1 | exact H2].
Defined.

(** ** [get_oembed_data]: a body of the wrong shape *)

Lemma truthy_default_found key default d :
  truthy default = false ->
  truthy (dict_get_default str_eqb key default d) = true ->
  dict_get str_eqb key d = Some (dict_get_default str_eqb key default d).
Proof.
  unfold dict_get_default. intros Hd H.
  destruct (dict_get str_eqb key d) as [v|]; [reflexivity | congruence].
Qed.

(** X13.  When the GET is answered with a good status and a JSON body,
    the call raises [AttributeError] in two cases and in no other: the
    body is not a JSON object, or it is a video with a thumbnail whose
    [html] value is non-empty and not a string. *)
Theorem get_oembed_data_attribute_error
    (m : endpoint_map_t) (PreviewSession : Session) (url : str)
    (maxwidth maxheight : option Z) (session : option Session)
    (endpoint : str) (response : Response) (data : json) :
  get_oembed_endpoint m url = Some endpoint ->
  (forall q, match session with Some s => s | None => PreviewSession end q
             = Ret response) ->
  response_ok response = true ->
  json_body response = Some data ->
  snd (get_oembed_data m PreviewSession url maxwidth maxheight session)
    = Raise AttributeError
  <->
  ((forall d, data <> JObj d) \/
   (exists d markup,
      data = JObj d /\
      dict_get str_eqb KEY_TYPE d = Some (JStr VIDEO) /\
      dict_get str_eqb KEY_HTML d = Some markup /\
      truthy markup = true /\ (forall h, markup <> JStr h) /\
      present KEY_THUMBNAIL_URL d)).
Proof.
  intros He Hs Hok Hj.
  rewrite (get_oembed_data_fetched m PreviewSession url maxwidth maxheight session
             endpoint response data He Hs Hok Hj).
  split.
  - intro H. destruct data as [| | | | | |d]; try (left; intros d; discriminate).
    right. rewrite oembed_of_data_obj in H. cbv zeta in H.
    destruct (eq_str (dict_get_default str_eqb KEY_TYPE (JStr []) d) PHOTO &&
              truthy (dict_get_default str_eqb KEY_URL
                        (dict_get_default str_eqb KEY_IMAGE JNull d) d));
      [discriminate H|].
    destruct (eq_str (dict_get_default str_eqb KEY_TYPE (JStr []) d) VIDEO &&
              truthy (dict_get_default str_eqb KEY_HTML (JStr []) d) &&
              truthy (dict_get_default str_eqb KEY_THUMBNAIL_URL JNull d)) eqn:E;
      [|discriminate H].
    apply andb_true_iff in E. destruct E as [E Tt].
    apply andb_true_iff in E. destruct E as [Ty Th].
    apply eq_str_true in Ty. apply type_field_default in Ty; [|discriminate].
    exists d, (dict_get_default str_eqb KEY_HTML (JStr []) d).
    split; [reflexivity|]. split; [exact Ty|].
    split; [apply truthy_default_found; [reflexivity | exact Th]|].
    split; [exact Th|]. split.
    + intros h Eh. rewrite Eh in H. discriminate H.
    + exists (dict_get_default str_eqb KEY_THUMBNAIL_URL JNull d).
      split; [apply truthy_default_found; [reflexivity | exact Tt] | exact Tt].
  - intros [N|(d & markup & -> & Ty & Hh & Th & Nh & (t & Ht & Tt))].
    + destruct data as [| | | | | |d]; try reflexivity. exfalso. apply (N d). reflexivity.
    + assert (E1 : dict_get_default str_eqb KEY_TYPE (JStr []) d = JStr VIDEO)
        by (unfold dict_get_default; rewrite Ty; reflexivity).
      assert (E2 : dict_get_default str_eqb KEY_HTML (JStr []) d = markup)
        by (unfold dict_get_default; rewrite Hh; reflexivity).
      assert (E3 : dict_get_default str_eqb KEY_THUMBNAIL_URL JNull d = t)
        by (unfold dict_get_default; rewrite Ht; reflexivity).
      rewrite oembed_of_data_obj. cbv zeta. rewrite E1, E2, E3, Th, Tt.
      change (eq_str (JStr VIDEO) PHOTO) with false.
      change (eq_str (JStr VIDEO) VIDEO) with true. cbn [andb].
      destruct markup as [| | | |h| |]; try reflexivity. exfalso. apply (Nh h). reflexivity.
Qed.

Lemma get_oembed_data_attribute_error_witness :
  snd (get_oembed_data fixture_map (constant_session (mkResponse 200 (Some (JArr []))))
         fixture_url None None None) = Raise AttributeError.
Proof.
  apply (get_oembed_data_attribute_error fixture_map
           (constant_session (mkResponse 200 (Some (JArr [])))) fixture_url None None None
           fixture_endpoint (mkResponse 200 (Some (JArr []))) (JArr [])).
  - vm_compute. reflexivity.
  - intro q. reflexivity.
  - reflexivity.
  - reflexivity.
  - left. intros d. discriminate.
Defined.

(** ** [get_oembed_data]: what the request URL is made of *)

Lemma always_safe_query_char s : forallb always_safe s = true -> forallb query_char s = true.
Proof.
  induction s as [|c s IH]; [reflexivity|]. cbn [forallb].
  rewrite !andb_true_iff. intros [Hc Hs]. split; [|apply IH; exact Hs].
  unfold query_char. rewrite Hc. reflexivity.
Qed.

Lemma quote_plus_char_query c : forallb query_char (quote_plus_char c) = true.
Proof. destruct c as [[] [] [] [] [] [] [] []]; reflexivity. Qed.

Lemma quote_plus_query s : forallb query_char (quote_plus s) = true.
Proof.
  rewrite quote_plus_chars. induction s as [|c s IH]; [reflexivity|].
  cbn [flat_map]. rewrite forallb_app, quote_plus_char_query, IH. reflexivity.
Qed.

(** X14.  The URL the call sends its GET to is the endpoint URL, a
    question mark, and a query string made of letters, digits, [_.-~] and
    the marks [%+&=] only: no character of the URL asked about reaches
    the query string unencoded unless it is one of the always-safe
    ones. *)
Theorem get_oembed_data_query_is_encoded
    (m : endpoint_map_t) (PreviewSession : Session) (url : str)
    (maxwidth maxheight : option Z) (session : option Session) (endpoint : str) :
  get_oembed_endpoint m url = Some endpoint ->
  exists query,
    fst (get_oembed_data m PreviewSession url maxwidth maxheight session)
      = [endpoint ++ QUESTION ++ query] /\
    forallb query_char query = true.
Proof.
  intro He. unfold get_oembed_data. rewrite He.
  rewrite urlencode_oembed_params.
  match goal with |- context [endpoint ++ QUESTION ++ ?q] => exists q end.
  split.
  - destruct (match session with Some s => s | None => PreviewSession end _) as [r|e];
      [|reflexivity].
    destruct (negb (response_ok r)); [reflexivity|].
    destruct (response_json r); reflexivity.
  - rewrite !forallb_app, quote_plus_query.
    rewrite !(always_safe_query_char _ (str_of_int_safe _)). reflexivity.
Qed.

Lemma get_oembed_data_query_is_encoded_witness :
  exists query,
    fst (get_oembed_data fixture_map broken_session
           (txt "https://example.com/watch/a b&c=d#e?f") None None None)
      = [fixture_endpoint ++ QUESTION ++ query] /\
    forallb query_char query = true.
Proof.
  apply (get_oembed_data_query_is_encoded fixture_map broken_session
           (txt "https://example.com/watch/a b&c=d#e?f") None None None fixture_endpoint).
  vm_compute. reflexivity.
Defined.

(** ** Providers added at the end of the catalogue *)

Lemma register_endpoint_registered providers provider endpoints endpoint m m' :
  In provider providers ->
  py_iter (dict_get_default str_eqb KEY_ENDPOINTS (JArr []) provider) = Ret endpoints ->
  In endpoint endpoints ->
  register_endpoint endpoint m = Ret m' ->
  m' = m \/
  exists k v, registered_by providers k v /\ m' = dict_set pattern_eqb k v m.
Proof.
  intros Hp Hi He H.
  destruct (register_endpoint_result endpoint m m' H) as [e [-> Hcase]].
  cbv zeta in Hcase.
  destruct Hcase as [[_ ->]|(Ts & Tu & u & ss & Hu & Hiter & ->)]; [left; reflexivity|].
  right. exists (compiled_schemes ss), (str_replace FORMAT_PLACEHOLDER FORMAT_JSON None u).
  split; [|reflexivity].
  exists ss, u. split; [|split; [|split; [|split; reflexivity]]].
  - exists provider, endpoints, e. repeat split; try assumption.
    unfold dict_get_default in Hu.
    destruct (dict_get str_eqb KEY_URL e) as [w|]; [congruence | discriminate].
  - pose proof (truthy_iter_nonempty _ _ Ts Hiter) as N. intros ->. apply N. reflexivity.
  - rewrite Hu in Tu. cbn [truthy] in Tu. intros ->. discriminate Tu.
Qed.

Section Appended.

Variable later : list (list (str * json)).
Variable m1 : endpoint_map_t.

(** An item of the map as it was, and the item at the same place now:
    the key is the same, and the value is the same or comes from one of
    the later providers. *)
Let kept (x y : Pattern * str) : Prop :=
  fst x = fst y /\ (snd y = snd x \/ registered_by later (fst y) (snd y)).

Let grown (m : endpoint_map_t) : Prop :=
  (forall k v, In (k, v) m -> exists ss, k = compiled_schemes ss) /\
  exists l extra, m = l ++ extra /\ Forall2 kept m1 l.

Lemma dict_set_over k v : forall old l extra,
  Forall2 kept old l ->
  (forall k' v', In (k', v') l -> exists ss, k' = compiled_schemes ss) ->
  registered_by later k v ->
  exists l' extra',
    dict_set pattern_eqb k v (l ++ extra) = l' ++ extra' /\ Forall2 kept old l'.
Proof.
  intros old l extra H. induction H as [|x [ky vy] old l Hxy Hrest IH]; intros Hwf Hr.
  - exists [], (dict_set pattern_eqb k v extra). split; [reflexivity | constructor].
  - cbn [app dict_set]. destruct (pattern_eqb ky k) eqn:E.
    + exists ((ky, v) :: l), extra. split; [reflexivity|].
      constructor; [|exact Hrest]. destruct Hxy as [Hk _]. split; [exact Hk|].
      right. cbn [fst snd].
      destruct (Hwf ky vy (or_introl eq_refl)) as [ss0 ->].
      destruct Hr as (ss & t & He & Hss & Ht & Ek & Ev).
      apply pattern_eqb_true in E. destruct E as [E _]. rewrite Ek in E.
      rewrite (compiled_schemes_same ss0 ss E).
      exists ss, t. repeat split; assumption.
    + destruct IH as (l' & extra' & El & Hl); [|exact Hr|].
      { intros k' v' Hin. apply (Hwf k' v'). right. exact Hin. }
      exists ((ky, vy) :: l'), extra'. split; [cbn [app]; rewrite El; reflexivity|].
      constructor; assumption.
Qed.

Lemma register_endpoint_grown provider endpoints endpoint m m' :
  In provider later ->
  py_iter (dict_get_default str_eqb KEY_ENDPOINTS (JArr []) provider) = Ret endpoints ->
  In endpoint endpoints ->
  grown m -> register_endpoint endpoint m = Ret m' -> grown m'.
Proof.
  intros Hp Hi He [Hwf (l & extra & -> & Hl)] H.
  destruct (register_endpoint_registered later provider endpoints endpoint _ m' Hp Hi He H)
    as [->|(k & v & Hr & ->)].
  - split; [exact Hwf|]. exists l, extra. split; [reflexivity | exact Hl].
  - split.
    + intros k0 v0 Hin. apply dict_set_items_cases in Hin.
      destruct Hin as [Hin|[_ [->|[Hin _]]]].
      * apply (Hwf k0 v0 Hin).
      * destruct Hr as (ss & t & _ & _ & _ & -> & _). exists ss. reflexivity.
      * destruct (in_keys_item _ k0 Hin) as [v1 Hv1]. apply (Hwf k0 v1 Hv1).
    + apply dict_set_over; [exact Hl | | exact Hr].
      intros k' v' Hin. apply (Hwf k' v'). apply in_or_app. left. exact Hin.
Qed.

Lemma for_each_provider_grown m m' :
  grown m -> for_each register_provider later m = Ret m' -> grown m'.
Proof.
  apply (for_each_invariant register_provider grown later).
  intros provider st st' Hp Hst Hreg. unfold register_provider in Hreg.
  destruct (py_iter (dict_get_default str_eqb KEY_ENDPOINTS (JArr []) provider))
    as [endpoints|x] eqn:Ei; cbn [bind] in Hreg; [|discriminate].
  apply (for_each_invariant register_endpoint grown endpoints) with (st := st);
    [| exact Hst | exact Hreg].
  intros endpoint s1 s2 He Hs1 Hs2.
  apply (register_endpoint_grown provider endpoints endpoint s1 s2); assumption.
Qed.

Lemma kept_refl : forall m, Forall2 kept m m.
Proof.
  induction m as [|x m IH]; constructor; [|exact IH]. split; [reflexivity | left; reflexivity].
Qed.

Lemma kept_keys : forall old l, Forall2 kept old l -> dict_keys l = dict_keys old.
Proof.
  intros old l H. induction H as [|x y old l [Hk _] _ IH]; [reflexivity|].
  unfold dict_keys in *. cbn [map]. rewrite Hk, IH. reflexivity.
Qed.

Lemma lookup_kept url extra : forall old l,
  Forall2 kept old l ->
  forall endpoint, get_oembed_endpoint old url = Some endpoint ->
  exists endpoint',
    get_oembed_endpoint (l ++ extra) url = Some endpoint' /\
    (endpoint' = endpoint \/
     exists k, In (k, endpoint) old /\ registered_by later k endpoint' /\
               pattern_match k url = true).
Proof.
  intros old l H. induction H as [|[kx vx] [ky vy] old l [Hk Hv] _ IH]; intros endpoint Hg.
  - discriminate Hg.
  - cbn [fst snd] in Hk, Hv. subst ky. cbn [app get_oembed_endpoint] in *.
    destruct (pattern_match kx url) eqn:E.
    + inversion Hg; subst endpoint. exists vy. split; [reflexivity|].
      destruct Hv as [->|Hr]; [left; reflexivity|].
      right. exists kx. split; [left; reflexivity|]. split; assumption.
    + destruct (IH endpoint Hg) as [endpoint' [Hg' Hcase]].
      exists endpoint'. split; [exact Hg'|].
      destruct Hcase as [->|(k & Hin & Hr & Hm)]; [left; reflexivity|].
      right. exists k. split; [right; exact Hin|]. split; assumption.
Qed.

Lemma grown_start :
  (forall k v, In (k, v) m1 -> exists ss, k = compiled_schemes ss) -> grown m1.
Proof.
  intro Hwf. split; [exact Hwf|]. exists m1, []. split; [|apply kept_refl].
  rewrite app_nil_r. reflexivity.
Qed.

Lemma grown_end m2 :
  grown m2 ->
  (exists extra, dict_keys m2 = dict_keys m1 ++ extra) /\
  (forall url endpoint, get_oembed_endpoint m1 url = Some endpoint ->
     exists endpoint',
       get_oembed_endpoint m2 url = Some endpoint' /\
       (endpoint' = endpoint \/
        exists k, In (k, endpoint) m1 /\ registered_by later k endpoint' /\
                  pattern_match k url = true)).
Proof.
  intros [_ (l & extra & -> & Hl)]. split.
  - exists (dict_keys extra). unfold dict_keys. rewrite map_app.
    pose proof (kept_keys m1 l Hl) as E. unfold dict_keys in E. rewrite E. reflexivity.
  - intros url endpoint Hg. apply (lookup_kept url extra m1 l Hl endpoint Hg).
Qed.

End Appended.

(** X15.  Compiling a catalogue with further providers at its end: the
    first part compiles on its own, and the keys of its map are the
    first keys of the whole map, in the same order.  A URL that had an
    endpoint keeps one: the same endpoint, unless one of the further
    providers registers the very pattern object that answered, in which
    case the answer is that provider's endpoint. *)
Theorem compile_appended_providers
    (providers later : list (list (str * json))) (m2 : endpoint_map_t) :
  compile_oembed_providers (providers ++ later) = Ret m2 ->
  exists m1,
    compile_oembed_providers providers = Ret m1 /\
    (exists extra, dict_keys m2 = dict_keys m1 ++ extra) /\
    (forall url endpoint, get_oembed_endpoint m1 url = Some endpoint ->
       exists endpoint',
         get_oembed_endpoint m2 url = Some endpoint' /\
         (endpoint' = endpoint \/
          exists k, In (k, endpoint) m1 /\ registered_by later k endpoint' /\
                    pattern_match k url = true)).
Proof.
  intro H. unfold compile_oembed_providers in H. rewrite for_each_app in H.
  destruct (for_each register_provider providers []) as [m1|x] eqn:E1; cbn [bind] in H;
    [|discriminate].
  exists m1. split; [exact E1|].
  apply (grown_end later m1 m2).
  apply (for_each_provider_grown later m1 m1 m2); [|exact H].
  apply grown_start. intros k v Hin.
  destruct (compile_items providers m1 E1) as [Hitems _].
  destruct (Hitems k v Hin) as (ss & t & _ & _ & _ & -> & _). exists ss. reflexivity.
Qed.

Lemma compile_appended_providers_witness :
  exists m1,
    compile_oembed_providers (firstn 1 generic_specific_providers) = Ret m1 /\
    (exists extra, dict_keys generic_specific_map = dict_keys m1 ++ extra) /\
    (forall url endpoint, get_oembed_endpoint m1 url = Some endpoint ->
       exists endpoint',
         get_oembed_endpoint generic_specific_map url = Some endpoint' /\
         (endpoint' = endpoint \/
          exists k, In (k, endpoint) m1 /\
                    registered_by (skipn 1 generic_specific_providers) k endpoint' /\
                    pattern_match k url = true)).
Proof.
  apply (compile_appended_providers (firstn 1 generic_specific_providers) (skipn 1 generic_specific_providers)
           generic_specific_map).
  vm_compute. reflexivity.
Defined.

(** ** [scheme_to_regex]: the two schemes *)

Lemma scheme_prefix_wild rest :
  contains WILD_SUB (HTTP ++ rest) = contains WILD_SUB (HTTPS ++ rest) /\
  exists r', str_replace WILD_SUB COLON_SLASHES (Some 1) (HTTP ++ rest) = HTTP ++ r' /\
             str_replace WILD_SUB COLON_SLASHES (Some 1) (HTTPS ++ rest) = HTTPS ++ r'.
Proof.
  split; [reflexivity|].
  exists (if startswith STAR_DOT rest
          then replace_scan WILD_SUB COLON_SLASHES (Some 0) 2 rest
          else replace_scan WILD_SUB COLON_SLASHES (Some 1) 0 rest).
  split.
  - destruct rest as [|x [|y rest]]; [reflexivity | |].
    + destruct x as [[] [] [] [] [] [] [] []]; reflexivity.
    + destruct x as [[] [] [] [] [] [] [] []]; try reflexivity.
      destruct y as [[] [] [] [] [] [] [] []]; reflexivity.
  - destruct rest as [|x [|y rest]]; [reflexivity | |].
    + destruct x as [[] [] [] [] [] [] [] []]; reflexivity.
    + destruct x as [[] [] [] [] [] [] [] []]; try reflexivity.
      destruct y as [[] [] [] [] [] [] [] []]; reflexivity.
Qed.

Lemma scheme_variants_http_https rest v :
  In v (scheme_variants (HTTP ++ rest)) <-> In v (scheme_variants (HTTPS ++ rest)).
Proof.
  unfold scheme_variants. cbv zeta. rewrite !fromkeys_list_In.
  destruct (scheme_prefix_wild rest) as [Ec (r' & E1 & E2)].
  rewrite Ec, E1, E2.
  destruct (contains WILD_SUB (HTTPS ++ rest)); cbn [app flat_map];
    rewrite ?swap_scheme_http, ?swap_scheme_https; cbn [In app]; tauto.
Qed.

(** X16.  A pattern written with [http://] and the same pattern written
    with [https://] give expressions that accept the same URLs, with or
    without [re.IGNORECASE]. *)
Theorem scheme_to_regex_either_scheme (rest : str) (flag : bool) (url : str) :
  re_match (scheme_to_regex (HTTP ++ rest)) flag url
  = re_match (scheme_to_regex (HTTPS ++ rest)) flag url.
Proof.
  destruct (re_match (scheme_to_regex (HTTP ++ rest)) flag url) eqn:E1,
           (re_match (scheme_to_regex (HTTPS ++ rest)) flag url) eqn:E2; try reflexivity.
  - destruct (scheme_match_inv _ flag url E1) as [v [s' [Hv Hm]]].
    apply scheme_variants_http_https in Hv.
    rewrite (scheme_match_intro _ flag v url s' Hv Hm) in E2. discriminate.
  - destruct (scheme_match_inv _ flag url E2) as [v [s' [Hv Hm]]].
    apply scheme_variants_http_https in Hv.
    rewrite (scheme_match_intro _ flag v url s' Hv Hm) in E1. discriminate.
Qed.

(** ** [scheme_to_regex]: the list of variants *)

Section FromKeys.

Let add (d : dict str unit) (k : str) : dict str unit := dict_set str_eqb k tt d.

Lemma str_eqb_trans a b c : str_eqb a b = true -> str_eqb b c = true -> str_eqb a c = true.
Proof. rewrite !str_eqb_eq. congruence. Qed.

Lemma add_cases d k :
  (In k (dict_keys d) /\ dict_keys (add d k) = dict_keys d) \/
  (~ In k (dict_keys d) /\ dict_keys (add d k) = dict_keys d ++ [k]).
Proof.
  destruct (dict_set_keys_cases str unit str_eqb k tt d) as [[[k' [Hin Hk]] E]|[Hnone E]].
  - left. apply str_eqb_eq in Hk. subst k'. split; assumption.
  - right. split.
    + intro Hin. pose proof (Hnone k Hin) as F. rewrite str_eqb_refl in F. discriminate.
    + unfold add. rewrite E. unfold dict_keys. rewrite map_app. reflexivity.
Qed.

Lemma fromkeys_shape l : forall d,
  NoDup (dict_keys d) ->
  NoDup (dict_keys (fold_left add l d)) /\
  (exists extra, dict_keys (fold_left add l d) = dict_keys d ++ extra) /\
  length (dict_keys (fold_left add l d)) <= length (dict_keys d) + length l.
Proof.
  induction l as [|k l IH]; intros d Hd; cbn [fold_left].
  - split; [exact Hd|]. split; [exists []; rewrite app_nil_r; reflexivity | cbn; lia].
  - assert (Hadd : NoDup (dict_keys (add d k)) /\
                   (exists e, dict_keys (add d k) = dict_keys d ++ e) /\
                   length (dict_keys (add d k)) <= length (dict_keys d) + 1).
    { destruct (add_cases d k) as [[_ E]|[Hn E]]; rewrite E.
      - split; [exact Hd|]. split; [exists []; rewrite app_nil_r; reflexivity | lia].
      - split; [|split; [exists [k]; reflexivity | rewrite length_app; cbn; lia]].
        rewrite <- (rev_involutive (dict_keys d ++ [k])). apply NoDup_rev.
        rewrite rev_app_distr. cbn [rev app]. constructor.
        + rewrite <- in_rev. exact Hn.
        + apply NoDup_rev. exact Hd. }
    destruct Hadd as [N1 [[e1 E1] L1]].
    destruct (IH (add d k) N1) as [N2 [[e2 E2] L2]].
    split; [exact N2|]. split.
    + exists (e1 ++ e2). rewrite E2, E1, app_assoc. reflexivity.
    + cbn [length]. lia.
Qed.

End FromKeys.

Lemma swap_scheme_length u : length (swap_scheme u) <= 1.
Proof.
  unfold swap_scheme. destruct (startswith HTTPS u); [cbn; lia|].
  destruct (startswith HTTP u); cbn; lia.
Qed.

(** X17.  The variants [scheme_to_regex] works from are between one and
    four, the pattern itself comes first, and none occurs twice; a
    pattern that has neither a wildcard subdomain nor one of the two
    schemes is its only variant. *)
Theorem scheme_variants_shape (scheme : str) :
  NoDup (scheme_variants scheme) /\
  (exists others, scheme_variants scheme = scheme :: others) /\
  length (scheme_variants scheme) <= 4 /\
  (contains WILD_SUB scheme = false -> startswith HTTPS scheme = false ->
   startswith HTTP scheme = false -> scheme_variants scheme = [scheme]).
Proof.
  split; [|split; [|split]].
  - unfold scheme_variants, fromkeys_list. cbv zeta.
    apply fromkeys_shape. constructor.
  - unfold scheme_variants, fromkeys_list. cbv zeta.
    rewrite <- app_assoc. cbn [app fold_left].
    match goal with |- context [fold_left ?f ?l ?d] =>
      destruct (fromkeys_shape l d) as [_ [[extra E] _]]
    end.
    + cbn. constructor; [intros [] | constructor].
    + exists extra. rewrite E. reflexivity.
  - unfold scheme_variants, fromkeys_list. cbv zeta.
    match goal with |- context [fold_left ?f ?l ?d] =>
      destruct (fromkeys_shape l d) as [_ [_ L]]; [constructor|]
    end.
    eapply Nat.le_trans; [exact L|]. cbn [dict_keys map length Nat.add].
    destruct (contains WILD_SUB scheme); cbn [app flat_map length]; rewrite ?length_app.
    + pose proof (swap_scheme_length scheme).
      pose proof (swap_scheme_length (str_replace WILD_SUB COLON_SLASHES (Some 1) scheme)).
      cbn [length]. lia.
    + pose proof (swap_scheme_length scheme). cbn [length]. lia.
  - intros Hc Hs Hp. unfold scheme_variants. cbv zeta. rewrite Hc.
    cbn [app flat_map]. unfold swap_scheme. rewrite Hs, Hp. reflexivity.
Qed.

(** ** One endpoint entry: the order of the checks *)

Lemma iter_nonempty_truthy v items :
  py_iter v = Ret items -> items <> [] -> truthy v = true.
Proof.
  destruct v as [| | | |s|l|l]; cbn [py_iter truthy]; intros H N; try discriminate.
  - destruct s; [|reflexivity]. inversion H; subst. exfalso. apply N. reflexivity.
  - destruct l; [|reflexivity]. inversion H; subst. exfalso. apply N. reflexivity.
  - destruct l; [|reflexivity]. inversion H; subst. exfalso. apply N. reflexivity.
Qed.

Lemma map_each_first_bad ss bad rest x :
  scheme_to_regex_any bad = Raise x ->
  map_each scheme_to_regex_any (map JStr ss ++ bad :: rest) = Raise x.
Proof.
  intro Hb. induction ss as [|s ss IH]; cbn [map app map_each scheme_to_regex_any bind].
  - rewrite Hb. reflexivity.
  - rewrite IH. reflexivity.
Qed.

(** X18.  What [compile_oembed_providers] does with one endpoint entry,
    check by check.  An entry whose [schemes] or [url] value is falsy
    (missing, [None], empty, zero) is skipped, whatever the other value
    is.  Otherwise a [url] that is not a string raises [AttributeError]
    before the patterns are looked at; then a [schemes] value that cannot
    be iterated raises [TypeError]; then the first pattern that is not a
    string raises [AttributeError] if it is a list or an object and
    [TypeError] if not. *)
Theorem register_endpoint_checks (e : list (str * json)) (m : endpoint_map_t) :
  let schemes := dict_get_default str_eqb KEY_SCHEMES (JArr []) e in
  let endpoint_url := dict_get_default str_eqb KEY_URL JNull e in
  (truthy schemes = false \/ truthy endpoint_url = false ->
   register_endpoint (JObj e) m = Ret m) /\
  (truthy schemes = true -> truthy endpoint_url = true ->
   (forall u, endpoint_url <> JStr u) ->
   register_endpoint (JObj e) m = Raise AttributeError) /\
  (forall u, truthy schemes = true -> endpoint_url = JStr u -> u <> [] ->
   not_iterable schemes ->
   register_endpoint (JObj e) m = Raise TypeError) /\
  (forall u items ss bad rest,
     endpoint_url = JStr u -> u <> [] ->
     py_iter schemes = Ret items -> items = map JStr ss ++ bad :: rest ->
     (forall s, bad <> JStr s) ->
     register_endpoint (JObj e) m
     = Raise (match bad with JArr _ | JObj _ => AttributeError | _ => TypeError end)).
Proof.
  intros schemes endpoint_url. unfold register_endpoint. cbn [py_get bind].
  fold schemes endpoint_url.
  split; [|split; [|split]].
  - intros [H|H]; rewrite H; cbn [negb orb]; [|rewrite orb_true_r]; reflexivity.
  - intros Hs Hu N. rewrite Hs, Hu. cbn [negb orb].
    destruct endpoint_url as [| | | |u| |]; try reflexivity.
    exfalso. apply (N u). reflexivity.
  - intros u Hs Hu Hne Hi. rewrite Hs, Hu.
    destruct u as [|c u]; [congruence|]. cbn [truthy negb orb bind].
    destruct schemes; try contradiction; reflexivity.
  - intros u items ss bad rest Hu Hne Hi Hitems Hbad.
    assert (Hs : truthy schemes = true).
    { apply (iter_nonempty_truthy schemes items Hi). rewrite Hitems.
      destruct ss; discriminate. }
    rewrite Hs, Hu, Hi. destruct u as [|c u]; [congruence|].
    cbn [truthy negb orb bind]. rewrite Hitems.
    rewrite (map_each_first_bad ss bad rest
               (match bad with JArr _ | JObj _ => AttributeError | _ => TypeError end)).
    + reflexivity.
    + destruct bad as [| | | |s| |]; try reflexivity. exfalso. apply (Hbad s). reflexivity.
Qed.
